(** * Stockham FFT benchmark driver: template instantiation, configuration
      probing, benchmarking and verification

    A shallow embedding of [main_fft_many_floats_stockham_twiddles_images.cpp]:
    [ReplaceString], the [ScopedKernel] constructor, [withInput] and [main],
    with the properties of the natural-language specification stated over
    them. *)

From Stdlib Require Import Ascii String DecimalString.
From Stdlib Require Import ZArith List Lia Bool Arith PeanoNat Permutation.
From Stdlib Require Floats.SpecFloat.
Import ListNotations.

Local Open Scope Z_scope.

(** ** Machine integers

    [size_t] and [cl_ulong] are 64-bit unsigned, [int] is 32-bit signed.
    Values are carried as [Z]; every conversion is written out. *)

Module Mach.

Definition size_t_mod : Z := 2 ^ 64.
Definition int_mod : Z := 2 ^ 32.
Definition INT_MAX : Z := 2 ^ 31 - 1.
Definition INT_MIN : Z := - 2 ^ 31.

(** Conversion to [size_t] / [cl_ulong]: reduction modulo 2^64. *)
Definition to_size_t (z : Z) : Z := z mod size_t_mod.

(** Conversion to [int]: two's complement wrap-around (the behaviour of
    every mainstream compiler, and of the language since C++20). *)
Definition to_int (z : Z) : Z := (z + 2 ^ 31) mod int_mod - 2 ^ 31.

Definition in_int (z : Z) : bool := (INT_MIN <=? z) && (z <=? INT_MAX).
End Mach.

(** ** Strings

    A [std::string] is a sequence of characters; positions are [nat]
    ([npos] is [None]).  Positions never exceed the length of the string
    they index, so no wrap-around of [size_t] is involved. *)

Module Str.

Definition str := list ascii.

Definition lit (s : String.string) : str := list_ascii_of_string s.

(** [prefix_b p s]: [p] is a prefix of [s]. *)
Fixpoint prefix_b (p s : str) : bool :=
  match p, s with
  | [], _ => true
  | _ :: _, [] => false
  | a :: p', b :: s' => Ascii.eqb a b && prefix_b p' s'
  end.

(** First position [>= i] at which [search] occurs in [s], where [s] is the
    part of the subject that starts at position [i]. *)
Fixpoint find_from (s search : str) (i : nat) : option nat :=
  if prefix_b search s then Some i
  else match s with
       | [] => None
       | _ :: s' => find_from s' search (S i)
       end.

(** [std::string::find(search, pos)]: [npos] when [pos > size()]; an empty
    [search] is found at [pos] itself. *)
Definition find (subject search : str) (pos : nat) : option nat :=
  if (pos <=? length subject)%nat
  then find_from (skipn pos subject) search pos
  else None.

(** [std::string::replace(pos, len, r)] for [pos + len <= size()]. *)
Definition replace (subject : str) (pos len : nat) (r : str) : str :=
  firstn pos subject ++ r ++ skipn (pos + len) subject.

(** The loop of [ReplaceString], one iteration per unit of fuel:
<<
  while ((pos = subject.find(search, pos)) != std::string::npos) {
    subject.replace(pos, search.length(), replace);
    pos += replace.length();
  }
  return subject;
>>
    [None] means that the fuel ran out before the loop ended. *)
Fixpoint ReplaceString_loop (fuel : nat) (subject search repl : str)
    (pos : nat) : option str :=
  match fuel with
  | O => None
  | S fuel' =>
      match find subject search pos with
      | None => Some subject
      | Some p =>
          ReplaceString_loop fuel' (replace subject p (length search) repl)
            search repl (p + length repl)
      end
  end.

(** [ReplaceString]: the loop started at position 0.  One iteration per
    character of the subject plus one is enough whenever the loop
    terminates at all (lemma [ReplaceString_loop_enough] below). *)
Definition ReplaceString (subject search repl : str) : option str :=
  ReplaceString_loop (S (length subject)) subject search repl 0.

(** *** The length limit of [std::string]

    A [std::string] holds at most [max_size()] characters, and fewer where
    memory runs out first: [replace] throws ([std::length_error], or
    [std::bad_alloc] from the allocation) when its result would be longer.
    The limit depends on the platform; it is the parameter [max_size] of
    the definitions below.  [ReplaceString_loop] above is the loop on
    strings that stay below the limit (lemma [ReplaceString_run_returned]). *)

(** How a call of [ReplaceString] ends. *)
Inductive outcome : Type :=
| Returned (result : str)
| Thrown.

(** What one evaluation of the condition of the loop, and of its body if
    the condition holds, leads to. *)
Inductive step : Type :=
| Done (result : str)
| Throws
| Next (subject : str) (pos : nat).

(** [find] gives [npos]: the loop is left and the subject returned.
    Otherwise [subject.replace(pos, search.length(), replace)] throws if
    [size() - search.length() + replace.length()] exceeds the limit, and
    else the loop goes on behind the replacement. *)
Definition ReplaceString_step (max_size : nat) (subject search repl : str)
    (pos : nat) : step :=
  match find subject search pos with
  | None => Done subject
  | Some p =>
      if (max_size <? length subject - length search + length repl)%nat
      then Throws
      else Next (replace subject p (length search) repl) (p + length repl)
  end.

(** The loop with the limit, one iteration per unit of fuel; [None] means
    that the loop is still running when the fuel is used up. *)
Fixpoint ReplaceString_run (max_size fuel : nat) (subject search repl : str)
    (pos : nat) : option outcome :=
  match fuel with
  | O => None
  | S fuel' =>
      match ReplaceString_step max_size subject search repl pos with
      | Done result => Some (Returned result)
      | Throws => Some Thrown
      | Next subject' pos' =>
          ReplaceString_run max_size fuel' subject' search repl pos'
      end
  end.

(** [std::to_string] on an [int]. *)
Definition to_string (z : Z) : str :=
  lit (NilZero.string_of_int (Z.to_int z)).

End Str.

Import Str.

(** ** The kernel template and its four placeholders *)

Module Template.

Inductive placeholder : Type :=
| MINUS_PI_over_N_GLOBAL_BUTTERFLIES
| N_GLOBAL_BUTTERFLIES
| LOG2_N_GLOBAL_BUTTERFLIES
| N_LOCAL_BUTTERFLIES.

(** The search strings of the four [ReplaceString] calls. *)
Definition token (k : placeholder) : str :=
  match k with
  | MINUS_PI_over_N_GLOBAL_BUTTERFLIES =>
      lit "replace_MINUS_PI_over_N_GLOBAL_BUTTERFLIES"
  | N_GLOBAL_BUTTERFLIES => lit "replace_N_GLOBAL_BUTTERFLIES"
  | LOG2_N_GLOBAL_BUTTERFLIES => lit "replace_LOG2_N_GLOBAL_BUTTERFLIES"
  | N_LOCAL_BUTTERFLIES => lit "replace_N_LOCAL_BUTTERFLIES"
  end.

(** The order in which the constructor nests its calls, innermost first. *)
Definition source_order : list placeholder :=
  [MINUS_PI_over_N_GLOBAL_BUTTERFLIES; N_GLOBAL_BUTTERFLIES;
   LOG2_N_GLOBAL_BUTTERFLIES; N_LOCAL_BUTTERFLIES].

(** Modelled from the spec: [power_of_two_exponent] is declared outside this
    file; the spec calls its result "the base-2 logarithm" of the butterfly
    count. *)
Definition power_of_two_exponent (n : Z) : Z := Z.log2 n.

(** The replacement text of each placeholder.  [angle] is the content of
    [buf] after [snprintf(buf, sizeof(buf), "%a", (float)(-M_PI/nButterflies))],
    which the C library produces; it is a parameter here. *)
Definition value (angle : Z -> str) (nButterflies nButterfliesPerThread : Z)
    (k : placeholder) : str :=
  match k with
  | MINUS_PI_over_N_GLOBAL_BUTTERFLIES => angle nButterflies
  | N_GLOBAL_BUTTERFLIES => to_string nButterflies
  | LOG2_N_GLOBAL_BUTTERFLIES =>
      to_string (power_of_two_exponent nButterflies)
  | N_LOCAL_BUTTERFLIES => to_string nButterfliesPerThread
  end.

(** The placeholders of [order] substituted one after the other. *)
Fixpoint substitute (val : placeholder -> str) (order : list placeholder)
    (text : str) : option str :=
  match order with
  | [] => Some text
  | k :: rest =>
      match ReplaceString text (token k) (val k) with
      | Some text' => substitute val rest text'
      | None => None
      end
  end.

(** [replaced_str], the four nested calls of the constructor. *)
Definition instantiate (angle : Z -> str) (kernel_src : str)
    (nButterflies nButterfliesPerThread : Z) : option str :=
  match ReplaceString kernel_src
          (lit "replace_MINUS_PI_over_N_GLOBAL_BUTTERFLIES")
          (angle nButterflies) with
  | None => None
  | Some s1 =>
  match ReplaceString s1 (lit "replace_N_GLOBAL_BUTTERFLIES")
          (to_string nButterflies) with
  | None => None
  | Some s2 =>
  match ReplaceString s2 (lit "replace_LOG2_N_GLOBAL_BUTTERFLIES")
          (to_string (power_of_two_exponent nButterflies)) with
  | None => None
  | Some s3 =>
      ReplaceString s3 (lit "replace_N_LOCAL_BUTTERFLIES")
        (to_string nButterfliesPerThread)
  end end end.

(** A template seen as placeholders separated by ordinary text. *)
Inductive segment : Type :=
| Text (s : str)
| Hole (k : placeholder).

Definition render_segment (g : segment) : str :=
  match g with
  | Text s => s
  | Hole k => token k
  end.

Definition render (segs : list segment) : str :=
  concat (map render_segment segs).

Definition fill_segment (val : placeholder -> str) (g : segment) : str :=
  match g with
  | Text s => s
  | Hole k => val k
  end.

(** Every placeholder of the template replaced by its value. *)
Definition fill (val : placeholder -> str) (segs : list segment) : str :=
  concat (map (fill_segment val) segs).

(** [starts_in t u]: an occurrence of [t] could begin at some position of
    [u], either lying inside [u] or running over its end. *)
Fixpoint starts_in (t u : str) : bool :=
  match u with
  | [] => false
  | _ :: u' => prefix_b t u || prefix_b u t || starts_in t u'
  end.

(** [inert u]: no placeholder can begin inside [u]. *)
Definition inert (u : str) : bool :=
  forallb (fun k => negb (starts_in (token k) u)) source_order.

Definition inert_segment (g : segment) : bool :=
  match g with
  | Text s => inert s
  | Hole _ => true
  end.

Definition placeholder_eqb (a b : placeholder) : bool :=
  match a, b with
  | MINUS_PI_over_N_GLOBAL_BUTTERFLIES, MINUS_PI_over_N_GLOBAL_BUTTERFLIES
  | N_GLOBAL_BUTTERFLIES, N_GLOBAL_BUTTERFLIES
  | LOG2_N_GLOBAL_BUTTERFLIES, LOG2_N_GLOBAL_BUTTERFLIES
  | N_LOCAL_BUTTERFLIES, N_LOCAL_BUTTERFLIES => true
  | _, _ => false
  end.

(** One placeholder of the template replaced by the text [r]. *)
Definition fill_one (k : placeholder) (r : str) (g : segment) : segment :=
  match g with
  | Text s => Text s
  | Hole k' => if placeholder_eqb k' k then Text r else Hole k'
  end.

(** The placeholders of [order] replaced one after the other. *)
Definition fill_in_order (val : placeholder -> str) (order : list placeholder)
    (segs : list segment) : list segment :=
  fold_left (fun sg k => map (fill_one k (val k)) sg) order segs.

Definition is_hole (k : placeholder) (g : segment) : bool :=
  match g with
  | Text _ => false
  | Hole k' => placeholder_eqb k' k
  end.

End Template.

(** ** Floating-point values

    [float] and [double] are IEEE 754 binary32 and binary64, given by the
    executable specification of the standard library. *)

Module FP.

Import SpecFloat.

Definition float : Type := spec_float.
Definition double : Type := spec_float.
Definition complex_float : Type := (float * float)%type.

Definition double_zero : double := S754_zero false.
Definition double_add : double -> double -> double := SFadd 53 1024.
Definition double_div : double -> double -> double := SFdiv 53 1024.

(** Conversion of an integer to [double], rounding to nearest even. *)
Definition double_of_Z (z : Z) : double := binary_normalize 53 1024 z 0 false.

(** [(int)d]: truncation towards zero; undefined ([None]) for a NaN, an
    infinity, or a value outside the range of [int]. *)
Definition double_to_int (d : double) : option Z :=
  match d with
  | S754_zero _ => Some 0
  | S754_finite s m e =>
      let z := cond_Zopp s (Z.shiftl (Zpos m) e) in
      if Mach.in_int z then Some z else None
  | _ => None
  end.

(** The literal [0.01f]: the binary32 value nearest to 1/100,
    [0x1.47ae14p-7]. *)
Definition f_0_01 : float := S754_finite false 10737418 (-30).

Definition float_sub : float -> float -> float := SFsub 24 128.
Definition float_abs : float -> float := SFabs.
Definition float_leb : float -> float -> bool := SFleb.

End FP.

(** ** The OpenCL platform as seen by the program *)

Module CL.

Import FP.

Definition CL_SUCCESS : Z := 0.

Inductive mem_flags : Type := CL_MEM_READ_ONLY | CL_MEM_WRITE_ONLY.
Inductive profiling_info : Type :=
| CL_PROFILING_COMMAND_START
| CL_PROFILING_COMMAND_END.

(** The API calls the program issues, with the arguments that vary. *)
Inductive cl_call : Type :=
| clGetPlatformIDs
| clGetDeviceIDs
| clCreateContext
| clCreateCommandQueue
| clGetDeviceInfo_LOCAL_MEM_SIZE
| clCreateProgramWithSource (src : str)
| clBuildProgram (program : Z)
| clCreateKernel (program : Z)
| clGetKernelWorkGroupInfo_WORK_GROUP_SIZE (kernel : Z)
| clReleaseKernel (kernel : Z)
| clReleaseProgram (program : Z)
| clCreateImage (flags : mem_flags) (image_width : Z)
| clEnqueueWriteImage (image : Z) (blocking : bool) (region0 : Z)
    (data : list float)
| clSetKernelArg (kernel : Z) (arg_index : Z) (arg_size : Z)
    (arg_value : option Z)
| clEnqueueNDRangeKernel (kernel : Z) (global_item_size local_item_size : Z)
| clWaitForEvents (event : Z)
| clGetEventProfilingInfo (event : Z) (param : profiling_info)
| clEnqueueReadImage (image : Z) (blocking : bool) (region0 : Z)
| clReleaseMemObject (image : Z)
| clFlush
| clFinish
| clReleaseCommandQueue
| clReleaseContext.

(** What a call gives back: its status, the scalar it writes through its
    output pointer (a handle or a queried value), and for a read the data. *)
Record response : Type := {
  ret : Z;
  out : Z;
  data_out : list complex_float
}.

Inductive check_id : Type := check_consistency | check_device_result.

Inductive message : Type :=
| msg_not_enough_local_memory
| msg_make_ref_1
| msg_make_ref_2
| msg_verify_consistency
| msg_ok
| msg_global_size (global_item_size : Z)
| msg_avg_kernel_duration (us : Z)
| msg_verifying_results
| msg_workgroup_max_size (workgroup_max_sz nButterfliesPerThread : Z)
| msg_input_size (sz : Z).

Inductive event : Type :=
| Call (c : cl_call) (r : response)
| Cout (m : message)
| Verified (which : check_id) (epsilon : float) (equal : bool).

(** Everything outside the program: the device, the collaborators declared
    in other files, and the sizes of the element types. *)
Record World : Type := {
  device : nat -> cl_call -> response;
  rand_float : nat -> float;
  makeRefForwardFft : list float -> list complex_float;
  cpu_fft_norecursion : list float -> list complex_float;
  bitReversePermutation : list float -> list float;
  angle_literal : Z -> str;
  kernel_src : str;
  sizeof_float : Z;
  sizeof_complex_float : Z;
  sizeof_cl_mem : Z
}.

Inductive error : Type :=
| PreconditionFailure
| ClError (status : Z)
| BadAlloc
| UndefinedBehaviour.

Inductive result (A : Type) : Type :=
| Ok (a : A)
| Err (e : error)
| OutOfFuel.

Arguments Ok {A} a.
Arguments Err {A} e.
Arguments OutOfFuel {A}.

(** The program state the model threads: what happened so far, the number
    of API calls issued, and the number of [rand()] draws. *)
Record state : Type := {
  trace : list event;
  ncalls : nat;
  ndraws : nat
}.

Definition initial : state := {| trace := []; ncalls := 0; ndraws := 0 |}.

Definition M (A : Type) : Type := state -> result A * state.

Definition pure {A} (a : A) : M A := fun s => (Ok a, s).

Definition bind {A B} (m : M A) (f : A -> M B) : M B :=
  fun s =>
    match m s with
    | (Ok a, s') => f a s'
    | (Err e, s') => (Err e, s')
    | (OutOfFuel, s') => (OutOfFuel, s')
    end.

Definition raise {A} (e : error) : M A := fun s => (Err e, s).
Definition out_of_fuel {A} : M A := fun s => (OutOfFuel, s).

Definition emit (e : event) : M unit :=
  fun s => (Ok tt, {| trace := trace s ++ [e];
                      ncalls := ncalls s; ndraws := ndraws s |}).

Definition print (m : message) : M unit := emit (Cout m).

(** An API call: the device answers, the call and its answer are logged. *)
Definition call (W : World) (c : cl_call) : M response :=
  fun s =>
    let r := device W (ncalls s) c in
    (Ok r, {| trace := trace s ++ [Call c r];
              ncalls := S (ncalls s); ndraws := ndraws s |}).

(** [n] draws of [rand_float(0.f, 1.f)]. *)
Definition draw (W : World) (n : nat) : M (list float) :=
  fun s =>
    (Ok (map (rand_float W) (seq (ndraws s) n)),
     {| trace := trace s; ncalls := ncalls s; ndraws := (ndraws s + n)%nat |}).

(** Modelled from the spec: the macro [CHECK_CL_ERROR] is declared outside
    this file; per the spec a call that returns a non-success status is
    fatal and terminates the run. *)
Definition CHECK_CL_ERROR (status : Z) : M unit :=
  if status =? CL_SUCCESS then pure tt else raise (ClError status).

(** Modelled from the spec: the macro [verify] is declared outside this
    file; per the spec a violated precondition aborts immediately. *)
Definition verify (cond : bool) : M unit :=
  if cond then pure tt else raise PreconditionFailure.

End CL.

Declare Scope cl_scope.
Delimit Scope cl_scope with cl.
Notation "x <- m ;; k" := (CL.bind m (fun x => k))
  (at level 61, m at next level, right associativity) : cl_scope.
Notation "m ;; k" := (CL.bind m (fun _ => k))
  (at level 61, right associativity) : cl_scope.

(** ** The program *)

Module Prog.

Import Mach FP CL.
Local Open Scope cl_scope.

(** Modelled from the spec: [is_power_of_two] is declared outside this
    file; the spec requires the length to be a power of two. *)
Definition is_power_of_two (n : Z) : bool :=
  (0 <? n) && (n =? 2 ^ Z.log2 n).

(** Modelled from the spec: [verifyVectorsAreEqual] is declared outside
    this file; per the spec it is an element-wise complex comparison under
    an absolute tolerance, whose mismatch is reported without halting the
    sweep. *)
Definition close (epsilon : float) (a b : complex_float) : bool :=
  float_leb (float_abs (float_sub (fst a) (fst b))) epsilon
  && float_leb (float_abs (float_sub (snd a) (snd b))) epsilon.

Fixpoint all_close (epsilon : float) (a b : list complex_float) : bool :=
  match a, b with
  | [], [] => true
  | x :: a', y :: b' => close epsilon x y && all_close epsilon a' b'
  | _, _ => false
  end.

Definition verifyVectorsAreEqual (which : check_id)
    (a b : list complex_float) (epsilon : float) : M unit :=
  emit (Verified which epsilon (all_close epsilon a b)).

(** Modelled from the spec: the tolerance [verifyVectorsAreEqual] uses when
    the caller passes none is declared outside this file; the spec gives one
    fixed absolute tolerance, 0.01, for both verification steps. *)
Definition default_epsilon : float := f_0_01.

(** *** [ScopedKernel] *)

Record ScopedKernel : Type := {
  program : Z;
  kernel : Z;
  nButterfliesPerThread : Z
}.

Definition release (W : World) (program kernel : Z) : M unit :=
  r <- call W (clReleaseKernel kernel) ;;
  CHECK_CL_ERROR (ret r) ;;
  r <- call W (clReleaseProgram program) ;;
  CHECK_CL_ERROR (ret r).

(** The capacity test [nButterflies > nButterfliesPerThread * workgroup_max_sz]:
    both sides are converted to [size_t]. *)
Definition over_capacity (nButterflies nButterfliesPerThread workgroup_max_sz : Z)
    : bool :=
  to_size_t (to_size_t nButterfliesPerThread * workgroup_max_sz)
  <? to_size_t nButterflies.

(** The next estimate [nButterflies / workgroup_max_sz], computed in
    [size_t] and stored in an [int]. *)
Definition next_estimate (nButterflies workgroup_max_sz : Z) : Z :=
  to_int (to_size_t nButterflies / workgroup_max_sz).

(** The body of [for(nButterfliesPerThread = 1;;)], one trial per unit of
    fuel. *)
Fixpoint ScopedKernel_loop (fuel : nat) (W : World) (kernel_src : str)
    (nButterflies nButterfliesPerThread : Z) : M ScopedKernel :=
  match fuel with
  | O => out_of_fuel
  | S fuel' =>
      match Template.instantiate (angle_literal W) kernel_src
              nButterflies nButterfliesPerThread with
      | None => out_of_fuel
      | Some replaced_str =>
          r <- call W (clCreateProgramWithSource replaced_str) ;;
          CHECK_CL_ERROR (ret r) ;;
          let program := out r in
          r <- call W (clBuildProgram program) ;;
          CHECK_CL_ERROR (ret r) ;;
          r <- call W (clCreateKernel program) ;;
          CHECK_CL_ERROR (ret r) ;;
          let kernel := out r in
          r <- call W (clGetKernelWorkGroupInfo_WORK_GROUP_SIZE kernel) ;;
          CHECK_CL_ERROR (ret r) ;;
          let workgroup_max_sz := to_size_t (out r) in
          print (msg_workgroup_max_size workgroup_max_sz
                   nButterfliesPerThread) ;;
          if over_capacity nButterflies nButterfliesPerThread workgroup_max_sz
          then
            release W program kernel ;;
            if workgroup_max_sz =? 0 then raise UndefinedBehaviour
            else ScopedKernel_loop fuel' W kernel_src nButterflies
                   (next_estimate nButterflies workgroup_max_sz)
          else
            pure {| program := program; kernel := kernel;
                    nButterfliesPerThread := nButterfliesPerThread |}
      end
  end.

(** The constructor: [int const nButterflies = input_size/2], then the
    loop from [nButterfliesPerThread = 1]. *)
Definition ScopedKernel_ctor (fuel : nat) (W : World) (kernel_src : str)
    (input_size : Z) : M ScopedKernel :=
  ScopedKernel_loop fuel W kernel_src (to_int (input_size / 2)) 1.

(** *** [withInput] *)

Definition nIterations : Z := 3000.
Definition nSkipIterations : Z := 5.
Definition PTRDIFF_MAX : Z := 2 ^ 63 - 1.

(** The benchmark loop [for(int i=0; i<nSkipIterations+nIterations; ++i)];
    [n] is the number of iterations left. *)
Fixpoint benchmark_loop (n : nat) (W : World) (kernel : Z)
    (global_item_size local_item_size : Z) (i : Z) (elapsed : double)
    : M double :=
  match n with
  | O => pure elapsed
  | S n' =>
      r <- call W (clEnqueueNDRangeKernel kernel global_item_size
                     local_item_size) ;;
      CHECK_CL_ERROR (ret r) ;;
      let event := out r in
      r <- call W (clWaitForEvents event) ;;
      CHECK_CL_ERROR (ret r) ;;
      r <- call W (clGetEventProfilingInfo event CL_PROFILING_COMMAND_START) ;;
      CHECK_CL_ERROR (ret r) ;;
      let time_start := to_size_t (out r) in
      r <- call W (clGetEventProfilingInfo event CL_PROFILING_COMMAND_END) ;;
      CHECK_CL_ERROR (ret r) ;;
      let time_end := to_size_t (out r) in
      benchmark_loop n' W kernel global_item_size local_item_size (i + 1)
        (if nSkipIterations <=? i
         then double_add elapsed
                (double_of_Z (to_size_t (time_end - time_start)))
         else elapsed)
  end.

(** [(int)(elapsed/(double)nIterations)/1000]. *)
Definition avg_kernel_duration (elapsed : double) : option Z :=
  match double_to_int (double_div elapsed (double_of_Z nIterations)) with
  | Some ns => Some (Z.quot ns 1000)
  | None => None
  end.

(** The part of [withInput] after the local-memory test. *)
Definition withInput_run (W : World) (kernel : Z) (nButterfliesPerThread : Z)
    (input : list float) (verifyResults : bool) : M bool :=
  let size := Z.of_nat (length input) in
  (if verifyResults then
     print msg_make_ref_1 ;;
     let refForwardFft := makeRefForwardFft W input in
     print msg_make_ref_2 ;;
     let cpuForwardFft :=
       cpu_fft_norecursion W (bitReversePermutation W input) in
     print msg_verify_consistency ;;
     verifyVectorsAreEqual check_consistency refForwardFft cpuForwardFft
       default_epsilon ;;
     print msg_ok
   else pure tt) ;;
  verify (sizeof_float W =? sizeof_float W) ;;
  r <- call W (clCreateImage CL_MEM_READ_ONLY size) ;;
  CHECK_CL_ERROR (ret r) ;;
  let input_image := out r in
  verify (sizeof_complex_float W =? 2 * sizeof_float W) ;;
  r <- call W (clCreateImage CL_MEM_WRITE_ONLY (to_size_t (2 * size))) ;;
  CHECK_CL_ERROR (ret r) ;;
  let output_image := out r in
  r <- call W (clEnqueueWriteImage input_image false (size / 4) input) ;;
  CHECK_CL_ERROR (ret r) ;;
  r <- call W (clSetKernelArg kernel 0 (sizeof_cl_mem W) (Some input_image)) ;;
  CHECK_CL_ERROR (ret r) ;;
  r <- call W (clSetKernelArg kernel 1 (sizeof_cl_mem W) (Some output_image)) ;;
  CHECK_CL_ERROR (ret r) ;;
  r <- call W (clSetKernelArg kernel 2
                 (to_size_t (to_size_t (to_size_t (2 * sizeof_float W) * 2)
                             * size))
                 None) ;;
  CHECK_CL_ERROR (ret r) ;;
  (if in_int (2 * nButterfliesPerThread) then pure tt
   else raise UndefinedBehaviour) ;;
  let divisor := to_size_t (2 * nButterfliesPerThread) in
  (if divisor =? 0 then raise UndefinedBehaviour else pure tt) ;;
  let global_item_size := size / divisor in
  let local_item_size := global_item_size in
  print (msg_global_size global_item_size) ;;
  elapsed <- benchmark_loop (Z.to_nat (nSkipIterations + nIterations)) W
               kernel global_item_size local_item_size 0 double_zero ;;
  match avg_kernel_duration elapsed with
  | None => raise UndefinedBehaviour
  | Some us =>
      print (msg_avg_kernel_duration us) ;;
      r <- call W (clEnqueueReadImage output_image true (size / 2)) ;;
      CHECK_CL_ERROR (ret r) ;;
      let output := data_out r in
      (if verifyResults then
         print msg_verifying_results ;;
         verifyVectorsAreEqual check_device_result output
           (makeRefForwardFft W input) f_0_01
       else pure tt) ;;
      r <- call W (clReleaseMemObject input_image) ;;
      CHECK_CL_ERROR (ret r) ;;
      r <- call W (clReleaseMemObject output_image) ;;
      CHECK_CL_ERROR (ret r) ;;
      pure true
  end.

(** The quantity the local-memory test compares with [local_mem_sz]:
    [2 * output.size() * sizeof(decltype(output[0]))], in [size_t]. *)
Definition local_memory_needed (W : World) (size : Z) : Z :=
  to_size_t (to_size_t (2 * size) * sizeof_complex_float W).

Definition withInput (W : World) (kernel : Z) (nButterfliesPerThread : Z)
    (input : list float) (verifyResults : bool) : M bool :=
  let size := Z.of_nat (length input) in
  verify (is_power_of_two size && (2 <=? size)) ;;
  (* [output.resize(input.size())]: no object exceeds [PTRDIFF_MAX] bytes *)
  (if PTRDIFF_MAX <? size * sizeof_complex_float W then raise BadAlloc
   else pure tt) ;;
  r <- call W clGetDeviceInfo_LOCAL_MEM_SIZE ;;
  let local_mem_sz := to_size_t (out r) in
  if local_mem_sz <? local_memory_needed W size then
    print msg_not_enough_local_memory ;;
    pure false
  else
    withInput_run W kernel nButterfliesPerThread input verifyResults.

(** *** [main] *)

(** One iteration of the size loop; the result says whether the loop goes
    on.  The destructor of [sc] runs when its scope is left, also on
    [break]. *)
Definition sweep_iteration (fuel : nat) (W : World) (sz : Z) : M bool :=
  print (msg_input_size sz) ;;
  input <- draw W (Z.to_nat sz) ;;
  sc <- ScopedKernel_ctor fuel W (kernel_src W) (Z.of_nat (length input)) ;;
  continue <- withInput W (kernel sc) (nButterfliesPerThread sc) input true ;;
  release W (program sc) (kernel sc) ;;
  pure continue.

(** [for(int sz=8; sz < 10000000; sz *= 2)]; [n] bounds the number of
    iterations. *)
Fixpoint sweep (n : nat) (fuel : nat) (W : World) (sz : Z) : M unit :=
  match n with
  | O => out_of_fuel
  | S n' =>
      if sz <? 10000000 then
        continue <- sweep_iteration fuel W sz ;;
        if continue then sweep n' fuel W (to_int (sz * 2)) else pure tt
      else pure tt
  end.

Definition main (fuel : nat) (W : World) : M Z :=
  r <- call W clGetPlatformIDs ;;
  CHECK_CL_ERROR (ret r) ;;
  r <- call W clGetDeviceIDs ;;
  CHECK_CL_ERROR (ret r) ;;
  r <- call W clCreateContext ;;
  CHECK_CL_ERROR (ret r) ;;
  r <- call W clCreateCommandQueue ;;
  CHECK_CL_ERROR (ret r) ;;
  sweep 32 fuel W 8 ;;
  r <- call W clFlush ;;
  CHECK_CL_ERROR (ret r) ;;
  r <- call W clFinish ;;
  CHECK_CL_ERROR (ret r) ;;
  r <- call W clReleaseCommandQueue ;;
  CHECK_CL_ERROR (ret r) ;;
  r <- call W clReleaseContext ;;
  CHECK_CL_ERROR (ret r) ;;
  pure 0.

End Prog.

(** ** Observations on runs *)

Module Obs.

Import CL.

(** The state after the API call [c]. *)
Definition after_call (W : World) (c : cl_call) (s : state) : state :=
  {| trace := trace s ++ [Call c (device W (ncalls s) c)];
     ncalls := S (ncalls s); ndraws := ndraws s |}.

Definition after_emit (e : event) (s : state) : state :=
  {| trace := trace s ++ [e]; ncalls := ncalls s; ndraws := ndraws s |}.

(** Every run of [m] only appends events to the trace, each satisfying [Q]. *)
Definition emits {A} (m : M A) (Q : event -> Prop) : Prop :=
  forall s, exists evs, trace (snd (m s)) = trace s ++ evs /\ Forall Q evs.

(** [m] can return [a]. *)
Definition returns {A} (m : M A) (a : A) : Prop :=
  exists s, fst (m s) = Ok a.

(** Every API call returns [CL_SUCCESS]. *)
Definition all_succeed (W : World) : Prop :=
  forall n c, ret (device W n c) = CL_SUCCESS.

Definition is_enqueue (e : event) : bool :=
  match e with
  | Call (clEnqueueNDRangeKernel _ _ _) _ => true
  | _ => false
  end.

Definition is_create_image (e : event) : bool :=
  match e with
  | Call (clCreateImage _ _) _ => true
  | _ => false
  end.

(** The timestamps the profiling queries of a trace returned. *)
Definition time_starts (evs : list event) : list Z :=
  flat_map (fun e =>
              match e with
              | Call (clGetEventProfilingInfo _ CL_PROFILING_COMMAND_START) r =>
                  [Mach.to_size_t (out r)]
              | _ => []
              end) evs.

Definition time_ends (evs : list event) : list Z :=
  flat_map (fun e =>
              match e with
              | Call (clGetEventProfilingInfo _ CL_PROFILING_COMMAND_END) r =>
                  [Mach.to_size_t (out r)]
              | _ => []
              end) evs.

(** The device-reported durations [time_end - time_start] of a trace, in
    [cl_ulong], one per profiled execution. *)
Definition durations (evs : list event) : list Z :=
  map (fun se => Mach.to_size_t (snd se - fst se))
    (combine (time_starts evs) (time_ends evs)).

(** The durations accumulated in [double], as [elapsed += ...] does. *)
Definition accumulate (elapsed : FP.double) (ds : list Z) : FP.double :=
  fold_left (fun acc d => FP.double_add acc (FP.double_of_Z d)) ds elapsed.

(** The sum of a list of durations. *)
Definition total (ds : list Z) : Z := fold_right Z.add 0 ds.

(** The averages a trace printed. *)
Definition reported_averages (evs : list event) : list Z :=
  flat_map (fun e =>
              match e with
              | Cout (msg_avg_kernel_duration us) => [us]
              | _ => []
              end) evs.

(** The comparisons of a trace, each with its tolerance. *)
Definition comparisons (evs : list event) : list (check_id * FP.float) :=
  flat_map (fun e =>
              match e with
              | Verified which epsilon _ => [(which, epsilon)]
              | _ => []
              end) evs.

(** The events of one iteration of the benchmark loop are the four calls. *)
Definition is_benchmark_event (e : event) : bool :=
  match e with
  | Call (clEnqueueNDRangeKernel _ _ _) _
  | Call (clWaitForEvents _) _
  | Call (clGetEventProfilingInfo _ _) _ => true
  | _ => false
  end.

(** An API call other than the query of the local-memory size. *)
Definition is_device_work (e : event) : bool :=
  match e with
  | Call clGetDeviceInfo_LOCAL_MEM_SIZE _ => false
  | Call _ _ => true
  | _ => false
  end.

(** What every event of a run of [withInput] on an input of [size]
    elements with [nButterfliesPerThread] butterflies per thread looks
    like: the local-memory argument of the kernel has the size the
    local-memory test compared, every execution has the global and local
    size computed before the benchmark loop, and every comparison uses the
    tolerance [0.01f]. *)
Definition run_event_ok (W : World) (size nButterfliesPerThread : Z)
    (e : event) : Prop :=
  match e with
  | Call (clSetKernelArg _ arg_index arg_size None) _ =>
      arg_index = 2 ->
      arg_size = Prog.local_memory_needed W size
      /\ arg_size
         = Mach.to_size_t
             (Mach.to_size_t (Mach.to_size_t (2 * sizeof_float W) * 2) * size)
  | Call (clEnqueueNDRangeKernel _ global_item_size local_item_size) _ =>
      global_item_size
      = size / Mach.to_size_t (2 * nButterfliesPerThread)
      /\ local_item_size = global_item_size
  | Verified _ epsilon _ => epsilon = FP.f_0_01
  | _ => True
  end.

(** The input vector one iteration of the size loop draws, and the state
    in which it constructs its [ScopedKernel]. *)
Definition sweep_input (W : World) (sz : Z) (s : state) : list FP.float :=
  map (rand_float W) (seq (ndraws s) (Z.to_nat sz)).

Definition sweep_start (sz : Z) (s : state) : state :=
  {| trace := trace s ++ [Cout (msg_input_size sz)];
     ncalls := ncalls s;
     ndraws := (ndraws s + Z.to_nat sz)%nat |}.

End Obs.

(** ** Sample platforms, for concrete runs *)

Module Sample.

Import FP CL.

(** A device on which every call succeeds: it reports the work-group size
    [wg] for every kernel and [local_mem] bytes of local memory, every
    kernel execution starts at [t0] and ends at [t1], and handles are
    numbered by the call that creates them. *)
Definition steady_device (wg local_mem t0 t1 : Z) (n : nat) (c : cl_call)
    : response :=
  match c with
  | clGetKernelWorkGroupInfo_WORK_GROUP_SIZE _ =>
      {| ret := CL_SUCCESS; out := wg; data_out := [] |}
  | clGetDeviceInfo_LOCAL_MEM_SIZE =>
      {| ret := CL_SUCCESS; out := local_mem; data_out := [] |}
  | clGetEventProfilingInfo _ CL_PROFILING_COMMAND_START =>
      {| ret := CL_SUCCESS; out := t0; data_out := [] |}
  | clGetEventProfilingInfo _ CL_PROFILING_COMMAND_END =>
      {| ret := CL_SUCCESS; out := t1; data_out := [] |}
  | _ => {| ret := CL_SUCCESS; out := Z.of_nat n; data_out := [] |}
  end.

(** The angle literal for a butterfly count that is a power of two, as
    glibc prints it: [(float)(-M_PI)] is [-0x1.921fb6p+1], and dividing by
    [2^k] lowers the exponent by [k]. *)
Definition angle (nButterflies : Z) : str :=
  let e := 1 - Z.log2 nButterflies in
  lit "-0x1.921fb6p" ++ (if 0 <=? e then lit "+" else []) ++ to_string e.

Definition world (src : str) (wg local_mem t0 t1 : Z) : World :=
  {| device := steady_device wg local_mem t0 t1;
     rand_float := fun _ => SpecFloat.S754_zero false;
     makeRefForwardFft := fun _ => [];
     cpu_fft_norecursion := fun _ => [];
     bitReversePermutation := fun l => l;
     angle_literal := angle;
     kernel_src := src;
     sizeof_float := 4;
     sizeof_complex_float := 8;
     sizeof_cl_mem := 8 |}.

(** A device whose clock runs: every call succeeds as on the steady
    device, and a profiling query answered by the call number [n] reports
    the time [1000 * n], so that every execution takes 1000 ns. *)
Definition ticking_device (wg local_mem : Z) (n : nat) (c : cl_call)
    : response :=
  match c with
  | clGetEventProfilingInfo _ _ =>
      {| ret := CL_SUCCESS; out := 1000 * Z.of_nat n; data_out := [] |}
  | _ => steady_device wg local_mem 0 0 n c
  end.

(** A template that uses the four placeholders. *)
Definition full_template : str :=
  lit "#define A replace_MINUS_PI_over_N_GLOBAL_BUTTERFLIES
#define N replace_N_GLOBAL_BUTTERFLIES
#define LOG2N replace_LOG2_N_GLOBAL_BUTTERFLIES
#define M replace_N_LOCAL_BUTTERFLIES
".

(** A template from which the per-thread placeholder is missing. *)
Definition template_without_local : str :=
  lit "#define A replace_MINUS_PI_over_N_GLOBAL_BUTTERFLIES
#define N replace_N_GLOBAL_BUTTERFLIES
#define LOG2N replace_LOG2_N_GLOBAL_BUTTERFLIES
".

(** A device with 100 bytes of local memory, too little for 8 elements,
    and one with 4096 bytes. *)
Definition small_world : World := world full_template 256 100 1000 5500.
Definition large_world : World := world full_template 256 4096 1000 5500.

(** A platform with a running clock, work-groups of 256 items and 4096
    bytes of local memory. *)
Definition ticking_world : World :=
  {| device := ticking_device 256 4096;
     rand_float := fun _ => SpecFloat.S754_zero false;
     makeRefForwardFft := fun _ => [];
     cpu_fft_norecursion := fun _ => [];
     bitReversePermutation := fun l => l;
     angle_literal := angle;
     kernel_src := full_template;
     sizeof_float := 4;
     sizeof_complex_float := 8;
     sizeof_cl_mem := 8 |}.

(** [full_template] cut at its placeholders. *)
Definition full_template_segments : list Template.segment :=
  [Template.Text (lit "#define A ");
   Template.Hole Template.MINUS_PI_over_N_GLOBAL_BUTTERFLIES;
   Template.Text (lit "
#define N ");
   Template.Hole Template.N_GLOBAL_BUTTERFLIES;
   Template.Text (lit "
#define LOG2N ");
   Template.Hole Template.LOG2_N_GLOBAL_BUTTERFLIES;
   Template.Text (lit "
#define M ");
   Template.Hole Template.N_LOCAL_BUTTERFLIES;
   Template.Text (lit "
")].

(** A template in which substituting the global count for [N = 4] makes up
    the placeholder of its logarithm. *)
Definition entangled_template : str :=
  lit "replace_LOGreplace_N_GLOBAL_BUTTERFLIES_N_GLOBAL_BUTTERFLIES".

Definition eight_zeros : list float := repeat (SpecFloat.S754_zero false) 8.

End Sample.

(** ** Views of the floating-point operations, for the proofs *)

Module FPView.

Import SpecFloat.

(** A shift record with no bit shifted out. *)
Definition rec0 (m : Z) : shr_record :=
  {| shr_m := m; shr_r := false; shr_s := false |}.

(** The second half of [binary_round_aux]: renormalisation after the
    rounding, and the overflow test. *)
Definition finish (sx : bool) (m e : Z) : spec_float :=
  let '(mrs, e') := shr_fexp 53 1024 m e loc_Exact in
  match shr_m mrs with
  | Z0 => S754_zero sx
  | Zpos m => if e' <=? 1024 - 53 then S754_finite sx m e' else S754_infinity sx
  | _ => S754_nan
  end.

(** The binary64 representation of a positive integer below 2^53. *)
Definition canon (k : Z) : spec_float :=
  S754_finite false (Z.to_pos (k * 2 ^ (52 - Z.log2 k))) (Z.log2 k - 52).

End FPView.

(** ** Text in pieces *)

Module Pieces.

(** The pieces joined by the separator [sep]. *)
Definition join (sep : str) (pieces : list str) : str :=
  match pieces with
  | [] => []
  | u :: rest => u ++ concat (map (fun v => sep ++ v) rest)
  end.

End Pieces.

(** ** What a trace created, released and transferred *)

Module Ledger.
Import CL.

(** The handles of the programs, kernels and images a trace created, and
    of those it released, in order. *)
Definition created_programs (evs : list event) : list Z :=
  flat_map (fun e =>
              match e with
              | Call (clCreateProgramWithSource _) r => [out r]
              | _ => []
              end) evs.

Definition released_programs (evs : list event) : list Z :=
  flat_map (fun e =>
              match e with
              | Call (clReleaseProgram program) _ => [program]
              | _ => []
              end) evs.

Definition created_kernels (evs : list event) : list Z :=
  flat_map (fun e =>
              match e with
              | Call (clCreateKernel _) r => [out r]
              | _ => []
              end) evs.

Definition released_kernels (evs : list event) : list Z :=
  flat_map (fun e =>
              match e with
              | Call (clReleaseKernel kernel) _ => [kernel]
              | _ => []
              end) evs.

Definition created_images (evs : list event) : list Z :=
  flat_map (fun e =>
              match e with
              | Call (clCreateImage _ _) r => [out r]
              | _ => []
              end) evs.

Definition released_images (evs : list event) : list Z :=
  flat_map (fun e =>
              match e with
              | Call (clReleaseMemObject image) _ => [image]
              | _ => []
              end) evs.

(** The API calls of a trace outside the benchmark loop, in order. *)
Definition setup_calls (evs : list event) : list cl_call :=
  flat_map (fun e =>
              match e with
              | Call c _ => if Obs.is_benchmark_event e then [] else [c]
              | _ => []
              end) evs.

Definition is_call (e : event) : bool :=
  match e with
  | Call _ _ => true
  | _ => false
  end.

(** The first component of the regions written to and read from images,
    in pixels. *)
Definition write_regions (evs : list event) : list Z :=
  flat_map (fun e =>
              match e with
              | Call (clEnqueueWriteImage _ _ region0 _) _ => [region0]
              | _ => []
              end) evs.

Definition read_regions (evs : list event) : list Z :=
  flat_map (fun e =>
              match e with
              | Call (clEnqueueReadImage _ _ region0) _ => [region0]
              | _ => []
              end) evs.

(** An event of the verification: one of its messages or a comparison. *)
Definition is_verification (e : event) : bool :=
  match e with
  | Cout msg_make_ref_1 | Cout msg_make_ref_2 | Cout msg_verify_consistency
  | Cout msg_ok | Cout msg_verifying_results => true
  | Verified _ _ _ => true
  | _ => false
  end.

(** The input sizes a trace announced. *)
Definition input_sizes (evs : list event) : list Z :=
  flat_map (fun e =>
              match e with
              | Cout (msg_input_size sz) => [sz]
              | _ => []
              end) evs.

(** The four calls of one iteration of the benchmark loop, with their
    answers. *)
Definition execution (kernel global_item_size local_item_size : Z)
    (rs : response * response * response * response) : list event :=
  let '(r1, r2, r3, r4) := rs in
  [Call (clEnqueueNDRangeKernel kernel global_item_size local_item_size) r1;
   Call (clWaitForEvents (out r1)) r2;
   Call (clGetEventProfilingInfo (out r1) CL_PROFILING_COMMAND_START) r3;
   Call (clGetEventProfilingInfo (out r1) CL_PROFILING_COMMAND_END) r4].

(** The calls [main] itself makes, before and after the size loop. *)
Definition is_session_call (c : cl_call) : bool :=
  match c with
  | clGetPlatformIDs | clGetDeviceIDs | clCreateContext
  | clCreateCommandQueue | clFlush | clFinish | clReleaseCommandQueue
  | clReleaseContext => true
  | _ => false
  end.

Definition session_calls (evs : list event) : list cl_call :=
  flat_map (fun e =>
              match e with
              | Call c _ => if is_session_call c then [c] else []
              | _ => []
              end) evs.

(** An event of the prober, of [withInput] or of a release: neither a call
    of [main] itself nor the announcement of a size. *)
Definition is_inner (e : event) : bool :=
  match e with
  | Call c _ => negb (is_session_call c)
  | Cout (msg_input_size _) => false
  | _ => true
  end.

Definition not_a_size (e : event) : Prop :=
  match e with
  | Cout (msg_input_size _) => False
  | _ => True
  end.

Definition not_of_session (e : event) : Prop :=
  match e with
  | Call c _ => is_session_call c = false
  | _ => True
  end.

(** The sizes [8, 16, ...] of the first [n] iterations of the size loop. *)
Definition doubling (first n : nat) : list Z :=
  map (fun i => 8 * 2 ^ Z.of_nat i) (seq first n).

(** Every program, kernel and image a trace created was released, in the
    order of creation. *)
Definition balanced (evs : list event) : Prop :=
  released_programs evs = created_programs evs
  /\ released_kernels evs = created_kernels evs
  /\ released_images evs = created_images evs.

End Ledger.

(** ** Outcomes of runs *)

Module Checks.
Import CL.

(** The calls whose status the program passes to [CHECK_CL_ERROR]: all but
    the query of the local-memory size in [withInput]. *)
Definition is_checked (c : cl_call) : bool :=
  match c with
  | clGetDeviceInfo_LOCAL_MEM_SIZE => false
  | _ => true
  end.

Definition went_well (e : event) : bool :=
  match e with
  | Call c r => negb (is_checked c) || (ret r =? CL_SUCCESS)
  | _ => true
  end.

(** A run stops at the first checked call that fails: its result is the
    status of that call, which is then the last event; in every other run
    all checked calls succeeded. *)
Definition fail_fast {A} (res : result A) (evs : list event) : Prop :=
  match res with
  | Err (ClError status) =>
      status <> CL_SUCCESS
      /\ exists evs' c r,
          evs = evs' ++ [Call c r]
          /\ is_checked c = true /\ ret r = status
          /\ forallb went_well evs' = true
  | _ => forallb went_well evs = true
  end.

Definition fails_fast {A} (m : M A) : Prop :=
  forall s, exists evs,
    trace (snd (m s)) = trace s ++ evs /\ fail_fast (fst (m s)) evs.

(** The result of a run is the failure of a [verify]. *)
Definition failed_precondition {A} (res : result A) : bool :=
  match res with
  | Err PreconditionFailure => true
  | _ => false
  end.

Definition never_fails_precondition {A} (m : M A) : Prop :=
  forall s, failed_precondition (fst (m s)) = false.

(** The sizes a run announces are the first [n] sizes of the sweep, for
    some [n] up to 21. *)
Definition announces {A} (m : M A) : Prop :=
  forall s, exists evs n,
    trace (snd (m s)) = trace s ++ evs
    /\ (n <= 21)%nat
    /\ Ledger.input_sizes evs = Ledger.doubling 0 n.

End Checks.

(** ** The sweep on a device where all goes well *)

Module Expect.
Import CL.

(** The sizes the size loop announces on a device where everything but the
    local memory goes well: the loop goes on while the size is below
    10000000 and [fits]. *)
Fixpoint expected_sizes (fits : Z -> bool) (n : nat) (sz : Z) : list Z :=
  match n with
  | O => []
  | S n' =>
      if sz <? 10000000
      then sz :: (if fits sz then expected_sizes fits n' (sz * 2) else [])
      else []
  end.

(** The local-memory test of [withInput] passes for an input of [sz]
    elements. *)
Definition fits (W : World) (local_mem sz : Z) : bool :=
  Prog.local_memory_needed W sz <=? local_mem.

End Expect.

(** * Properties *)

(** ** Machine integers *)

Section MachFacts.
Import Mach.

Lemma to_size_t_range z : 0 <= to_size_t z < size_t_mod.
Proof. unfold to_size_t, size_t_mod. apply Z.mod_pos_bound. lia. Qed.

Lemma to_size_t_id z : 0 <= z < size_t_mod -> to_size_t z = z.
Proof. intros H. unfold to_size_t. now apply Z.mod_small. Qed.

Lemma to_size_t_le z : 0 <= z -> to_size_t z <= z.
Proof. intros H. unfold to_size_t, size_t_mod. apply Z.mod_le; lia. Qed.

Lemma to_int_id z : INT_MIN <= z <= INT_MAX -> to_int z = z.
Proof.
  unfold to_int, int_mod, INT_MIN, INT_MAX. intros H.
  rewrite Z.mod_small; lia.
Qed.

Lemma to_int_range z : INT_MIN <= to_int z <= INT_MAX.
Proof.
  unfold to_int, int_mod, INT_MIN, INT_MAX.
  pose proof (Z.mod_pos_bound (z + 2 ^ 31) (2 ^ 32) ltac:(lia)). lia.
Qed.

End MachFacts.

(** ** [find], [replace] and the loop of [ReplaceString] *)

Section StrFacts.

Lemma prefix_b_nil_r p : prefix_b p [] = true -> p = [].
Proof. destruct p; simpl; congruence. Qed.

Lemma prefix_b_length p s : prefix_b p s = true -> (length p <= length s)%nat.
Proof.
  revert s. induction p as [|a p IH]; intros [|b s]; simpl; try lia; try congruence.
  intros H. apply andb_prop in H as [_ H]. apply IH in H. lia.
Qed.

Lemma prefix_b_app p x : prefix_b p (p ++ x) = true.
Proof.
  induction p as [|a p IH]; simpl; [reflexivity|].
  now rewrite Ascii.eqb_refl, IH.
Qed.

(** A prefix of [u ++ x] either lies inside [u] or runs over its end. *)
Lemma prefix_b_app_cases t u x :
  prefix_b t (u ++ x) = true -> prefix_b t u = true \/ prefix_b u t = true.
Proof.
  revert u. induction t as [|a t IH]; intros [|b u]; simpl; auto.
  intros H. apply andb_prop in H as [Hab H].
  rewrite Hab. simpl. apply Ascii.eqb_eq in Hab. subst b.
  rewrite Ascii.eqb_refl. simpl. now apply IH.
Qed.

Lemma find_from_bounds s search i p :
  find_from s search i = Some p ->
  (i <= p /\ p - i + length search <= length s)%nat
  /\ prefix_b search (skipn (p - i) s) = true.
Proof.
  revert i. induction s as [|c s IH]; intros i; simpl.
  - destruct (prefix_b search []) eqn:E; [|discriminate].
    intros [= <-]. apply prefix_b_nil_r in E. subst search.
    rewrite Nat.sub_diag. simpl. repeat split; lia.
  - destruct (prefix_b search (c :: s)) eqn:E.
    + intros [= <-]. rewrite Nat.sub_diag. simpl skipn.
      apply prefix_b_length in E as L. simpl in L. repeat split; auto; lia.
    + intros H. apply IH in H as [[H1 H2] H3].
      replace (p - i)%nat with (S (p - S i)) by lia. simpl.
      repeat split; auto; lia.
Qed.

Lemma find_bounds subject search pos p :
  find subject search pos = Some p ->
  (pos <= p /\ p + length search <= length subject)%nat.
Proof.
  unfold find. destruct (Nat.leb_spec pos (length subject)); [|discriminate].
  intros Hf. apply find_from_bounds in Hf as [[H1 H2] _].
  rewrite length_skipn in H2. lia.
Qed.

Lemma find_empty subject pos :
  (pos <= length subject)%nat -> find subject [] pos = Some pos.
Proof.
  intros H. unfold find. apply Nat.leb_le in H. rewrite H.
  destruct (skipn pos subject); reflexivity.
Qed.

Lemma replace_length subject p len r :
  (p + len <= length subject)%nat ->
  length (replace subject p len r) = (length subject - len + length r)%nat.
Proof.
  intros H. unfold replace.
  rewrite !length_app, length_firstn, length_skipn. lia.
Qed.

(** With a non-empty search string every iteration shortens what is left
    to scan, [size() - pos], by at least the length of the search string. *)
Lemma ReplaceString_step_decreases subject search repl pos p :
  search <> [] ->
  find subject search pos = Some p ->
  (pos <= p /\
   length (replace subject p (length search) repl) - (p + length repl)
   < length subject - pos)%nat.
Proof.
  intros Hne Hf. apply find_bounds in Hf as [H1 H2].
  rewrite replace_length by assumption.
  destruct search; [congruence|]. simpl in *. lia.
Qed.

Lemma ReplaceString_loop_terminates search repl :
  search <> [] ->
  forall fuel subject pos,
    (length subject - pos < fuel)%nat ->
    exists r, ReplaceString_loop fuel subject search repl pos = Some r.
Proof.
  intros Hne. induction fuel as [|fuel IH]; intros subject pos Hlt; [lia|].
  simpl. destruct (find subject search pos) as [p|] eqn:Hf.
  - apply IH.
    pose proof (ReplaceString_step_decreases _ _ repl _ _ Hne Hf). lia.
  - now exists subject.
Qed.

Lemma ReplaceString_loop_empty_search repl :
  forall fuel subject pos,
    (pos <= length subject)%nat ->
    ReplaceString_loop fuel subject [] repl pos = None.
Proof.
  induction fuel as [|fuel IH]; intros subject pos Hle; [reflexivity|].
  simpl. rewrite find_empty by assumption.
  apply IH. rewrite replace_length by (simpl; lia). simpl. lia.
Qed.

Lemma ReplaceString_loop_more_fuel search repl :
  forall fuel subject pos r,
    ReplaceString_loop fuel subject search repl pos = Some r ->
    forall fuel', (fuel <= fuel')%nat ->
    ReplaceString_loop fuel' subject search repl pos = Some r.
Proof.
  induction fuel as [|fuel IH]; intros subject pos r H fuel' Hle;
    [discriminate|].
  destruct fuel' as [|fuel']; [lia|]. simpl in *.
  destruct (find subject search pos); [|assumption].
  eapply IH; [eassumption|lia].
Qed.

(** The fuel [ReplaceString] gives its loop is enough: whatever the loop
    returns with any fuel, [ReplaceString] returns. *)
Lemma ReplaceString_loop_enough subject search repl fuel r :
  ReplaceString_loop fuel subject search repl 0 = Some r ->
  ReplaceString subject search repl = Some r.
Proof.
  intros H. unfold ReplaceString.
  destruct search as [|c search].
  - rewrite ReplaceString_loop_empty_search in H by lia. discriminate.
  - destruct (ReplaceString_loop_terminates (c :: search) repl ltac:(discriminate)
                (S (length subject)) subject 0%nat ltac:(lia)) as [r' Hr'].
    rewrite Hr'. f_equal.
    pose proof (ReplaceString_loop_more_fuel _ _ _ _ _ _ H
                  (Nat.max fuel (S (length subject))) ltac:(lia)) as A.
    pose proof (ReplaceString_loop_more_fuel _ _ _ _ _ _ Hr'
                  (Nat.max fuel (S (length subject))) ltac:(lia)) as B.
    congruence.
Qed.

Lemma ReplaceString_total subject search repl :
  search <> [] -> exists r, ReplaceString subject search repl = Some r.
Proof.
  intros Hne. apply ReplaceString_loop_terminates; [assumption|lia].
Qed.

(** A search string that does not occur leaves the subject as it is. *)
Lemma ReplaceString_absent subject search repl :
  find subject search 0 = None ->
  ReplaceString subject search repl = Some subject.
Proof. intros H. unfold ReplaceString. simpl. now rewrite H. Qed.

End StrFacts.

(** ** [ReplaceString] on strings of limited length *)

Section SizedStrings.

(** The largest size a string can take. *)
Variable max_size : nat.

Lemma ReplaceString_step_Next subject search repl pos subject' pos' :
  ReplaceString_step max_size subject search repl pos = Next subject' pos' ->
  exists p,
    find subject search pos = Some p
    /\ (length subject - length search + length repl <= max_size)%nat
    /\ subject' = replace subject p (length search) repl
    /\ pos' = (p + length repl)%nat.
Proof.
  unfold ReplaceString_step. destruct (find subject search pos) as [p|];
    [|discriminate].
  destruct (Nat.ltb_spec max_size
              (length subject - length search + length repl)); [discriminate|].
  intros [= <- <-]. exists p. repeat split; auto.
Qed.

(** An iteration of the loop never moves the position back, moves it
    forward when the replacement is not empty, and, when [search] is not
    empty, shortens the text left to scan. *)
Lemma ReplaceString_step_progress subject search repl pos subject' pos' :
  ReplaceString_step max_size subject search repl pos = Next subject' pos' ->
  (pos <= pos' <= length subject')%nat
  /\ (repl <> [] -> pos < pos')%nat
  /\ (search <> [] -> length subject' - pos' < length subject - pos)%nat.
Proof.
  intros H. apply ReplaceString_step_Next in H as [p [Hf [_ [-> ->]]]].
  pose proof (find_bounds _ _ _ _ Hf) as [H1 H2].
  rewrite replace_length by assumption.
  split; [lia|]. split.
  - intros Hr. destruct repl; [congruence|]. cbn [length]. lia.
  - intros Hs. destruct search; [congruence|]. cbn [length] in *. lia.
Qed.

Lemma ReplaceString_run_ends search repl :
  search <> [] ->
  forall fuel subject pos,
    (length subject - pos < fuel)%nat ->
    exists o, ReplaceString_run max_size fuel subject search repl pos = Some o.
Proof.
  intros Hne. induction fuel as [|fuel IH]; intros subject pos Hlt; [lia|].
  cbn [ReplaceString_run].
  destruct (ReplaceString_step max_size subject search repl pos)
    as [r| |subject' pos'] eqn:E; [now eexists|now eexists|].
  apply IH. apply ReplaceString_step_progress in E as [_ [_ E]].
  specialize (E Hne). lia.
Qed.

Lemma ReplaceString_step_empty_search subject repl pos :
  (pos <= length subject)%nat ->
  ReplaceString_step max_size subject [] repl pos
  = if (max_size <? length subject + length repl)%nat then Throws
    else Next (replace subject pos 0 repl) (pos + length repl).
Proof.
  intros H. unfold ReplaceString_step. rewrite find_empty by assumption.
  cbn [length]. now rewrite Nat.sub_0_r.
Qed.

Lemma ReplaceString_run_empty_search_no_result repl :
  forall fuel subject pos r,
    (pos <= length subject)%nat ->
    ReplaceString_run max_size fuel subject [] repl pos <> Some (Returned r).
Proof.
  induction fuel as [|fuel IH]; intros subject pos r Hle; [discriminate|].
  cbn [ReplaceString_run]. rewrite ReplaceString_step_empty_search by assumption.
  destruct (max_size <? _)%nat; [discriminate|].
  apply IH. rewrite replace_length by (cbn; lia). cbn. lia.
Qed.

Lemma ReplaceString_run_empty_search_throws repl :
  repl <> [] ->
  forall k subject pos,
    (pos <= length subject)%nat ->
    (max_size - length subject < k)%nat ->
    exists fuel,
      ReplaceString_run max_size fuel subject [] repl pos = Some Thrown.
Proof.
  intros Hne. induction k as [|k IH]; intros subject pos Hle Hk; [lia|].
  assert (Hr : (0 < length repl)%nat) by (destruct repl; [congruence|cbn; lia]).
  destruct (Nat.ltb_spec max_size (length subject + length repl)) as [Hbig|Hfit].
  - exists 1%nat. cbn [ReplaceString_run].
    rewrite ReplaceString_step_empty_search by assumption.
    apply Nat.ltb_lt in Hbig. now rewrite Hbig.
  - destruct (IH (replace subject pos 0 repl) (pos + length repl)%nat)
      as [fuel Hfuel].
    + rewrite replace_length by (cbn; lia). cbn. lia.
    + rewrite replace_length by (cbn; lia). cbn. lia.
    + exists (S fuel). cbn [ReplaceString_run].
      rewrite ReplaceString_step_empty_search by assumption.
      apply Nat.ltb_ge in Hfit. now rewrite Hfit.
Qed.

Lemma replace_nothing subject pos :
  replace subject pos 0 [] = subject.
Proof.
  unfold replace. rewrite Nat.add_0_r. cbn [app]. apply firstn_skipn.
Qed.

Lemma ReplaceString_run_both_empty :
  forall fuel subject pos,
    (pos <= length subject <= max_size)%nat ->
    ReplaceString_run max_size fuel subject [] [] pos = None.
Proof.
  induction fuel as [|fuel IH]; intros subject pos H; [reflexivity|].
  cbn [ReplaceString_run]. rewrite ReplaceString_step_empty_search by lia.
  cbn [length]. rewrite Nat.add_0_r.
  replace (max_size <? length subject)%nat with false
    by (symmetry; apply Nat.ltb_ge; lia).
  rewrite replace_nothing, Nat.add_0_r. now apply IH.
Qed.

(** What the loop returns when nothing is thrown is what the loop without
    the limit returns. *)
Lemma ReplaceString_run_returned search repl :
  forall fuel subject pos r,
    ReplaceString_run max_size fuel subject search repl pos
    = Some (Returned r) ->
    ReplaceString_loop fuel subject search repl pos = Some r.
Proof.
  induction fuel as [|fuel IH]; intros subject pos r H; [discriminate|].
  cbn [ReplaceString_run ReplaceString_loop] in *.
  unfold ReplaceString_step in H.
  destruct (find subject search pos) as [p|]; [|congruence].
  destruct (max_size <? _)%nat; [discriminate|]. now apply IH.
Qed.

End SizedStrings.

(** C9, amended.  For a subject within the length limit, the loop of
    [ReplaceString(subject, search, replace)] runs for ever if and only if
    [search] and [replace] are both empty.  With a non-empty [search] the
    loop ends within [size() + 1] evaluations of its condition, by
    returning or by the exception of [replace]: an iteration never moves
    the scan position back, moves it forward when [replace] is not empty,
    and always shortens the text left to scan, [size() - pos].  With an
    empty [search] the loop never returns a result, and with a non-empty
    [replace] it is ended by the exception of [replace], the subject
    growing with every iteration. *)
Theorem ReplaceString_runs_forever_iff_both_empty :
  forall (max_size : nat) (subject search repl : str),
    (length subject <= max_size)%nat ->
    ((forall fuel,
         ReplaceString_run max_size fuel subject search repl 0 = None)
     <-> search = [] /\ repl = [])
    /\ (search <> [] ->
        (exists o,
            ReplaceString_run max_size (S (length subject)) subject search
              repl 0 = Some o)
        /\ forall s pos s' pos',
            ReplaceString_step max_size s search repl pos = Next s' pos' ->
            (pos <= pos')%nat
            /\ (repl <> [] -> pos < pos')%nat
            /\ (length s' - pos' < length s - pos)%nat)
    /\ (search = [] ->
        (forall fuel r,
            ReplaceString_run max_size fuel subject search repl 0
            <> Some (Returned r))
        /\ (repl <> [] ->
            exists fuel,
              ReplaceString_run max_size fuel subject search repl 0
              = Some Thrown)).
Proof.
  intros max_size subject search repl Hsize.
  assert (Hempty : search = [] -> repl <> [] ->
                   exists fuel,
                     ReplaceString_run max_size fuel subject search repl 0
                     = Some Thrown).
  { intros -> Hr.
    apply (ReplaceString_run_empty_search_throws max_size repl Hr
             (S (max_size - length subject))); lia. }
  assert (Hends : search <> [] ->
                  exists o,
                    ReplaceString_run max_size (S (length subject)) subject
                      search repl 0 = Some o).
  { intros Hs. apply ReplaceString_run_ends; [assumption|lia]. }
  split; [split|split].
  - intros Hforever. destruct search as [|c search].
    + split; [reflexivity|]. destruct repl as [|c repl]; [reflexivity|].
      destruct (Hempty eq_refl ltac:(discriminate)) as [fuel Hfuel].
      rewrite Hforever in Hfuel. discriminate.
    + destruct (Hends ltac:(discriminate)) as [o Ho].
      rewrite Hforever in Ho. discriminate.
  - intros [-> ->] fuel. apply ReplaceString_run_both_empty. lia.
  - intros Hs. split; [now apply Hends|].
    intros s pos s' pos' Hstep.
    apply ReplaceString_step_progress in Hstep as [H1 [H2 H3]].
    split; [lia|]. split; [assumption|now apply H3].
  - intros ->. split; [|apply Hempty; reflexivity].
    intros fuel r. apply ReplaceString_run_empty_search_no_result. lia.
Qed.

(** The theorem for the subject [aaa], in which every [a] is deleted, with
    a limit of 100 characters. *)
Lemma ReplaceString_runs_forever_iff_both_empty_at_aaa :
  ((forall fuel,
       ReplaceString_run 100 fuel (lit "aaa") (lit "a") [] 0 = None)
   <-> lit "a" = [] /\ @nil ascii = [])
  /\ (lit "a" <> [] ->
      (exists o,
          ReplaceString_run 100 (S (length (lit "aaa"))) (lit "aaa") (lit "a")
            [] 0 = Some o)
      /\ forall s pos s' pos',
          ReplaceString_step 100 s (lit "a") [] pos = Next s' pos' ->
          (pos <= pos')%nat
          /\ (@nil ascii <> [] -> pos < pos')%nat
          /\ (length s' - pos' < length s - pos)%nat)
  /\ (lit "a" = [] ->
      (forall fuel r,
          ReplaceString_run 100 fuel (lit "aaa") (lit "a") [] 0
          <> Some (Returned r))
      /\ (@nil ascii <> [] ->
          exists fuel,
            ReplaceString_run 100 fuel (lit "aaa") (lit "a") [] 0
            = Some Thrown)).
Proof.
  apply (ReplaceString_runs_forever_iff_both_empty 100 (lit "aaa") (lit "a") []).
  cbn. lia.
Defined.

(** C9 as stated fails.  With an empty [search] and the replacement [a]
    the loop does terminate: on the empty subject the text grows by one
    character per iteration until [replace] throws, whatever the limit is
    (for a limit of 2 characters, at the third iteration).  And with a
    non-empty [search] the scan position need not advance: deleting the
    first [a] of [aaa] leaves the position at 0. *)
Lemma ReplaceString_empty_search_ends_by_exception :
  (forall max_size,
      exists fuel,
        ReplaceString_run max_size fuel [] [] (lit "a") 0 = Some Thrown)
  /\ ReplaceString_run 2 3 [] [] (lit "a") 0 = Some Thrown
  /\ ReplaceString_step 100 (lit "aaa") (lit "a") [] 0 = Next (lit "aa") 0.
Proof.
  split; [|split; reflexivity].
  intros max_size.
  apply (ReplaceString_run_empty_search_throws max_size (lit "a")
           ltac:(discriminate) (S max_size)); cbn; lia.
Qed.

(** ** The template instantiator *)

Section InstantiatorFacts.
Import Template.

Lemma token_nonempty k : token k <> [].
Proof. destruct k; discriminate. Qed.

Lemma instantiate_total angle src nb p :
  exists text, instantiate angle src nb p = Some text.
Proof.
  unfold instantiate.
  destruct (ReplaceString_total src
              (token MINUS_PI_over_N_GLOBAL_BUTTERFLIES) (angle nb)
              (token_nonempty _)) as [s1 H1].
  cbn [token] in H1. rewrite H1.
  destruct (ReplaceString_total s1 (token N_GLOBAL_BUTTERFLIES)
              (to_string nb) (token_nonempty _)) as [s2 H2].
  cbn [token] in H2. rewrite H2.
  destruct (ReplaceString_total s2 (token LOG2_N_GLOBAL_BUTTERFLIES)
              (to_string (power_of_two_exponent nb)) (token_nonempty _))
    as [s3 H3].
  cbn [token] in H3. rewrite H3.
  apply (ReplaceString_total s3 (token N_LOCAL_BUTTERFLIES)).
  apply token_nonempty.
Qed.

(** The nested calls of the constructor are the substitution in
    [source_order]. *)
Lemma instantiate_substitute angle src nb p :
  instantiate angle src nb p = substitute (value angle nb p) source_order src.
Proof.
  unfold instantiate, source_order. cbn [substitute token value].
  repeat match goal with
         | |- match ?x with _ => _ end = match ?x with _ => _ end =>
             destruct x; [|reflexivity]
         end.
  now destruct (ReplaceString _ _ _).
Qed.

(** *** Templates whose placeholders are set apart *)

Lemma placeholder_eqb_eq a b : placeholder_eqb a b = true <-> a = b.
Proof. destruct a, b; simpl; split; congruence. Qed.

Lemma find_from_skip t u x i :
  starts_in t u = false ->
  find_from (u ++ x) t i = find_from x t (i + length u).
Proof.
  revert i. induction u as [|c u IH]; intros i H.
  - now rewrite Nat.add_0_r.
  - cbn [starts_in] in H. apply orb_false_elim in H as [H Hu].
    apply orb_false_elim in H as [H1 H2].
    cbn [app find_from].
    destruct (prefix_b t (c :: u ++ x)) eqn:E.
    + apply (prefix_b_app_cases t (c :: u) x) in E as [E|E]; congruence.
    + rewrite IH by assumption. cbn [length]. f_equal. lia.
Qed.

Lemma find_after done x t :
  find (done ++ x) t (length done) = find_from x t (length done).
Proof.
  unfold find. rewrite length_app.
  replace (length done <=? length done + length x)%nat with true
    by (symmetry; apply Nat.leb_le; lia).
  now rewrite skipn_app, skipn_all, Nat.sub_diag.
Qed.

Lemma replace_after done t r x :
  replace (done ++ t ++ x) (length done) (length t) r = done ++ r ++ x.
Proof.
  unfold replace.
  rewrite firstn_app, firstn_all, Nat.sub_diag, app_nil_r. f_equal. f_equal.
  rewrite skipn_app, skipn_all2 by lia.
  replace (length done + length t - length done)%nat with (length t) by lia.
  now rewrite skipn_app, skipn_all, Nat.sub_diag.
Qed.

(** A placeholder does not begin inside another placeholder, nor at its
    start unless it is the same one. *)
Lemma token_apart k k' :
  k' <> k -> starts_in (token k) (token k') = false.
Proof. destruct k, k'; intros H; try congruence; reflexivity. Qed.

Lemma segment_skipped k g :
  inert_segment g = true -> is_hole k g = false ->
  starts_in (token k) (render_segment g) = false.
Proof.
  destruct g as [u|k']; cbn [inert_segment is_hole render_segment].
  - intros H _. unfold inert in H. rewrite forallb_forall in H.
    apply negb_true_iff. apply H. destruct k; simpl; tauto.
  - intros _ H. apply token_apart. intros ->.
    now rewrite (proj2 (placeholder_eqb_eq k k) eq_refl) in H.
Qed.

Lemma render_cons g segs : render (g :: segs) = render_segment g ++ render segs.
Proof. reflexivity. Qed.

(** The loop of [ReplaceString] on a template whose text segments are
    inert: started after [done], it replaces exactly the holes of the
    placeholder searched for. *)
Lemma ReplaceString_loop_render k r :
  forall segs done fuel,
    forallb inert_segment segs = true ->
    (length segs < fuel)%nat ->
    ReplaceString_loop fuel (done ++ render segs) (token k) r (length done)
    = Some (done ++ render (map (fill_one k r) segs)).
Proof.
  induction segs as [|g segs IH]; intros done fuel Hin Hfuel.
  - destruct fuel as [|fuel]; [cbn in Hfuel; lia|].
    cbn [ReplaceString_loop render map concat]. rewrite find_after.
    cbn [find_from]. destruct (token k) eqn:E; [now destruct k|]. reflexivity.
  - cbn [forallb] in Hin. apply andb_prop in Hin as [Hg Hin].
    cbn [length] in Hfuel. cbn [map]. rewrite !render_cons.
    destruct (is_hole k g) eqn:Hh.
    + destruct g as [u|k']; [discriminate|]. cbn [is_hole] in Hh.
      apply placeholder_eqb_eq in Hh. subst k'.
      cbn [render_segment fill_one].
      rewrite (proj2 (placeholder_eqb_eq k k) eq_refl).
      cbn [render_segment].
      destruct fuel as [|fuel]; [lia|]. cbn [ReplaceString_loop].
      rewrite find_after.
      assert (Hf : find_from (token k ++ render segs) (token k) (length done)
                   = Some (length done)).
      { destruct (token k ++ render segs) eqn:E;
          cbn [find_from]; rewrite <- E, prefix_b_app; reflexivity. }
      rewrite Hf, replace_after.
      rewrite (app_assoc done r), <- (length_app done r).
      rewrite IH by (assumption || lia). now rewrite <- app_assoc.
    + assert (Hsame : fill_one k r g = g).
      { destruct g as [u|k']; [reflexivity|]. cbn [is_hole] in Hh.
        cbn [fill_one]. now rewrite Hh. }
      rewrite Hsame.
      pose proof (segment_skipped k g Hg Hh) as Hskip.
      destruct fuel as [|fuel]; [lia|].
      specialize (IH (done ++ render_segment g) (S fuel) Hin ltac:(lia)).
      rewrite <- !app_assoc in IH. rewrite <- IH.
      cbn [ReplaceString_loop]. rewrite find_after.
      rewrite (app_assoc done), find_after, <- app_assoc.
      rewrite find_from_skip by assumption. now rewrite length_app.
Qed.

Lemma ReplaceString_render k r segs :
  forallb inert_segment segs = true ->
  ReplaceString (render segs) (token k) r
  = Some (render (map (fill_one k r) segs)).
Proof.
  intros Hin.
  apply (ReplaceString_loop_enough _ _ _ (S (length segs))).
  exact (ReplaceString_loop_render k r segs [] (S (length segs)) Hin
           (Nat.lt_succ_diag_r _)).
Qed.

Lemma fill_one_inert k r segs :
  inert r = true ->
  forallb inert_segment segs = true ->
  forallb inert_segment (map (fill_one k r) segs) = true.
Proof.
  intros Hr. induction segs as [|g segs IH]; [reflexivity|].
  cbn [forallb map]. intros H. apply andb_prop in H as [Hg H].
  rewrite IH by assumption. rewrite andb_true_r.
  destruct g as [u|k']; [assumption|]. cbn [fill_one].
  now destruct (placeholder_eqb k' k).
Qed.

Lemma substitute_render val :
  (forall k, inert (val k) = true) ->
  forall order segs,
    forallb inert_segment segs = true ->
    substitute val order (render segs)
    = Some (render (fill_in_order val order segs)).
Proof.
  intros Hval. induction order as [|k order IH]; intros segs Hin;
    [reflexivity|].
  cbn [substitute fill_in_order fold_left].
  rewrite ReplaceString_render by assumption.
  apply IH. now apply fill_one_inert.
Qed.

Lemma fill_fill_one val k segs :
  fill val (map (fill_one k (val k)) segs) = fill val segs.
Proof.
  unfold fill. rewrite map_map. f_equal. apply map_ext. intros [u|k'].
  - reflexivity.
  - cbn [fill_one]. destruct (placeholder_eqb k' k) eqn:E; [|reflexivity].
    apply placeholder_eqb_eq in E. now subst.
Qed.

(** Once every placeholder of the template is in [order], nothing of the
    template is left unfilled. *)
Lemma render_fill_in_order val :
  forall order segs,
    (forall k, In (Hole k) segs -> In k order) ->
    render (fill_in_order val order segs) = fill val segs.
Proof.
  induction order as [|k order IH]; intros segs Hall.
  - cbn [fill_in_order fold_left]. unfold render, fill. f_equal.
    apply map_ext_in. intros [u|k'] Hg; [reflexivity|].
    destruct (Hall _ Hg).
  - cbn [fill_in_order fold_left].
    change (fold_left _ order ?x) with (fill_in_order val order x).
    rewrite IH; [apply fill_fill_one|].
    intros k' Hk'. apply in_map_iff in Hk' as [[u|k''] [Hg Hk']];
      [discriminate|].
    cbn [fill_one] in Hg.
    destruct (placeholder_eqb k'' k) eqn:E; [discriminate|].
    injection Hg as ->. destruct (Hall _ Hk') as [->|]; [|assumption].
    now rewrite (proj2 (placeholder_eqb_eq k' k') eq_refl) in E.
Qed.

(** Decimal numbers contain no character a placeholder can begin with. *)
Lemma no_r_inert u :
  Forall (fun c => c <> "r"%char) u -> inert u = true.
Proof.
  intros H. unfold inert. apply forallb_forall. intros k _.
  apply negb_true_iff. induction H as [|c u Hc _ IH]; [reflexivity|].
  cbn [starts_in]. rewrite IH, orb_false_r.
  apply Ascii.eqb_neq in Hc.
  destruct k; cbn [token lit list_ascii_of_string prefix_b];
    rewrite (Ascii.eqb_sym "r"%char c), Hc; reflexivity.
Qed.

Lemma string_of_uint_no_r d :
  Forall (fun c => c <> "r"%char)
    (list_ascii_of_string (NilEmpty.string_of_uint d)).
Proof.
  induction d; cbn [NilEmpty.string_of_uint list_ascii_of_string];
    constructor; try assumption; discriminate.
Qed.

Lemma to_string_inert z : inert (to_string z) = true.
Proof.
  apply no_r_inert. unfold to_string, lit, NilZero.string_of_int.
  destruct (Z.to_int z) as [d|d]; unfold NilZero.string_of_uint.
  - destruct d; try apply string_of_uint_no_r.
    repeat constructor; discriminate.
  - cbn [list_ascii_of_string]. constructor; [discriminate|].
    destruct d; try apply string_of_uint_no_r.
    repeat constructor; discriminate.
Qed.

Lemma value_inert angle nb p :
  inert (angle nb) = true -> forall k, inert (value angle nb p k) = true.
Proof. intros H [| | |]; cbn [value]; auto using to_string_inert. Qed.

(** Substituting every placeholder, in whatever order, fills the
    template. *)
Lemma substitute_covering val order segs :
  (forall k, inert (val k) = true) ->
  forallb inert_segment segs = true ->
  (forall k, In k order) ->
  substitute val order (render segs) = Some (fill val segs).
Proof.
  intros Hval Hsegs Hall. rewrite substitute_render by assumption.
  f_equal. apply render_fill_in_order. intros k _. apply Hall.
Qed.

Lemma source_order_covers k : In k source_order.
Proof. destruct k; simpl; tauto. Qed.

(** C8, amended.  For a template made of placeholder tokens set apart by
    text in which no placeholder can begin, and for every butterfly count
    and per-thread count (the angle literal being such text too, as the
    decimal numbers always are), the four substitutions applied in any
    order give the same source as the order of the implementation: the
    template with every token replaced by its value. *)
Theorem substitution_order_is_irrelevant :
  forall (angle : Z -> str) (nb p : Z) (segs : list segment)
         (order : list placeholder),
    forallb inert_segment segs = true ->
    inert (angle nb) = true ->
    Permutation order source_order ->
    substitute (value angle nb p) order (render segs)
    = Some (fill (value angle nb p) segs)
    /\ instantiate angle (render segs) nb p
       = substitute (value angle nb p) order (render segs).
Proof.
  intros angle nb p segs order Hsegs Hangle Hperm.
  pose proof (value_inert angle nb p Hangle) as Hval.
  assert (Hfirst : substitute (value angle nb p) order (render segs)
                   = Some (fill (value angle nb p) segs)).
  { apply substitute_covering; try assumption. intros k.
    apply (Permutation_in k (Permutation_sym Hperm)), source_order_covers. }
  split; [assumption|].
  rewrite instantiate_substitute, Hfirst.
  apply substitute_covering; try assumption. apply source_order_covers.
Qed.

Lemma full_template_segments_render :
  render Sample.full_template_segments = Sample.full_template
  /\ forallb inert_segment Sample.full_template_segments = true.
Proof. split; reflexivity. Qed.

(** The theorem on [full_template] with its substitutions in the reverse
    of the implementation's order. *)
Lemma substitution_order_is_irrelevant_reversed :
  substitute (value Sample.angle 4 1) (rev source_order)
    (render Sample.full_template_segments)
  = Some (fill (value Sample.angle 4 1)
            Sample.full_template_segments)
  /\ instantiate Sample.angle
       (render Sample.full_template_segments) 4 1
     = substitute (value Sample.angle 4 1) (rev source_order)
         (render Sample.full_template_segments).
Proof.
  apply (substitution_order_is_irrelevant Sample.angle 4 1
           Sample.full_template_segments (rev source_order)).
  - reflexivity.
  - reflexivity.
  - apply Permutation_sym, Permutation_rev.
Defined.

(** C8 as stated fails: on [entangled_template] with [N = 4] (two
    butterflies) the implementation's order first writes the count 2 into
    the text, which completes the token of the logarithm, and the next
    substitution replaces it; substituting the logarithm before the count
    leaves that token in the result. *)
Lemma substitution_order_matters :
  Permutation
    [LOG2_N_GLOBAL_BUTTERFLIES; N_GLOBAL_BUTTERFLIES;
     MINUS_PI_over_N_GLOBAL_BUTTERFLIES; N_LOCAL_BUTTERFLIES] source_order
  /\ instantiate Sample.angle Sample.entangled_template 2 1
     = Some (lit "1")
  /\ substitute (value Sample.angle 2 1)
       [LOG2_N_GLOBAL_BUTTERFLIES; N_GLOBAL_BUTTERFLIES;
        MINUS_PI_over_N_GLOBAL_BUTTERFLIES; N_LOCAL_BUTTERFLIES]
       Sample.entangled_template
     = Some (lit "replace_LOG2_N_GLOBAL_BUTTERFLIES")
  /\ instantiate Sample.angle Sample.entangled_template 2 1
     <> substitute (value Sample.angle 2 1)
          [LOG2_N_GLOBAL_BUTTERFLIES; N_GLOBAL_BUTTERFLIES;
           MINUS_PI_over_N_GLOBAL_BUTTERFLIES; N_LOCAL_BUTTERFLIES]
          Sample.entangled_template.
Proof.
  split; [|split; [reflexivity|split; [reflexivity|discriminate]]].
  unfold source_order.
  apply Permutation_trans
    with [N_GLOBAL_BUTTERFLIES; LOG2_N_GLOBAL_BUTTERFLIES;
          MINUS_PI_over_N_GLOBAL_BUTTERFLIES; N_LOCAL_BUTTERFLIES].
  - apply perm_swap.
  - apply Permutation_trans
      with [N_GLOBAL_BUTTERFLIES; MINUS_PI_over_N_GLOBAL_BUTTERFLIES;
            LOG2_N_GLOBAL_BUTTERFLIES; N_LOCAL_BUTTERFLIES].
    + apply perm_skip, perm_swap.
    + apply perm_swap.
Qed.

Lemma find_from_render_none t :
  prefix_b t [] = false ->
  forall segs i,
    (forall g, In g segs -> starts_in t (render_segment g) = false) ->
    find_from (render segs) t i = None.
Proof.
  intros Ht. induction segs as [|g segs IH]; intros i Hall.
  - cbn [render map concat find_from]. now rewrite Ht.
  - rewrite render_cons, find_from_skip by (apply Hall; now left).
    apply IH. intros g' Hg'. apply Hall. now right.
Qed.

(** On a template whose placeholders are set apart, the instantiated
    source is the template with every token replaced by its value, and no
    placeholder token is left in it. *)
Theorem instantiated_source_has_no_placeholder :
  forall (angle : Z -> str) (nb p : Z) (segs : list segment),
    forallb inert_segment segs = true ->
    inert (angle nb) = true ->
    instantiate angle (render segs) nb p = Some (fill (value angle nb p) segs)
    /\ forall k, find (fill (value angle nb p) segs) (token k) 0 = None.
Proof.
  intros angle nb p segs Hsegs Hangle.
  pose proof (value_inert angle nb p Hangle) as Hval.
  split.
  { rewrite instantiate_substitute.
    apply substitute_covering; try assumption. apply source_order_covers. }
  intros k.
  unfold find. cbn [Nat.leb skipn].
  replace (fill (value angle nb p) segs)
    with (render (map (fun g => Text (fill_segment (value angle nb p) g)) segs))
    by (unfold render, fill; now rewrite map_map).
  apply find_from_render_none; [now destruct k|].
  intros g Hg. apply in_map_iff in Hg as [g0 [<- Hg0]].
  apply segment_skipped; [|reflexivity].
  cbn [inert_segment]. destruct g0 as [u|k0]; cbn [fill_segment].
  - rewrite forallb_forall in Hsegs. exact (Hsegs _ Hg0).
  - apply Hval.
Qed.

(** The theorem on [full_template] for four butterflies, one per thread. *)
Lemma instantiated_full_template_has_no_placeholder :
  instantiate Sample.angle (render Sample.full_template_segments) 4 1
  = Some (fill (value Sample.angle 4 1) Sample.full_template_segments)
  /\ forall k,
       find (fill (value Sample.angle 4 1) Sample.full_template_segments)
         (token k) 0 = None.
Proof.
  apply (instantiated_source_has_no_placeholder Sample.angle 4 1
           Sample.full_template_segments); reflexivity.
Defined.

End InstantiatorFacts.

(** ** Running the model *)

Section RunFacts.
Import Mach CL Obs Prog.

Lemma bind_pure {A B} (a : A) (f : A -> M B) s : bind (pure a) f s = f a s.
Proof. reflexivity. Qed.

Lemma bind_call {B} W c (f : response -> M B) s :
  bind (call W c) f s = f (device W (ncalls s) c) (after_call W c s).
Proof. reflexivity. Qed.

Lemma bind_emit {B} e (f : unit -> M B) s :
  bind (emit e) f s = f tt (after_emit e s).
Proof. reflexivity. Qed.

Lemma bind_print {B} m (f : unit -> M B) s :
  bind (print m) f s = f tt (after_emit (Cout m) s).
Proof. reflexivity. Qed.

Lemma bind_raise {A B} e (f : A -> M B) s : bind (raise e) f s = (Err e, s).
Proof. reflexivity. Qed.

Lemma bind_CHECK {B} status (f : unit -> M B) s :
  bind (CHECK_CL_ERROR status) f s =
  if status =? CL_SUCCESS then f tt s else (Err (ClError status), s).
Proof. unfold CHECK_CL_ERROR. now destruct (status =? CL_SUCCESS). Qed.

Lemma bind_verify {B} cond (f : unit -> M B) s :
  bind (verify cond) f s = if cond then f tt s else (Err PreconditionFailure, s).
Proof. now destruct cond. Qed.

Lemma bind_assoc {A B C} (m : M A) (f : A -> M B) (g : B -> M C) s :
  bind (bind m f) g s = bind m (fun a => bind (f a) g) s.
Proof. unfold bind. destruct (m s) as [[a| |] s1]; reflexivity. Qed.

Lemma bind_Ok {A B} (m : M A) (f : A -> M B) s a s1 :
  m s = (Ok a, s1) -> bind m f s = f a s1.
Proof. intros H. unfold bind. now rewrite H. Qed.

(** What [bind] returning a value says about its two parts. *)
Lemma bind_inv_Ok {A B} (m : M A) (f : A -> M B) s b s2 :
  bind m f s = (Ok b, s2) ->
  exists a s1, m s = (Ok a, s1) /\ f a s1 = (Ok b, s2).
Proof.
  unfold bind. destruct (m s) as [[a| |] s1]; try discriminate.
  intros H. now exists a, s1.
Qed.

Lemma release_Ok W program kernel s :
  all_succeed W ->
  release W program kernel s =
  (Ok tt, after_call W (clReleaseProgram program)
            (after_call W (clReleaseKernel kernel) s)).
Proof.
  intros HW. unfold release.
  rewrite bind_call, bind_CHECK, HW. simpl.
  rewrite bind_call. unfold CHECK_CL_ERROR. now rewrite HW.
Qed.

(** *** Runs only append to the trace *)

Lemma emits_pure {A} (a : A) Q : emits (pure a) Q.
Proof. intros s. exists []. now rewrite app_nil_r. Qed.

Lemma emits_raise {A} e Q : emits (@raise A e) Q.
Proof. intros s. exists []. now rewrite app_nil_r. Qed.

Lemma emits_out_of_fuel {A} Q : emits (@out_of_fuel A) Q.
Proof. intros s. exists []. now rewrite app_nil_r. Qed.

Lemma emits_CHECK status Q : emits (CHECK_CL_ERROR status) Q.
Proof.
  unfold CHECK_CL_ERROR.
  destruct (status =? CL_SUCCESS); [apply emits_pure|apply emits_raise].
Qed.

Lemma emits_verify cond Q : emits (verify cond) Q.
Proof. destruct cond; [apply emits_pure|apply emits_raise]. Qed.

Lemma emits_emit e (Q : event -> Prop) : Q e -> emits (emit e) Q.
Proof. intros H s. exists [e]. split; [reflexivity|]. now constructor. Qed.

Lemma emits_call W c (Q : event -> Prop) :
  (forall n, Q (Call c (device W n c))) -> emits (call W c) Q.
Proof. intros H s. eexists [_]. split; [reflexivity|]. now constructor. Qed.

Lemma emits_draw W n Q : emits (draw W n) Q.
Proof. intros s. exists []. simpl. now rewrite app_nil_r. Qed.

Lemma emits_bind {A B} (m : M A) (f : A -> M B) Q :
  emits m Q -> (forall a, returns m a -> emits (f a) Q) -> emits (bind m f) Q.
Proof.
  intros Hm Hf s. unfold bind. destruct (Hm s) as [e1 [H1 F1]].
  destruct (m s) as [[a| |] s1] eqn:E; simpl in H1; try (now exists e1).
  assert (Hr : returns m a) by (exists s; now rewrite E).
  destruct (Hf a Hr s1) as [e2 [H2 F2]].
  exists (e1 ++ e2). rewrite H2, H1, app_assoc. split; [reflexivity|].
  apply Forall_app. now split.
Qed.

Lemma emits_weaken {A} (m : M A) (Q Q' : event -> Prop) :
  (forall e, Q e -> Q' e) -> emits m Q -> emits m Q'.
Proof.
  intros HQ Hm s. destruct (Hm s) as [evs [H F]]. exists evs.
  split; [assumption|]. eapply Forall_impl; eassumption.
Qed.

Lemma returns_verify cond a : returns (verify cond) a -> cond = true.
Proof. intros [s H]. destruct cond; [reflexivity|discriminate]. Qed.

Lemma returns_CHECK status a :
  returns (CHECK_CL_ERROR status) a -> status = CL_SUCCESS.
Proof.
  intros [s H]. unfold CHECK_CL_ERROR in H.
  destruct (Z.eqb_spec status CL_SUCCESS); [assumption|discriminate].
Qed.

End RunFacts.

(** Splits a goal [emits m Q] along the structure of [m]; what is left are
    the obligations [Q e] of the events and the loops. *)
Ltac emits_step :=
  match goal with
  | |- Obs.emits (CL.bind _ _) _ => apply emits_bind; [|intros ? ?]
  | |- Obs.emits (CL.pure _) _ => apply emits_pure
  | |- Obs.emits (CL.raise _) _ => apply emits_raise
  | |- Obs.emits CL.out_of_fuel _ => apply emits_out_of_fuel
  | |- Obs.emits (CL.CHECK_CL_ERROR _) _ => apply emits_CHECK
  | |- Obs.emits (CL.verify _) _ => apply emits_verify
  | |- Obs.emits (CL.print _) _ => apply emits_emit
  | |- Obs.emits (CL.emit _) _ => apply emits_emit
  | |- Obs.emits (Prog.verifyVectorsAreEqual _ _ _ _) _ => apply emits_emit
  | |- Obs.emits (CL.call _ _) _ => apply emits_call; intros ?
  | |- Obs.emits (CL.draw _ _) _ => apply emits_draw
  | |- Obs.emits (if ?b then _ else _) _ => destruct b eqn:?
  | |- Obs.emits (match ?x with _ => _ end) _ => destruct x eqn:?
  end.

(** ** The configuration prober *)

Section ProberFacts.
Import Mach CL Obs Prog.

Lemma over_capacity_false nb p wg :
  0 <= nb < size_t_mod -> 0 <= p -> 0 <= wg ->
  over_capacity nb p wg = false -> nb <= p * wg.
Proof.
  intros Hnb Hp Hwg H. unfold over_capacity in H. apply Z.ltb_ge in H.
  rewrite (to_size_t_id nb Hnb) in H.
  pose proof (to_size_t_range p). pose proof (to_size_t_le p Hp).
  assert (to_size_t (to_size_t p * wg) <= to_size_t p * wg)
    by (apply to_size_t_le; nia).
  nia.
Qed.

Lemma next_estimate_nonneg nb wg :
  0 <= nb <= INT_MAX -> 0 < wg -> 0 <= next_estimate nb wg <= nb.
Proof.
  intros Hnb Hwg. unfold next_estimate.
  assert (INT_MAX < size_t_mod) by (unfold INT_MAX, size_t_mod; lia).
  rewrite (to_size_t_id nb) by lia.
  assert (0 <= nb / wg <= nb).
  { split; [apply Z.div_pos; lia|].
    apply Z.div_le_upper_bound; [lia|]. nia. }
  rewrite to_int_id; [lia|]. unfold INT_MIN, INT_MAX in *. lia.
Qed.

(** What holds when the loop of the constructor is left through [break]:
    the last query of the work-group size and the line printed after it
    are the last two events, and the capacity test failed on them. *)
Lemma ScopedKernel_loop_accepted fuel W src nb :
  0 <= nb <= INT_MAX ->
  forall p s sk s',
    0 <= p ->
    ScopedKernel_loop fuel W src nb p s = (Ok sk, s') ->
    0 <= nButterfliesPerThread sk
    /\ exists r t,
        trace s' =
          t ++ [Call (clGetKernelWorkGroupInfo_WORK_GROUP_SIZE (kernel sk)) r;
                Cout (msg_workgroup_max_size (to_size_t (out r))
                        (nButterfliesPerThread sk))]
        /\ over_capacity nb (nButterfliesPerThread sk) (to_size_t (out r))
           = false.
Proof.
  intros Hnb. induction fuel as [|fuel IH]; intros p s sk s' Hp Hrun;
    [discriminate|].
  simpl in Hrun.
  destruct (Template.instantiate _ _ _ _) as [replaced_str|]; [|discriminate].
  rewrite bind_call, bind_CHECK in Hrun.
  destruct (_ =? CL_SUCCESS); [|discriminate].
  rewrite bind_call, bind_CHECK in Hrun.
  destruct (_ =? CL_SUCCESS); [|discriminate].
  rewrite bind_call, bind_CHECK in Hrun.
  destruct (_ =? CL_SUCCESS); [|discriminate].
  rewrite bind_call, bind_CHECK in Hrun.
  destruct (_ =? CL_SUCCESS); [|discriminate].
  rewrite bind_print in Hrun.
  match type of Hrun with
  | context [over_capacity nb p (to_size_t (out ?r))] =>
      set (r4 := r) in *; destruct (over_capacity nb p (to_size_t (out r4))) eqn:Hcap
  end.
  - apply bind_inv_Ok in Hrun as [[] [s1 [_ Hrun]]].
    destruct (to_size_t (out r4) =? 0) eqn:Hz; [discriminate|].
    apply Z.eqb_neq in Hz. pose proof (to_size_t_range (out r4)).
    apply IH in Hrun; [assumption|].
    apply next_estimate_nonneg; [assumption|lia].
  - injection Hrun as <- <-. simpl. split; [assumption|].
    eexists r4, _. split; [|exact Hcap].
    unfold after_emit. simpl. rewrite <- app_assoc. reflexivity.
Qed.

(** C1, amended.  For every input length [N] whose butterfly count [N/2]
    fits the [int] variable [nButterflies] ([N/2 <= INT_MAX]): whenever the
    constructor's search returns, accepting the per-thread count [p], the
    last two events are the query of the maximal work-group size of the
    finally compiled kernel and the line printed for it, and
    [N/2 <= p * (that size)]. *)
Theorem accepted_configuration_has_capacity :
  forall fuel W src N s sk s',
    0 <= N -> N / 2 <= INT_MAX ->
    ScopedKernel_ctor fuel W src N s = (Ok sk, s') ->
    exists r t,
      trace s' =
        t ++ [Call (clGetKernelWorkGroupInfo_WORK_GROUP_SIZE (kernel sk)) r;
              Cout (msg_workgroup_max_size (to_size_t (out r))
                      (nButterfliesPerThread sk))]
      /\ N / 2 <= nButterfliesPerThread sk * to_size_t (out r).
Proof.
  intros fuel W src N s sk s' HN Hint Hrun. unfold ScopedKernel_ctor in Hrun.
  assert (Hnb : 0 <= N / 2 <= INT_MAX) by (split; [apply Z.div_pos; lia|lia]).
  rewrite to_int_id in Hrun by (unfold INT_MIN, INT_MAX in *; lia).
  apply ScopedKernel_loop_accepted in Hrun as [Hp [r [t [Ht Hcap]]]];
    [|assumption|lia].
  exists r, t. split; [assumption|].
  pose proof (to_size_t_range (out r)).
  apply over_capacity_false; try assumption; try lia.
  unfold size_t_mod, INT_MAX in *. lia.
Qed.

(** The theorem at [N = 8] on a device whose kernels support work-groups
    of 256 items: the search accepts [p = 1] at the first trial. *)
Lemma accepted_configuration_has_capacity_at_8 :
  exists r t,
    trace (snd (ScopedKernel_ctor 3 (Sample.world Sample.full_template 256 4096 0 0)
                  Sample.full_template 8 initial)) =
      t ++ [Call (clGetKernelWorkGroupInfo_WORK_GROUP_SIZE 2) r;
            Cout (msg_workgroup_max_size (to_size_t (out r)) 1)]
    /\ 8 / 2 <= 1 * to_size_t (out r).
Proof.
  apply (accepted_configuration_has_capacity 3
           (Sample.world Sample.full_template 256 4096 0 0)
           Sample.full_template 8 initial
           {| program := 0; kernel := 2; nButterfliesPerThread := 1 |}).
  - lia.
  - vm_compute. discriminate.
  - vm_compute. reflexivity.
Defined.

(** C1 as stated fails for a length whose butterfly count does not fit
    [int]: for [N = 2^33] the variable [nButterflies] holds [0], the first
    trial is accepted with [p = 1] on a device that reports 256, and
    [N/2 = 2^32] exceeds [1 * 256]. *)
Lemma accepted_configuration_without_capacity :
  is_power_of_two (2 ^ 33) = true
  /\ fst (ScopedKernel_ctor 3 (Sample.world Sample.full_template 256 4096 0 0)
            Sample.full_template (2 ^ 33) initial)
     = Ok {| program := 0; kernel := 2; nButterfliesPerThread := 1 |}
  /\ last (trace (snd (ScopedKernel_ctor 3
                         (Sample.world Sample.full_template 256 4096 0 0)
                         Sample.full_template (2 ^ 33) initial)))
          (Cout msg_ok)
     = Cout (msg_workgroup_max_size 256 1)
  /\ 1 * 256 < 2 ^ 33 / 2.
Proof. vm_compute. repeat split; reflexivity. Qed.

Lemma release_emits W program kernel (Q : event -> Prop) :
  (forall r, Q (Call (clReleaseKernel kernel) r)) ->
  (forall r, Q (Call (clReleaseProgram program) r)) ->
  emits (release W program kernel) Q.
Proof. intros H1 H2. unfold release. repeat emits_step; auto. Qed.

Lemma ScopedKernel_loop_emits W src nb fuel :
  forall p, emits (ScopedKernel_loop fuel W src nb p) (fun _ => True).
Proof.
  induction fuel as [|fuel IH]; intros p; cbn [ScopedKernel_loop].
  - apply emits_out_of_fuel.
  - repeat first [apply IH | apply release_emits; auto | emits_step; auto].
Qed.

Lemma bind_release {B} W program kernel (f : unit -> M B) s :
  all_succeed W ->
  bind (release W program kernel) f s =
  f tt (after_call W (clReleaseProgram program)
          (after_call W (clReleaseKernel kernel) s)).
Proof. intros HW. apply bind_Ok. now apply release_Ok. Qed.

Lemma steady_device_succeeds src wg lm t0 t1 :
  all_succeed (Sample.world src wg lm t0 t1).
Proof. intros n c. destruct c; try reflexivity. now destruct param. Qed.

(** When the reported work-group size divides the butterfly count (as
    when both are powers of two), a failed capacity test is followed by a
    strictly greater count, and that count passes the test against the
    same size. *)
Theorem next_estimate_increases_on_divisor :
  forall nb p wg,
    0 <= nb <= INT_MAX -> 0 <= p -> 0 < wg -> p * wg < size_t_mod ->
    (wg | nb) ->
    over_capacity nb p wg = true ->
    p < next_estimate nb wg
    /\ over_capacity nb (next_estimate nb wg) wg = false.
Proof.
  intros nb p wg Hnb Hp Hwg Hsmall [m Hm] Hcap.
  assert (HI : INT_MAX < size_t_mod) by (unfold INT_MAX, size_t_mod; lia).
  unfold over_capacity in *. apply Z.ltb_lt in Hcap.
  rewrite (to_size_t_id nb) in * by lia.
  rewrite (to_size_t_id p) in Hcap by nia.
  rewrite to_size_t_id in Hcap by nia.
  assert (Hq : nb / wg = m) by (subst nb; apply Z.div_mul; lia).
  assert (Hnext : next_estimate nb wg = m).
  { unfold next_estimate. rewrite (to_size_t_id nb), Hq by lia.
    apply to_int_id. unfold INT_MIN, INT_MAX in *. nia. }
  rewrite Hnext. split; [nia|].
  apply Z.ltb_ge. rewrite (to_size_t_id m) by nia.
  rewrite to_size_t_id by nia. lia.
Qed.

(** The theorem for 1024 butterflies on a device that reports 256: the
    count goes from 1 to 4. *)
Lemma next_estimate_increases_at_1024 :
  1 < next_estimate 1024 256
  /\ over_capacity 1024 (next_estimate 1024 256) 256 = false.
Proof.
  apply (next_estimate_increases_on_divisor 1024 1 256).
  - unfold INT_MAX. lia.
  - lia.
  - lia.
  - unfold size_t_mod. lia.
  - exists 4. reflexivity.
  - reflexivity.
Defined.

(** C6 on the code.  For [N = 2048] (1024 butterflies) on a device that
    reports a work-group size of 768 for every kernel, the capacity test
    fails for the count 1, the next count is [1024 / 768 = 1], which is not
    greater than the count just tried, and the search tries the count 1
    again and again: it returns for no number of trials. *)
Theorem prober_retries_same_count :
  over_capacity (to_int (2048 / 2)) 1 768 = true
  /\ next_estimate (to_int (2048 / 2)) 768 = 1
  /\ forall fuel s,
       fst (ScopedKernel_ctor fuel
              (Sample.world Sample.full_template 768 65536 0 0)
              Sample.full_template 2048 s) = OutOfFuel.
Proof.
  split; [reflexivity|]. split; [reflexivity|].
  unfold ScopedKernel_ctor. change (to_int (2048 / 2)) with 1024.
  set (W := Sample.world Sample.full_template 768 65536 0 0).
  assert (HW : all_succeed W) by apply steady_device_succeeds.
  induction fuel as [|fuel IH]; intros s; [reflexivity|].
  cbn [ScopedKernel_loop].
  destruct (Template.instantiate (angle_literal W) Sample.full_template 1024 1)
    as [replaced_str|] eqn:Hsrc; [|reflexivity].
  rewrite bind_call, bind_CHECK, HW. cbn [Z.eqb CL_SUCCESS].
  rewrite bind_call, bind_CHECK, HW. cbn [Z.eqb CL_SUCCESS].
  rewrite bind_call, bind_CHECK, HW. cbn [Z.eqb CL_SUCCESS].
  rewrite bind_call, bind_CHECK, HW. cbn [Z.eqb CL_SUCCESS].
  rewrite bind_print.
  change (over_capacity 1024 1 (to_size_t (out (device W _ _)))) with true.
  cbn iota. rewrite bind_release by assumption.
  change (to_size_t (out (device W _ _))) with 768.
  change (next_estimate 1024 768) with 1. cbn [Z.eqb].
  apply IH.
Qed.

Lemma ScopedKernel_loop_first_call W src nb p fuel s text :
  Template.instantiate (angle_literal W) src nb p = Some text ->
  exists t,
    trace (snd (ScopedKernel_loop (S fuel) W src nb p s)) =
    trace s ++
      Call (clCreateProgramWithSource text)
        (device W (ncalls s) (clCreateProgramWithSource text)) :: t.
Proof.
  intros Hsrc. cbn [ScopedKernel_loop]. rewrite Hsrc, bind_call.
  match goal with
  | |- context [snd (?m (after_call W ?c s))] =>
      assert (Hm : emits m (fun _ => True))
  end.
  { repeat first [apply ScopedKernel_loop_emits | apply release_emits; auto
                 | emits_step; auto]. }
  destruct (Hm (after_call W (clCreateProgramWithSource text) s))
    as [evs [Hevs _]].
  exists evs. rewrite Hevs. cbn [after_call trace].
  now rewrite <- app_assoc.
Qed.

(** C7, amended.  A placeholder that does not occur in the text is not
    reported: [ReplaceString] returns the text as it is, the instantiator
    returns source text for every template (it has no way to signal an
    error), a template that contains none of the four tokens is returned
    unchanged, and whatever text results is what the constructor first
    hands to [clCreateProgramWithSource]. *)
Theorem missing_placeholder_is_not_reported :
  forall (W : World) (src : str) (N : Z) (fuel : nat) (s : state),
    (exists text,
        Template.instantiate (angle_literal W) src (to_int (N / 2)) 1
        = Some text
        /\ exists t,
            trace (snd (ScopedKernel_ctor (S fuel) W src N s)) =
            trace s ++
              Call (clCreateProgramWithSource text)
                (device W (ncalls s) (clCreateProgramWithSource text)) :: t)
    /\ (forall k text p,
          find text (Template.token k) 0 = None ->
          ReplaceString text (Template.token k)
            (Template.value (angle_literal W) (to_int (N / 2)) p k)
          = Some text)
    /\ ((forall k, find src (Template.token k) 0 = None) ->
        forall p,
          Template.instantiate (angle_literal W) src (to_int (N / 2)) p
          = Some src).
Proof.
  intros W src N fuel s. split; [|split].
  - destruct (instantiate_total (angle_literal W) src (to_int (N / 2)) 1)
      as [text Htext].
    exists text. split; [assumption|].
    now apply ScopedKernel_loop_first_call.
  - intros k text p H. now apply ReplaceString_absent.
  - intros H p. unfold Template.instantiate.
    pose proof (H Template.MINUS_PI_over_N_GLOBAL_BUTTERFLIES) as H1.
    pose proof (H Template.N_GLOBAL_BUTTERFLIES) as H2.
    pose proof (H Template.LOG2_N_GLOBAL_BUTTERFLIES) as H3.
    pose proof (H Template.N_LOCAL_BUTTERFLIES) as H4.
    cbn [Template.token] in H1, H2, H3, H4.
    rewrite (ReplaceString_absent _ _ _ H1), (ReplaceString_absent _ _ _ H2),
      (ReplaceString_absent _ _ _ H3).
    now apply ReplaceString_absent.
Qed.

(** C7 as stated fails: the per-thread placeholder does not occur in
    [template_without_local], yet the instantiator returns source text,
    with the other three substitutions made, and the constructor compiles
    it and accepts the configuration; no error is signalled. *)
Lemma missing_placeholder_goes_unnoticed :
  find Sample.template_without_local
    (Template.token Template.N_LOCAL_BUTTERFLIES) 0 = None
  /\ Template.instantiate Sample.angle
       Sample.template_without_local 4 1
     = Some (lit "#define A -0x1.921fb6p-1
#define N 4
#define LOG2N 2
")
  /\ fst (ScopedKernel_ctor 3
            (Sample.world Sample.template_without_local 256 4096 0 0)
            Sample.template_without_local 8 initial)
     = Ok {| program := 0; kernel := 2; nButterfliesPerThread := 1 |}
  /\ nth_error
       (trace (snd (ScopedKernel_ctor 3
                      (Sample.world Sample.template_without_local 256 4096 0 0)
                      Sample.template_without_local 8 initial))) 0
     = Some (Call (clCreateProgramWithSource (lit "#define A -0x1.921fb6p-1
#define N 4
#define LOG2N 2
"))
               {| ret := CL_SUCCESS; out := 0; data_out := [] |}).
Proof. vm_compute. repeat split; reflexivity. Qed.

End ProberFacts.

(** ** Floating point: sums and the mean of integers below 2^53 *)

Section FloatFacts.
Import SpecFloat Mach FP FPView Obs.

Lemma digits2_pos_size m : digits2_pos m = Pos.size m.
Proof. induction m; simpl; congruence. Qed.

Lemma Zdigits_bounds m :
  2 ^ (Zpos (digits2_pos m) - 1) <= Zpos m < 2 ^ Zpos (digits2_pos m).
Proof.
  rewrite digits2_pos_size. split.
  - pose proof (Pos.size_le m) as H.
    assert (2 ^ Z.pos (Pos.size m) <= 2 * Z.pos m).
    { change (2 * Z.pos m) with (Z.pos m~0). rewrite <- Pos2Z.inj_pow.
      apply Pos2Z.pos_le_pos. exact H. }
    replace (Z.pos (Pos.size m)) with (Z.succ (Z.pos (Pos.size m) - 1)) in H0 by lia.
    rewrite Z.pow_succ_r in H0 by lia. lia.
  - pose proof (Pos.size_gt m) as H. rewrite <- Pos2Z.inj_pow.
    apply Pos2Z.pos_lt_pos. exact H.
Qed.

Lemma Zdigits_unique m d :
  2 ^ (d - 1) <= Zpos m < 2 ^ d -> Zpos (digits2_pos m) = d.
Proof.
  intros [H1 H2]. pose proof (Zdigits_bounds m) as [H3 H4].
  set (D := Zpos (digits2_pos m)) in *.
  assert (0 < D) by (unfold D; lia).
  assert (0 < d).
  { destruct (Z.ltb_spec 0 d); [assumption|]. exfalso.
    assert (2 ^ d <= 1).
    { destruct (Z.eq_dec d 0) as [->|]; [simpl; lia|].
      rewrite Z.pow_neg_r by lia. lia. }
    lia. }
  destruct (Z.lt_trichotomy D d) as [Hlt|[Heq|Hgt]]; [|assumption|]; exfalso.
  - assert (2 ^ D <= 2 ^ (d - 1)) by (apply Z.pow_le_mono_r; lia). lia.
  - assert (2 ^ d <= 2 ^ (D - 1)) by (apply Z.pow_le_mono_r; lia). lia.
Qed.

Lemma iter_pos_nat {A} (f : A -> A) n x :
  iter_pos f n x = Nat.iter (Pos.to_nat n) f x.
Proof.
  revert x. induction n as [n IH|n IH|]; intros x; cbn [iter_pos].
  - rewrite !IH. rewrite Pos2Nat.inj_xI.
    replace (S (2 * Pos.to_nat n))%nat with (Pos.to_nat n + (Pos.to_nat n + 1))%nat by lia.
    rewrite !Nat.iter_add. simpl. reflexivity.
  - rewrite !IH. rewrite Pos2Nat.inj_xO.
    replace (2 * Pos.to_nat n)%nat with (Pos.to_nat n + Pos.to_nat n)%nat by lia.
    rewrite Nat.iter_add. reflexivity.
  - reflexivity.
Qed.

Lemma Pos_iter_xO m d : Zpos (Pos.iter xO m d) = Zpos m * 2 ^ Zpos d.
Proof.
  rewrite <- Z.shiftl_mul_pow2 by lia. simpl Z.shiftl.
  revert m. induction d using Pos.peano_ind; intros m.
  - reflexivity.
  - rewrite !Pos.iter_succ. rewrite <- IHd. reflexivity.
Qed.

Lemma shr_1_double x : 0 < x -> shr_1 (rec0 (2 * x)) = rec0 x.
Proof. destruct x; try lia. intros _. reflexivity. Qed.

Lemma shr_iter_exact n : forall x, 0 < x ->
  Nat.iter n shr_1 (rec0 (x * 2 ^ Z.of_nat n)) = rec0 x.
Proof.
  induction n as [|n IH]; intros x Hx.
  - simpl. now rewrite Z.mul_1_r.
  - rewrite Nat2Z.inj_succ, Z.pow_succ_r by lia.
    replace (x * (2 * 2 ^ Z.of_nat n)) with ((2 * x) * 2 ^ Z.of_nat n) by ring.
    rewrite Nat.iter_succ, IH by lia. now apply shr_1_double.
Qed.

Lemma fexp_normal x : -1021 <= x -> fexp 53 1024 x = x - 53.
Proof. intros H. unfold fexp, emin. lia. Qed.

Lemma binary_round_aux_finish sx mx ex lx :
  binary_round_aux 53 1024 sx mx ex lx =
  let '(mrs, e) := shr_fexp 53 1024 mx ex lx in
  finish sx (round_nearest_even (shr_m mrs) (loc_of_shr_record mrs)) e.
Proof. reflexivity. Qed.

(** Shifting right by [n] bits a mantissa of [53 + n] bits that ends in
    [n] zeros. *)
Lemma shr_fexp_exact (M : positive) (x e n : Z) :
  Zpos M = x * 2 ^ n -> 0 <= n -> 2 ^ 52 <= x < 2 ^ 53 -> -1074 <= e + n ->
  shr_fexp 53 1024 (Zpos M) e loc_Exact = (rec0 x, e + n).
Proof.
  intros HM Hn Hx He. unfold shr_fexp. cbn [Zdigits2 shr_record_of_loc].
  assert (HD : Zpos (digits2_pos M) = 53 + n).
  { apply Zdigits_unique. rewrite HM.
    replace (53 + n - 1) with (52 + n) by lia. rewrite !Z.pow_add_r by lia.
    assert (0 < 2 ^ n) by (apply Z.pow_pos_nonneg; lia). nia. }
  rewrite HD, fexp_normal by lia.
  replace (53 + n + e - 53 - e) with n by lia.
  destruct n as [|p|p]; try lia.
  - unfold shr. rewrite Z.mul_1_r in HM. rewrite HM, Z.add_0_r. reflexivity.
  - unfold shr. f_equal. rewrite iter_pos_nat. rewrite HM.
    rewrite <- (positive_nat_Z p). apply shr_iter_exact. lia.
Qed.

Lemma finish_exact sx (M : positive) (x e n : Z) :
  Zpos M = x * 2 ^ n -> 0 <= n -> 2 ^ 52 <= x < 2 ^ 53 ->
  -1074 <= e + n <= 971 ->
  finish sx (Zpos M) e = S754_finite sx (Z.to_pos x) (e + n).
Proof.
  intros HM Hn Hx He. unfold finish.
  rewrite (shr_fexp_exact M x e n) by (assumption || lia).
  cbn [shr_m rec0]. destruct x as [|px|px]; try lia.
  replace (e + n <=? 1024 - 53) with true by (symmetry; apply Z.leb_le; lia).
  reflexivity.
Qed.

Lemma binary_round_aux_exact sx (M : positive) (x e n : Z) :
  Zpos M = x * 2 ^ n -> 0 <= n -> 2 ^ 52 <= x < 2 ^ 53 ->
  -1074 <= e + n <= 971 ->
  binary_round_aux 53 1024 sx (Zpos M) e loc_Exact
  = S754_finite sx (Z.to_pos x) (e + n).
Proof.
  intros HM Hn Hx He. rewrite binary_round_aux_finish.
  rewrite (shr_fexp_exact M x e n) by (assumption || lia).
  cbn [rec0 shr_m loc_of_shr_record round_nearest_even].
  destruct x as [|px|px] eqn:Ex; try lia.
  rewrite (finish_exact sx px (Zpos px) (e + n) 0); try lia.
  now rewrite Z.add_0_r.
Qed.

(** Normalising an integer below 2^53 written with [t] trailing zeros. *)
Lemma binary_normalize_exact k t :
  0 < k < 2 ^ 53 -> 0 <= t ->
  binary_normalize 53 1024 (k * 2 ^ t) (- t) false = canon k.
Proof.
  intros Hk Ht.
  assert (Hlog : 0 <= Z.log2 k < 53).
  { split; [apply Z.log2_nonneg|]. apply Z.log2_lt_pow2; lia. }
  pose proof (Z.log2_spec k ltac:(lia)) as Hspec.
  assert (H2t : 0 < 2 ^ t) by (apply Z.pow_pos_nonneg; lia).
  destruct (k * 2 ^ t) as [|M|M] eqn:HM; try nia.
  cbn [binary_normalize]. unfold binary_round.
  assert (HD : Zpos (digits2_pos M) = Z.log2 k + 1 + t).
  { apply Zdigits_unique. rewrite <- HM.
    replace (Z.log2 k + 1 + t - 1) with (Z.log2 k + t) by lia.
    rewrite !Z.pow_add_r by lia. rewrite Z.pow_succ_r in Hspec by lia.
    change (2 ^ 1) with 2. nia. }
  rewrite HD, fexp_normal by lia.
  set (x := k * 2 ^ (52 - Z.log2 k)).
  assert (Hx : 2 ^ 52 <= x < 2 ^ 53).
  { unfold x. rewrite Z.pow_succ_r in Hspec by lia.
    replace (2 ^ 52) with (2 ^ Z.log2 k * 2 ^ (52 - Z.log2 k))
      by (rewrite <- Z.pow_add_r by lia; f_equal; lia).
    replace (2 ^ 53) with (2 * 2 ^ Z.log2 k * 2 ^ (52 - Z.log2 k)).
    2:{ rewrite <- Z.mul_assoc, <- Z.pow_add_r by lia.
        rewrite <- Z.pow_succ_r by lia. f_equal. lia. }
    assert (0 < 2 ^ (52 - Z.log2 k)) by (apply Z.pow_pos_nonneg; lia). nia. }
  unfold shl_align.
  replace (Z.log2 k + 1 + t + - t - 53 - - t) with (Z.log2 k + t - 52) by lia.
  unfold canon. fold x.
  destruct (Z.log2 k + t - 52) as [|d|d] eqn:Hd.
  - rewrite (binary_round_aux_exact false M x (- t) 0); try lia.
    + f_equal. lia.
    + rewrite <- HM. unfold x. replace (52 - Z.log2 k) with t by lia. ring.
  - rewrite (binary_round_aux_exact false M x (- t) (Zpos d)); try lia.
    + f_equal. lia.
    + rewrite <- HM, <- Hd. unfold x. rewrite <- Z.mul_assoc.
      rewrite <- Z.pow_add_r by lia. do 2 f_equal. lia.
  - rewrite (binary_round_aux_exact false (Pos.iter xO M d) x
               (Z.log2 k + 1 + t + - t - 53) 0); try lia.
    + f_equal. lia.
    + rewrite Pos_iter_xO, <- HM, Z.mul_1_r. unfold x.
      rewrite <- Z.mul_assoc, <- Z.pow_add_r by lia. do 2 f_equal. lia.
Qed.

Lemma double_of_Z_canon k : 0 < k < 2 ^ 53 -> double_of_Z k = canon k.
Proof.
  intros Hk. unfold double_of_Z.
  rewrite <- (binary_normalize_exact k 0) by lia.
  now rewrite Z.mul_1_r.
Qed.

Lemma canon_mantissa k :
  0 < k < 2 ^ 53 ->
  Zpos (Z.to_pos (k * 2 ^ (52 - Z.log2 k))) = k * 2 ^ (52 - Z.log2 k)
  /\ 0 <= 52 - Z.log2 k <= 52.
Proof.
  intros Hk.
  assert (Hlog : 0 <= Z.log2 k < 53).
  { split; [apply Z.log2_nonneg|]. apply Z.log2_lt_pow2; lia. }
  split; [|lia].
  assert (0 < 2 ^ (52 - Z.log2 k)) by (apply Z.pow_pos_nonneg; lia).
  rewrite Z2Pos.id; nia.
Qed.

Lemma shl_align_value m e e' :
  e' <= e -> Zpos (fst (shl_align m e e')) = Zpos m * 2 ^ (e - e').
Proof.
  intros H. unfold shl_align.
  destruct (e' - e) as [|d|d] eqn:Hd; cbn [fst]; try lia.
  - replace (e - e') with 0 by lia. now rewrite Z.mul_1_r.
  - rewrite Pos_iter_xO. do 2 f_equal. lia.
Qed.

Lemma double_add_canon a b :
  0 < a -> 0 < b -> a + b < 2 ^ 53 ->
  double_add (canon a) (canon b) = canon (a + b).
Proof.
  intros Ha Hb Hab. unfold double_add, canon. cbn [SFadd cond_Zopp].
  destruct (canon_mantissa a ltac:(lia)) as [Hma Hra].
  destruct (canon_mantissa b ltac:(lia)) as [Hmb Hrb].
  set (ez := Z.min (Z.log2 a - 52) (Z.log2 b - 52)).
  rewrite !shl_align_value by (unfold ez; lia).
  rewrite Hma, Hmb.
  rewrite <- !Z.mul_assoc, <- !Z.pow_add_r by (unfold ez; lia).
  replace (52 - Z.log2 a + (Z.log2 a - 52 - ez)) with (- ez) by lia.
  replace (52 - Z.log2 b + (Z.log2 b - 52 - ez)) with (- ez) by lia.
  rewrite <- Z.mul_add_distr_r.
  assert (Hez : ez <= 0) by (unfold ez; lia).
  set (t := - ez) in *. replace ez with (- t) by (unfold t; lia).
  apply binary_normalize_exact; [lia|unfold t; lia].
Qed.

Lemma double_add_exact a b :
  0 <= a -> 0 <= b -> a + b < 2 ^ 53 ->
  double_add (double_of_Z a) (double_of_Z b) = double_of_Z (a + b).
Proof.
  intros Ha Hb Hab.
  destruct (Z.eq_dec a 0) as [->|Ha0]; destruct (Z.eq_dec b 0) as [->|Hb0].
  - reflexivity.
  - rewrite Z.add_0_l. rewrite (double_of_Z_canon b) by lia. reflexivity.
  - rewrite Z.add_0_r. rewrite (double_of_Z_canon a) by lia. reflexivity.
  - rewrite !double_of_Z_canon by lia. apply double_add_canon; lia.
Qed.

Lemma finish_near m e :
  2 ^ 52 <= m <= 2 ^ 53 -> -1074 <= e <= 970 ->
  exists mf ef,
    finish false m e = S754_finite false mf ef
    /\ e <= ef <= e + 1 /\ Zpos mf * 2 ^ (ef - e) = m.
Proof.
  intros Hm He. destruct m as [|M|M] eqn:EM; try lia.
  destruct (Z.eq_dec (Zpos M) (2 ^ 53)) as [Heq|Hne].
  - exists (Z.to_pos (2 ^ 52)), (e + 1).
    rewrite (finish_exact false M (2 ^ 52) e 1); try lia.
    repeat split; try lia.
    replace (e + 1 - e) with 1 by lia. rewrite Heq. reflexivity.
  - exists M, e.
    rewrite (finish_exact false M (Zpos M) e 0); try lia.
    rewrite Z.add_0_r, Z.sub_diag. repeat split; lia.
Qed.

Lemma loc_of_record_of_loc m l :
  loc_of_shr_record (shr_record_of_loc m l) = l
  /\ shr_m (shr_record_of_loc m l) = m.
Proof. destruct l as [|[]]; split; reflexivity. Qed.

Lemma round_nearest_even_near m l :
  m <= round_nearest_even m l <= m + 1.
Proof.
  destruct l as [|[]]; cbn [round_nearest_even]; try lia.
  destruct (Z.even m); lia.
Qed.

(** Rounding a quotient of 53 or 54 bits moves it by at most one unit of
    its last place. *)
Lemma binary_round_aux_near q e lz :
  2 ^ 52 <= q < 2 ^ 54 -> -1074 <= e <= 969 ->
  exists mf ef,
    binary_round_aux 53 1024 false q e lz = S754_finite false mf ef
    /\ e <= ef <= e + 2
    /\ q - 1 <= Zpos mf * 2 ^ (ef - e) <= q + 1
    /\ (Zpos mf * 2 ^ (ef - e) = q - 1 -> Z.odd q = true).
Proof.
  intros Hq He. rewrite binary_round_aux_finish. unfold shr_fexp.
  destruct q as [|Q|Q] eqn:EQ; try lia. cbn [Zdigits2].
  destruct (Z.ltb_spec (Zpos Q) (2 ^ 53)) as [Hlt|Hge].
  - rewrite (Zdigits_unique Q 53) by (change (53 - 1) with 52; lia).
    rewrite fexp_normal by lia.
    replace (53 + e - 53 - e) with 0 by lia. cbn [shr].
    destruct (loc_of_record_of_loc (Zpos Q) lz) as [-> ->].
    pose proof (round_nearest_even_near (Zpos Q) lz) as Hr.
    destruct (finish_near (round_nearest_even (Zpos Q) lz) e) as
      [mf [ef [Hf [Hef HV]]]]; try lia.
    exists mf, ef. rewrite Hf. repeat split; try lia.
  - rewrite (Zdigits_unique Q 54) by (change (54 - 1) with 53; lia).
    rewrite fexp_normal by lia.
    replace (54 + e - 53 - e) with 1 by lia. cbn [shr iter_pos].
    destruct Q as [p|p|]; try lia.
    + (* odd quotient *)
      assert (Hp : 2 ^ 52 <= Zpos p < 2 ^ 53) by lia.
      set (mrs := shr_1 (shr_record_of_loc (Zpos p~1) lz)).
      assert (Hm : shr_m mrs = Zpos p) by (destruct lz as [|[]]; reflexivity).
      rewrite Hm.
      pose proof (round_nearest_even_near (Zpos p) (loc_of_shr_record mrs)) as Hr.
      destruct (finish_near (round_nearest_even (Zpos p) (loc_of_shr_record mrs))
                  (e + 1)) as [mf [ef [Hf [Hef HV]]]]; try lia.
      exists mf, ef. rewrite Hf.
      assert (HV' : Zpos mf * 2 ^ (ef - e)
                    = 2 * round_nearest_even (Zpos p) (loc_of_shr_record mrs)).
      { rewrite <- HV. replace (ef - e) with (ef - (e + 1) + 1) by lia.
        rewrite Z.pow_add_r by lia. change (2 ^ 1) with 2. ring. }
      repeat split; try lia. 
    + (* even quotient *)
      assert (Hp : 2 ^ 52 <= Zpos p < 2 ^ 53) by lia.
      set (mrs := shr_1 (shr_record_of_loc (Zpos p~0) lz)).
      assert (Hm : shr_m mrs = Zpos p /\ shr_r mrs = false)
        by (destruct lz as [|[]]; split; reflexivity).
      destruct Hm as [Hm Hrb]. rewrite Hm.
      assert (Hr : round_nearest_even (Zpos p) (loc_of_shr_record mrs) = Zpos p).
      { destruct mrs as [m r s]. cbn in Hrb. subst r.
        destruct s; reflexivity. }
      rewrite Hr.
      destruct (finish_near (Zpos p) (e + 1)) as [mf [ef [Hf [Hef HV]]]];
        try lia.
      exists mf, ef. rewrite Hf.
      assert (HV' : Zpos mf * 2 ^ (ef - e) = 2 * Zpos p).
      { rewrite <- HV. replace (ef - e) with (ef - (e + 1) + 1) by lia.
        rewrite Z.pow_add_r by lia. change (2 ^ 1) with 2. ring. }
      repeat split; try lia.
Qed.

Lemma canon_3000 : double_of_Z 3000 = S754_finite false 6597069766656000 (-41).
Proof. reflexivity. Qed.

(** The quotient of an integer below 2^53 by 3000, truncated. *)
Lemma double_div_3000_trunc S :
  0 <= S < 2 ^ 53 -> S / 3000 <= INT_MAX ->
  double_to_int (double_div (double_of_Z S) (double_of_Z 3000))
  = Some (S / 3000).
Proof.
  intros HS Hmax.
  destruct (Z.eq_dec S 0) as [->|HS0]; [reflexivity|].
  rewrite (double_of_Z_canon S) by lia. rewrite canon_3000.
  destruct (canon_mantissa S ltac:(lia)) as [Hm1 Hr1].
  pose proof (Z.log2_spec S ltac:(lia)) as Hspec.
  rewrite Z.pow_succ_r in Hspec by lia.
  set (L := Z.log2 S) in *.
  set (P := 2 ^ (64 - L)).
  assert (HP : 4096 <= P).
  { unfold P. change 4096 with (2 ^ 12). apply Z.pow_le_mono_r; lia. }
  assert (HPeven : P = 2 * 2 ^ (63 - L)).
  { unfold P. rewrite <- Z.pow_succ_r by lia. f_equal. lia. }
  assert (HSP : 2 ^ 64 <= S * P < 2 ^ 65).
  { unfold P.
    replace (2 ^ 64) with (2 ^ L * 2 ^ (64 - L))
      by (rewrite <- Z.pow_add_r by lia; f_equal; lia).
    replace (2 ^ 65) with (2 * 2 ^ L * 2 ^ (64 - L)).
    2:{ rewrite <- Z.mul_assoc, <- Z.pow_add_r by lia.
        rewrite <- Z.pow_succ_r by lia. f_equal. lia. }
    assert (0 < 2 ^ (64 - L)) by (apply Z.pow_pos_nonneg; lia). nia. }
  unfold canon. fold L. unfold double_div. cbn [SFdiv xorb].
  set (m1 := Z.to_pos (S * 2 ^ (52 - L))) in *.
  assert (Hd1 : Zpos (digits2_pos m1) = 53).
  { apply Zdigits_unique. rewrite Hm1. change (53 - 1) with 52.
    replace (2 ^ 52) with (2 ^ L * 2 ^ (52 - L))
      by (rewrite <- Z.pow_add_r by lia; f_equal; lia).
    replace (2 ^ 53) with (2 * 2 ^ L * 2 ^ (52 - L)).
    2:{ rewrite <- Z.mul_assoc, <- Z.pow_add_r by lia.
        rewrite <- Z.pow_succ_r by lia. f_equal. lia. }
    assert (0 < 2 ^ (52 - L)) by (apply Z.pow_pos_nonneg; lia). nia. }
  unfold SFdiv_core_binary. cbn [Zdigits2]. rewrite Hd1.
  change (Zpos (digits2_pos 6597069766656000)) with 53.
  rewrite fexp_normal by lia.
  replace (Z.min (53 + (L - 52) - (53 + -41) - 53) (L - 52 - -41))
    with (L - 64) by lia.
  replace (L - 52 - -41 - (L - 64)) with 53 by lia.
  rewrite Z.shiftl_mul_pow2 by lia. rewrite Hm1.
  assert (Hnum : S * 2 ^ (52 - L) * 2 ^ 53 = (S * P) * 2 ^ 41).
  { unfold P. rewrite <- !Z.mul_assoc. f_equal.
    rewrite <- !Z.pow_add_r by lia. f_equal. lia. }
  rewrite Hnum. change (Z.pos 6597069766656000) with (3000 * 2 ^ 41).
  pose proof (Z.div_eucl_eq (S * P * 2 ^ 41) (3000 * 2 ^ 41) ltac:(lia)) as Heucl.
  pose proof (Z.mod_pos_bound (S * P * 2 ^ 41) (3000 * 2 ^ 41) ltac:(lia)) as Hmod.
  unfold Z.modulo in Hmod.
  assert (Hq : fst (Z.div_eucl (S * P * 2 ^ 41) (3000 * 2 ^ 41)) = S * P / 3000).
  { change (fst (Z.div_eucl ?a ?b)) with (a / b).
    apply Z.div_mul_cancel_r; lia. }
  destruct (Z.div_eucl (S * P * 2 ^ 41) (3000 * 2 ^ 41)) as [q r].
  cbn [fst] in Hq. clear Heucl Hmod.
  set (K := S / 3000) in *.
  assert (HK : 3000 * K <= S < 3000 * K + 3000).
  { unfold K. pose proof (Z.mul_div_le S 3000 ltac:(lia)).
    pose proof (Z.mul_succ_div_gt S 3000 ltac:(lia)). lia. }
  assert (Hq1 : K * P <= q).
  { rewrite Hq. apply Z.div_le_lower_bound; nia. }
  assert (Hq2 : q + 1 < (K + 1) * P).
  { assert (3000 * q <= S * P)
      by (rewrite Hq; apply Z.mul_div_le; lia).
    nia. }
  assert (Hq3 : 2 ^ 52 <= q < 2 ^ 54).
  { rewrite Hq. split.
    - apply Z.div_le_lower_bound; lia.
    - apply Z.div_lt_upper_bound; lia. }
  destruct (binary_round_aux_near q (L - 64) (new_location (3000 * 2 ^ 41) r))
    as [mf [ef [Hf [Hef [HV Hodd]]]]]; try lia.
  rewrite Hf. cbn [double_to_int cond_Zopp].
  set (V := Zpos mf * 2 ^ (ef - (L - 64))) in *.
  assert (HVK : K * P <= V < (K + 1) * P).
  { split; [|lia].
    destruct (Z.eq_dec V (q - 1)) as [E|E]; [|lia].
    specialize (Hodd E). rewrite Z.odd_spec in Hodd.
    destruct Hodd as [j Hj]. rewrite HPeven in *. nia. }
  assert (Hz : Z.shiftl (Zpos mf) ef = K).
  { rewrite <- (Z.opp_involutive ef), Z.shiftl_opp_r.
    rewrite Z.shiftr_div_pow2 by lia.
    assert (HPdec : P = 2 ^ (ef - (L - 64)) * 2 ^ (- ef)).
    { unfold P. rewrite <- Z.pow_add_r by lia. f_equal. lia. }
    assert (0 < 2 ^ (- ef)) by (apply Z.pow_pos_nonneg; lia).
    assert (0 < 2 ^ (ef - (L - 64))) by (apply Z.pow_pos_nonneg; lia).
    symmetry. apply Z.div_unique with (Zpos mf - 2 ^ (- ef) * K); [|ring].
    left. unfold V in HVK. rewrite HPdec in HVK. nia. }
  rewrite Hz. unfold in_int.
  replace (INT_MIN <=? K) with true
    by (symmetry; apply Z.leb_le; unfold INT_MIN; lia).
  replace (K <=? INT_MAX) with true by (symmetry; apply Z.leb_le; lia).
  reflexivity.
Qed.

Lemma accumulate_exact ds :
  forall a,
    0 <= a -> Forall (fun d => 0 <= d) ds -> a + total ds < 2 ^ 53 ->
    accumulate (double_of_Z a) ds = double_of_Z (a + total ds).
Proof.
  induction ds as [|d ds IH]; intros a Ha Hds Hsum.
  - cbn [accumulate fold_left total fold_right]. now rewrite Z.add_0_r.
  - inversion Hds as [|? ? Hd Hds']; subst.
    cbn [total fold_right] in Hsum. fold (total ds) in Hsum.
    assert (0 <= total ds).
    { clear -Hds'. induction Hds' as [|x l Hx _ IHl]; cbn [total fold_right];
        [lia|]. fold (total l). lia. }
    unfold accumulate. cbn [fold_left]. fold (accumulate (double_add (double_of_Z a) (double_of_Z d)) ds).
    unfold double_add at 1. rewrite double_add_exact by lia.
    rewrite IH by (assumption || lia).
    cbn [total fold_right]. fold (total ds). f_equal. ring.
Qed.

(** The average printed for durations whose mean fits an [int]: the sum
    is exact in [double], and so is the truncated quotient. *)
Lemma avg_kernel_duration_exact ds :
  Forall (fun d => 0 <= d) ds ->
  total ds / 3000 <= INT_MAX ->
  Prog.avg_kernel_duration (accumulate double_zero ds)
  = Some (total ds / 3000 / 1000)
  /\ 0 <= total ds / 3000 / 1000.
Proof.
  intros Hds Hmax.
  assert (H0 : 0 <= total ds).
  { clear -Hds. induction Hds as [|x l Hx _ IHl]; cbn [total fold_right];
      [lia|]. fold (total l). lia. }
  assert (Hlt : total ds < 2 ^ 53).
  { pose proof (Z.mul_succ_div_gt (total ds) 3000 ltac:(lia)).
    unfold INT_MAX in Hmax. lia. }
  change double_zero with (double_of_Z 0).
  rewrite accumulate_exact by (assumption || lia). rewrite Z.add_0_l.
  unfold Prog.avg_kernel_duration, Prog.nIterations.
  unfold FP.double_div. rewrite double_div_3000_trunc by (assumption || lia).
  assert (0 <= total ds / 3000) by (apply Z.div_pos; lia).
  rewrite Z.quot_div_nonneg by lia.
  split; [reflexivity|]. apply Z.div_pos; lia.
Qed.

End FloatFacts.

(** ** [withInput] *)

Section WithInputFacts.
Import Mach FP CL Obs Prog.

(** The benchmark loop when it runs to its end: [n] executions, each with
    its two timestamps, and the durations of all but the first
    [nSkipIterations - i] of them added to [elapsed]. *)
Lemma benchmark_loop_inv W kernel g l :
  forall n i elapsed s elapsed' s',
    benchmark_loop n W kernel g l i elapsed s = (Ok elapsed', s') ->
    exists evs,
      trace s' = trace s ++ evs
      /\ elapsed' = accumulate elapsed
                      (skipn (Z.to_nat (nSkipIterations - i)) (durations evs))
      /\ length (filter is_enqueue evs) = n
      /\ length (time_starts evs) = n
      /\ length (time_ends evs) = n
      /\ forallb is_benchmark_event evs = true.
Proof.
  induction n as [|n IH]; intros i elapsed s elapsed' s' Hrun.
  - exists []. injection Hrun as <- <-.
    rewrite app_nil_r, skipn_nil. repeat split; reflexivity.
  - cbn [benchmark_loop] in Hrun.
    rewrite bind_call, bind_CHECK in Hrun.
    destruct (_ =? CL_SUCCESS); [|discriminate].
    rewrite bind_call, bind_CHECK in Hrun.
    destruct (_ =? CL_SUCCESS); [|discriminate].
    rewrite bind_call, bind_CHECK in Hrun.
    destruct (_ =? CL_SUCCESS); [|discriminate].
    rewrite bind_call, bind_CHECK in Hrun.
    destruct (_ =? CL_SUCCESS); [|discriminate].
    apply IH in Hrun as [evs [Ht [Hel [H1 [H2 [H3 H4]]]]]].
    cbn [after_call trace ncalls] in Ht. rewrite <- !app_assoc in Ht.
    cbn [app] in Ht.
    eexists (_ :: _ :: _ :: _ :: evs). split; [exact Ht|].
    cbn [filter is_enqueue length time_starts time_ends flat_map
           app forallb is_benchmark_event andb].
    fold (time_starts evs). fold (time_ends evs).
    rewrite H1, H2, H3, H4. repeat split; try reflexivity.
    rewrite Hel. unfold durations.
    cbn [time_starts time_ends flat_map app combine map fst snd].
    fold (time_starts evs). fold (time_ends evs).
    destruct (Z.leb_spec nSkipIterations i) as [Hle|Hlt].
    + replace (Z.to_nat (nSkipIterations - (i + 1))) with 0%nat by lia.
      replace (Z.to_nat (nSkipIterations - i)) with 0%nat by lia.
      reflexivity.
    + replace (Z.to_nat (nSkipIterations - i))
        with (S (Z.to_nat (nSkipIterations - (i + 1)))) by lia.
      reflexivity.
Qed.

(** The two expressions for the local-memory size agree once
    [sizeof(output[0]) == 2*sizeof(float)] has been verified. *)
Lemma local_memory_argument W size :
  sizeof_complex_float W = 2 * sizeof_float W ->
  to_size_t (to_size_t (to_size_t (2 * sizeof_float W) * 2) * size)
  = local_memory_needed W size.
Proof.
  intros H. unfold local_memory_needed, to_size_t. rewrite H.
  assert (HM : size_t_mod <> 0) by (unfold size_t_mod; lia).
  rewrite (Z.mul_mod_idemp_l (2 * size)) by assumption.
  rewrite (Z.mul_mod_idemp_l _ size) by assumption.
  rewrite <- Z.mul_assoc, Z.mul_mod_idemp_l by assumption.
  f_equal. ring.
Qed.

Lemma benchmark_events_only evs :
  forallb is_benchmark_event evs = true ->
  reported_averages evs = [] /\ comparisons evs = []
  /\ forallb (fun e => negb (is_create_image e)) evs = true.
Proof.
  induction evs as [|e evs IH]; [now repeat split|].
  cbn [forallb]. intros H. apply andb_prop in H as [He H].
  destruct (IH H) as [H1 [H2 H3]].
  destruct e as [c r|m|w eps ok]; try discriminate.
  destruct c; try discriminate; cbn; now rewrite ?H1, ?H2, ?H3.
Qed.

Lemma no_benchmark_events evs :
  forallb (fun e => negb (is_benchmark_event e)) evs = true ->
  filter is_enqueue evs = [] /\ time_starts evs = [] /\ time_ends evs = [].
Proof.
  induction evs as [|e evs IH]; [now repeat split|].
  cbn [forallb]. intros H. apply andb_prop in H as [He H].
  destruct (IH H) as [H1 [H2 H3]].
  destruct e as [c r|m|w eps ok];
    try (cbn; now rewrite ?H1, ?H2, ?H3).
  destruct c; try discriminate; cbn; now rewrite ?H1, ?H2, ?H3.
Qed.

(** A run of the part of [withInput] after the local-memory test that
    returns: the events before the benchmark loop, those of the loop, and
    those after it. *)
Lemma withInput_run_inv W kernel p input verifyResults s b s' :
  withInput_run W kernel p input verifyResults s = (Ok b, s') ->
  b = true
  /\ sizeof_complex_float W = 2 * sizeof_float W
  /\ in_int (2 * p) = true
  /\ to_size_t (2 * p) <> 0
  /\ exists pre evs post us,
      trace s' = trace s ++ pre ++ evs ++ post
      /\ forallb (fun e => negb (is_benchmark_event e)) pre = true
      /\ reported_averages pre = []
      /\ comparisons pre
         = (if verifyResults then [(check_consistency, default_epsilon)]
            else [])
      /\ (exists r,
            In (Call (clSetKernelArg kernel 2
                        (local_memory_needed W (Z.of_nat (length input)))
                        None) r) pre)
      /\ length (filter is_enqueue evs)
         = Z.to_nat (nSkipIterations + nIterations)
      /\ length (time_starts evs) = Z.to_nat (nSkipIterations + nIterations)
      /\ length (time_ends evs) = Z.to_nat (nSkipIterations + nIterations)
      /\ forallb is_benchmark_event evs = true
      /\ avg_kernel_duration
           (accumulate double_zero
              (skipn (Z.to_nat nSkipIterations) (durations evs))) = Some us
      /\ forallb (fun e => negb (is_benchmark_event e)) post = true
      /\ reported_averages post = [us]
      /\ comparisons post
         = (if verifyResults then [(check_device_result, f_0_01)] else []).
Proof.
  intros Hrun. unfold withInput_run in Hrun.
  match type of Hrun with
  | bind ?m _ _ = _ =>
      assert (Hpro : exists pro,
                 m s = (Ok tt, {| trace := trace s ++ pro;
                                  ncalls := ncalls s; ndraws := ndraws s |})
                 /\ forallb (fun e => negb (is_benchmark_event e)) pro = true
                 /\ reported_averages pro = []
                 /\ comparisons pro
                    = (if verifyResults
                       then [(check_consistency, default_epsilon)] else []))
  end.
  { destruct verifyResults.
    - eexists [_; _; _; _; _]. split.
      + cbv [bind print emit verifyVectorsAreEqual].
        cbn [trace ncalls ndraws]. now rewrite <- !app_assoc.
      + repeat split; reflexivity.
    - exists []. rewrite app_nil_r. destruct s. now repeat split. }
  destruct Hpro as [pro [Hpro [Hq1 [Hq2 Hq3]]]].
  rewrite (bind_Ok _ _ _ _ _ Hpro) in Hrun. clear Hpro.
  rewrite bind_verify, Z.eqb_refl in Hrun.
  rewrite bind_call, bind_CHECK in Hrun.
  destruct (_ =? CL_SUCCESS); [|discriminate].
  rewrite bind_verify in Hrun.
  destruct (Z.eqb_spec (sizeof_complex_float W) (2 * sizeof_float W))
    as [Hsz|]; [|discriminate].
  do 5 (rewrite bind_call, bind_CHECK in Hrun;
        destruct (_ =? CL_SUCCESS); [|discriminate]).
  destruct (in_int (2 * p)) eqn:Hint; [|discriminate].
  rewrite bind_pure in Hrun.
  destruct (Z.eqb_spec (to_size_t (2 * p)) 0) as [|Hdiv]; [discriminate|].
  rewrite bind_pure, bind_print in Hrun.
  apply bind_inv_Ok in Hrun as [elapsed [s1 [Hloop Hrun]]].
  apply benchmark_loop_inv in Hloop as [evs [Ht [Hel [H1 [H2 [H3 H4]]]]]].
  destruct (avg_kernel_duration elapsed) as [us|] eqn:Havg; [|discriminate].
  rewrite bind_print in Hrun.
  rewrite bind_call, bind_CHECK in Hrun.
  destruct (_ =? CL_SUCCESS); [|discriminate].
  match type of Hrun with
  | bind ?m _ ?s2 = _ =>
      assert (Hepi : exists epi,
                 m s2 = (Ok tt, {| trace := trace s2 ++ epi;
                                   ncalls := ncalls s2; ndraws := ndraws s2 |})
                 /\ forallb (fun e => negb (is_benchmark_event e)) epi = true
                 /\ reported_averages epi = []
                 /\ comparisons epi
                    = (if verifyResults
                       then [(check_device_result, f_0_01)] else []))
  end.
  { destruct verifyResults.
    - eexists [_; _]. split.
      + cbv [bind print emit verifyVectorsAreEqual].
        cbn [trace ncalls ndraws]. now rewrite <- !app_assoc.
      + repeat split; reflexivity.
    - exists []. rewrite app_nil_r. now repeat split. }
  destruct Hepi as [epi [Hepi [Hr1 [Hr2 Hr3]]]].
  rewrite (bind_Ok _ _ _ _ _ Hepi) in Hrun. clear Hepi.
  do 2 (rewrite bind_call, bind_CHECK in Hrun;
        destruct (_ =? CL_SUCCESS); [|discriminate]).
  injection Hrun as <- <-.
  repeat (split; [assumption || reflexivity|]).
  cbn [after_call after_emit trace ncalls ndraws] in *.
  eexists (pro ++ [_; _; _; _; _; _; _]), evs, (_ :: _ :: epi ++ [_; _]), us.
  split.
  { rewrite Ht. rewrite <- !app_assoc. cbn [app]. reflexivity. }
  unfold reported_averages, comparisons in *.
  rewrite ?forallb_app, ?flat_map_app, ?Hq1, ?Hq2, ?Hq3.
  cbn [forallb flat_map app is_benchmark_event negb andb].
  rewrite ?forallb_app, ?flat_map_app, ?Hr1, ?Hr2, ?Hr3.
  cbn [forallb flat_map app is_benchmark_event negb andb].
  rewrite ?app_nil_r.
  rewrite Hel, Z.sub_0_r in Havg.
  repeat split; try assumption; try reflexivity.
  eexists. apply in_or_app. right. do 5 right. left. f_equal. f_equal.
  now apply local_memory_argument.
Qed.

Lemma benchmark_loop_emits W kernel g l (Q : event -> Prop) :
  (forall r, Q (Call (clEnqueueNDRangeKernel kernel g l) r)) ->
  (forall ev r, Q (Call (clWaitForEvents ev) r)) ->
  (forall ev what r, Q (Call (clGetEventProfilingInfo ev what) r)) ->
  forall n i elapsed, emits (benchmark_loop n W kernel g l i elapsed) Q.
Proof.
  intros H1 H2 H3. induction n as [|n IH]; intros i elapsed;
    cbn [benchmark_loop].
  - apply emits_pure.
  - repeat first [apply IH | emits_step; auto].
Qed.

Lemma withInput_run_emits W kernel p input verifyResults :
  emits (withInput_run W kernel p input verifyResults)
    (run_event_ok W (Z.of_nat (length input)) p).
Proof.
  unfold withInput_run, verifyVectorsAreEqual, default_epsilon.
  repeat first
    [ apply benchmark_loop_emits; cbn [run_event_ok]; auto
    | emits_step; cbn [run_event_ok]; auto; try discriminate ].
  intros _.
  repeat match goal with
         | H : returns (verify _) _ |- _ => apply returns_verify in H
         end.
  split; [|reflexivity].
  apply local_memory_argument. now apply Z.eqb_eq.
Qed.

Lemma withInput_emits W kernel p input verifyResults :
  emits (withInput W kernel p input verifyResults)
    (run_event_ok W (Z.of_nat (length input)) p).
Proof.
  unfold withInput.
  repeat first [ apply withInput_run_emits
               | emits_step; cbn [run_event_ok]; auto ].
Qed.

Lemma local_memory_needed_exact W size :
  0 <= size -> 0 < sizeof_complex_float W ->
  size * sizeof_complex_float W <= PTRDIFF_MAX ->
  local_memory_needed W size = 2 * (size * sizeof_complex_float W).
Proof.
  intros H0 Hsc Hmax. unfold local_memory_needed, PTRDIFF_MAX in *.
  assert (size <= size * sizeof_complex_float W) by nia.
  rewrite (to_size_t_id (2 * size)) by (unfold size_t_mod; lia).
  rewrite to_size_t_id by (unfold size_t_mod; nia). ring.
Qed.

(** [withInput] up to its local-memory test. *)
Lemma withInput_insufficient W kernel p input verifyResults s :
  is_power_of_two (Z.of_nat (length input)) = true ->
  2 <= Z.of_nat (length input) ->
  Z.of_nat (length input) * sizeof_complex_float W <= PTRDIFF_MAX ->
  to_size_t (out (device W (ncalls s) clGetDeviceInfo_LOCAL_MEM_SIZE))
  < local_memory_needed W (Z.of_nat (length input)) ->
  withInput W kernel p input verifyResults s
  = (Ok false,
     after_emit (Cout msg_not_enough_local_memory)
       (after_call W clGetDeviceInfo_LOCAL_MEM_SIZE s)).
Proof.
  intros Hpow Hge Hmax Hlt. unfold withInput.
  rewrite bind_verify, Hpow. apply Z.leb_le in Hge. rewrite Hge.
  cbn [andb]. apply Z.ltb_ge in Hmax. rewrite Hmax, bind_pure, bind_call.
  apply Z.ltb_lt in Hlt. rewrite Hlt. reflexivity.
Qed.

Lemma withInput_sufficient W kernel p input verifyResults s :
  is_power_of_two (Z.of_nat (length input)) = true ->
  2 <= Z.of_nat (length input) ->
  Z.of_nat (length input) * sizeof_complex_float W <= PTRDIFF_MAX ->
  local_memory_needed W (Z.of_nat (length input))
  <= to_size_t (out (device W (ncalls s) clGetDeviceInfo_LOCAL_MEM_SIZE)) ->
  withInput W kernel p input verifyResults s
  = withInput_run W kernel p input verifyResults
      (after_call W clGetDeviceInfo_LOCAL_MEM_SIZE s).
Proof.
  intros Hpow Hge Hmax Hle. unfold withInput.
  rewrite bind_verify, Hpow. apply Z.leb_le in Hge. rewrite Hge.
  cbn [andb]. apply Z.ltb_ge in Hmax. rewrite Hmax, bind_pure, bind_call.
  apply Z.ltb_ge in Hle. rewrite Hle. reflexivity.
Qed.

(** Past the test, the first thing asked of the device is the input
    image, whatever the device then answers. *)
Lemma withInput_run_first_image W kernel p input verifyResults s :
  exists pro r t,
    trace (snd (withInput_run W kernel p input verifyResults s))
    = trace s ++ pro
      ++ Call (clCreateImage CL_MEM_READ_ONLY (Z.of_nat (length input))) r :: t
    /\ forallb (fun e => negb (is_create_image e)) pro = true.
Proof.
  unfold withInput_run.
  match goal with
  | |- context [bind ?m _ s] =>
      assert (Hpro : exists pro,
                 m s = (Ok tt, {| trace := trace s ++ pro;
                                  ncalls := ncalls s; ndraws := ndraws s |})
                 /\ forallb (fun e => negb (is_create_image e)) pro = true)
  end.
  { destruct verifyResults.
    - eexists [_; _; _; _; _]. split.
      + cbv [bind print emit verifyVectorsAreEqual].
        cbn [trace ncalls ndraws]. now rewrite <- !app_assoc.
      + reflexivity.
    - exists []. rewrite app_nil_r. destruct s. now split. }
  destruct Hpro as [pro [Hpro Hq]].
  rewrite (bind_Ok _ _ _ _ _ Hpro). clear Hpro.
  rewrite bind_verify, Z.eqb_refl, bind_call.
  match goal with
  | |- context [snd (?m (after_call W ?c ?s1))] =>
      assert (Hm : emits m (fun _ => True))
  end.
  { repeat first [apply benchmark_loop_emits; auto | emits_step; auto]. }
  match goal with
  | |- context [snd (?m (after_call W ?c ?s1))] =>
      destruct (Hm (after_call W c s1)) as [evs [Hevs _]]
  end.
  exists pro. eexists. exists evs. split; [|assumption].
  rewrite Hevs. cbn [after_call trace ncalls].
  rewrite <- !app_assoc. reflexivity.
Qed.

(** A run of [withInput] that returns. *)
Lemma withInput_inv W kernel p input verifyResults s b s' :
  withInput W kernel p input verifyResults s = (Ok b, s') ->
  is_power_of_two (Z.of_nat (length input)) = true
  /\ 2 <= Z.of_nat (length input)
  /\ Z.of_nat (length input) * sizeof_complex_float W <= PTRDIFF_MAX
  /\ ((b = false
       /\ to_size_t (out (device W (ncalls s) clGetDeviceInfo_LOCAL_MEM_SIZE))
          < local_memory_needed W (Z.of_nat (length input))
       /\ s' = after_emit (Cout msg_not_enough_local_memory)
                 (after_call W clGetDeviceInfo_LOCAL_MEM_SIZE s))
      \/ (b = true
          /\ local_memory_needed W (Z.of_nat (length input))
             <= to_size_t
                  (out (device W (ncalls s) clGetDeviceInfo_LOCAL_MEM_SIZE))
          /\ withInput_run W kernel p input verifyResults
               (after_call W clGetDeviceInfo_LOCAL_MEM_SIZE s)
             = (Ok true, s'))).
Proof.
  intros Hrun. unfold withInput in Hrun. rewrite bind_verify in Hrun.
  destruct (is_power_of_two _) eqn:Hpow; [|discriminate].
  destruct (Z.leb_spec 2 (Z.of_nat (length input))) as [Hge|];
    [|discriminate].
  cbn [andb] in Hrun.
  destruct (Z.ltb_spec PTRDIFF_MAX
              (Z.of_nat (length input) * sizeof_complex_float W));
    [discriminate|].
  rewrite bind_pure, bind_call in Hrun.
  repeat (split; [assumption || reflexivity|]).
  destruct (Z.ltb_spec
              (to_size_t (out (device W (ncalls s) clGetDeviceInfo_LOCAL_MEM_SIZE)))
              (local_memory_needed W (Z.of_nat (length input)))) as [Hlt|Hle].
  - left. injection Hrun as <- <-. now repeat split.
  - right. pose proof (withInput_run_inv _ _ _ _ _ _ _ _ Hrun) as [-> _].
    now repeat split.
Qed.

(** The events of any run of [withInput]: each is as [run_event_ok] says,
    and unless the local-memory test passed the device is asked nothing
    but the local-memory size. *)
Lemma withInput_events W kernel p input verifyResults s :
  exists evs,
    trace (snd (withInput W kernel p input verifyResults s)) = trace s ++ evs
    /\ Forall (run_event_ok W (Z.of_nat (length input)) p) evs
    /\ (local_memory_needed W (Z.of_nat (length input))
        <= to_size_t (out (device W (ncalls s) clGetDeviceInfo_LOCAL_MEM_SIZE))
        \/ forallb (fun e => negb (is_device_work e)) evs = true).
Proof.
  unfold withInput. rewrite bind_verify.
  destruct (is_power_of_two _ && _).
  2: { exists []. rewrite app_nil_r. now repeat split; auto. }
  destruct (PTRDIFF_MAX <? _).
  { exists []. rewrite bind_raise, app_nil_r. now repeat split; auto. }
  rewrite bind_pure, bind_call.
  destruct (Z.ltb_spec
              (to_size_t (out (device W (ncalls s) clGetDeviceInfo_LOCAL_MEM_SIZE)))
              (local_memory_needed W (Z.of_nat (length input)))) as [Hlt|Hle].
  - eexists [_; _]. split.
    + cbv [bind print emit pure after_call]. cbn [trace snd].
      now rewrite <- app_assoc.
    + split; [|now right]. repeat constructor.
  - destruct (withInput_run_emits W kernel p input verifyResults
                (after_call W clGetDeviceInfo_LOCAL_MEM_SIZE s))
      as [evs [Hevs HF]].
    eexists (_ :: evs). rewrite Hevs. cbn [after_call trace].
    rewrite <- app_assoc. split; [reflexivity|].
    split; [|now left]. constructor; [exact I|assumption].
Qed.

(** The events of a run of [withInput] that returns [true]. *)
Lemma withInput_true_events W kernel p input verifyResults s evs :
  fst (withInput W kernel p input verifyResults s) = Ok true ->
  trace (snd (withInput W kernel p input verifyResults s)) = trace s ++ evs ->
  in_int (2 * p) = true /\ to_size_t (2 * p) <> 0
  /\ (exists r,
        In (Call (clSetKernelArg kernel 2
                    (local_memory_needed W (Z.of_nat (length input))) None) r)
          evs)
  /\ length (filter is_enqueue evs) = Z.to_nat (nSkipIterations + nIterations)
  /\ length (durations evs) = Z.to_nat (nSkipIterations + nIterations)
  /\ (exists us,
        avg_kernel_duration
          (accumulate double_zero
             (skipn (Z.to_nat nSkipIterations) (durations evs))) = Some us
        /\ reported_averages evs = [us])
  /\ comparisons evs
     = (if verifyResults
        then [(check_consistency, default_epsilon);
              (check_device_result, f_0_01)]
        else []).
Proof.
  destruct (withInput W kernel p input verifyResults s) as [res s'] eqn:Hrun.
  cbn [fst snd]. intros -> Ht.
  apply withInput_inv in Hrun as [_ [_ [_ [[H _]|[_ [_ Hrun]]]]]];
    [discriminate|].
  apply withInput_run_inv in Hrun
    as [_ [_ [Hint [Hdiv [pre [bev [post [us H]]]]]]]].
  destruct H as [Ht' [Hpre [Hpa [Hpc [[r Hin] [He [Hs [Hn [Hb [Havg
                   [Hpost [Hqa Hqc]]]]]]]]]]]].
  rewrite Ht' in Ht. cbn [after_call trace] in Ht.
  rewrite <- app_assoc in Ht. apply app_inv_head in Ht. subst evs.
  destruct (no_benchmark_events _ Hpre) as [Hp1 [Hp2 Hp3]].
  destruct (no_benchmark_events _ Hpost) as [Hq1 [Hq2 Hq3]].
  destruct (benchmark_events_only _ Hb) as [Hb1 [Hb2 _]].
  assert (Hd : durations ([Call clGetDeviceInfo_LOCAL_MEM_SIZE
                             (device W (ncalls s) clGetDeviceInfo_LOCAL_MEM_SIZE)]
                          ++ pre ++ bev ++ post) = durations bev).
  { unfold durations, time_starts, time_ends in *.
    rewrite !flat_map_app, Hp2, Hp3, Hq2, Hq3. cbn [flat_map app].
    now rewrite !app_nil_r. }
  repeat split; try assumption.
  - exists r. cbn [app]. right. apply in_or_app. now left.
  - rewrite !filter_app, Hp1, Hq1. cbn [filter is_enqueue app].
    now rewrite app_nil_r.
  - rewrite Hd. unfold durations. rewrite length_map, length_combine.
    fold (time_starts bev). fold (time_ends bev). rewrite Hs, Hn. lia.
  - exists us. rewrite Hd. split; [assumption|].
    unfold reported_averages in *.
    rewrite !flat_map_app, Hpa, Hb1, Hqa. reflexivity.
  - unfold comparisons in *. rewrite !flat_map_app, Hpc, Hb2, Hqc.
    now destruct verifyResults.
Qed.

Lemma bind_call_CHECK {B} W c (f : response -> M B) s :
  all_succeed W ->
  bind (call W c) (fun r => bind (CHECK_CL_ERROR (ret r)) (fun _ => f r)) s
  = f (device W (ncalls s) c) (after_call W c s).
Proof.
  intros HW. rewrite bind_call, bind_CHECK, HW. reflexivity.
Qed.

Lemma benchmark_loop_succeeds W kernel g l :
  all_succeed W ->
  forall n i elapsed s,
  exists elapsed' s',
    benchmark_loop n W kernel g l i elapsed s = (Ok elapsed', s').
Proof.
  intros HW. induction n as [|n IH]; intros i elapsed s.
  - now exists elapsed, s.
  - cbn [benchmark_loop]. rewrite !bind_call_CHECK by assumption. apply IH.
Qed.

Lemma skipn_nonneg n (ds : list Z) :
  Forall (fun d => 0 <= d) ds -> Forall (fun d => 0 <= d) (skipn n ds).
Proof.
  intros H. apply Forall_forall. intros d Hd.
  rewrite Forall_forall in H. apply H.
  rewrite <- (firstn_skipn n ds). apply in_or_app. now right.
Qed.

Lemma durations_nonneg evs : Forall (fun d => 0 <= d) (durations evs).
Proof.
  unfold durations. apply Forall_forall. intros d Hd.
  apply in_map_iff in Hd as [[t0 t1] [<- _]].
  apply to_size_t_range.
Qed.

(** When every call succeeds, the part of [withInput] after the
    local-memory test returns [true], unless the conversion of the mean to
    [int] is undefined. *)
Lemma withInput_run_completes W kernel p input verifyResults s :
  all_succeed W ->
  sizeof_complex_float W = 2 * sizeof_float W ->
  in_int (2 * p) = true -> to_size_t (2 * p) <> 0 ->
  fst (withInput_run W kernel p input verifyResults s) = Ok true
  \/ (fst (withInput_run W kernel p input verifyResults s)
      = Err UndefinedBehaviour
      /\ exists evs,
          trace (snd (withInput_run W kernel p input verifyResults s))
          = trace s ++ evs
          /\ length (filter is_enqueue evs)
             = Z.to_nat (nSkipIterations + nIterations)
          /\ length (durations evs)
             = Z.to_nat (nSkipIterations + nIterations)
          /\ avg_kernel_duration
               (accumulate double_zero
                  (skipn (Z.to_nat nSkipIterations) (durations evs)))
             = None).
Proof.
  intros HW Hsz Hint Hdiv. unfold withInput_run.
  match goal with
  | |- context [bind ?m _ s] =>
      assert (Hpro : exists pro,
                 m s = (Ok tt, {| trace := trace s ++ pro;
                                  ncalls := ncalls s; ndraws := ndraws s |})
                 /\ forallb (fun e => negb (is_benchmark_event e)) pro = true)
  end.
  { destruct verifyResults.
    - eexists [_; _; _; _; _]. split.
      + cbv [bind print emit verifyVectorsAreEqual].
        cbn [trace ncalls ndraws]. now rewrite <- !app_assoc.
      + reflexivity.
    - exists []. rewrite app_nil_r. destruct s. now split. }
  destruct Hpro as [pro [Hpro Hq]].
  rewrite (bind_Ok _ _ _ _ _ Hpro). clear Hpro.
  rewrite bind_verify, Z.eqb_refl.
  rewrite bind_call_CHECK by assumption.
  rewrite bind_verify, Hsz, Z.eqb_refl.
  rewrite !bind_call_CHECK by assumption.
  rewrite Hint, bind_pure.
  apply Z.eqb_neq in Hdiv. rewrite Hdiv, bind_pure, bind_print.
  match goal with
  | |- context [bind (benchmark_loop ?n W kernel ?g ?l 0 double_zero) _ ?s0] =>
      destruct (benchmark_loop_succeeds W kernel g l HW n 0 double_zero s0)
        as [elapsed [s1 Hloop]];
      rewrite (bind_Ok _ _ _ _ _ Hloop);
      apply benchmark_loop_inv in Hloop as [bev [Ht [Hel [H1 [H2 [H3 H4]]]]]]
  end.
  rewrite Z.sub_0_r in Hel.
  destruct (avg_kernel_duration elapsed) as [us|] eqn:Havg.
  - left. rewrite bind_print, bind_call_CHECK by assumption.
    match goal with
    | |- context [bind ?m _ ?s2] =>
        assert (Hepi : exists s3, m s2 = (Ok tt, s3))
          by (destruct verifyResults; eexists; reflexivity)
    end.
    destruct Hepi as [s3 Hepi]. rewrite (bind_Ok _ _ _ _ _ Hepi).
    rewrite !bind_call_CHECK by assumption. reflexivity.
  - right. split; [reflexivity|]. cbn [snd raise].
    cbn [after_call after_emit trace] in Ht.
    rewrite <- !app_assoc in Ht. cbn [app] in Ht.
    eexists. split; [exact Ht|].
    destruct (no_benchmark_events _ Hq) as [Hp1 [Hp2 Hp3]].
    match goal with
    | |- context [durations (pro ++ ?l)] =>
        assert (Hd : durations (pro ++ l) = durations bev)
    end.
    { unfold durations, time_starts, time_ends in *.
      rewrite !flat_map_app, Hp2, Hp3. reflexivity. }
    rewrite Hd, filter_app, Hp1. cbn [app filter is_enqueue].
    repeat split; try assumption.
    + unfold durations. rewrite length_map, length_combine.
      fold (time_starts bev). fold (time_ends bev). rewrite H2, H3. lia.
    + now rewrite <- Hel.
Qed.

(** An input whose length is not a power of two, or is below 2, is
    rejected by the precondition check of [withInput] before anything is
    asked of the device. *)
Theorem withInput_rejects_bad_length :
  forall W kernel p input verifyResults s,
    is_power_of_two (Z.of_nat (length input))
    && (2 <=? Z.of_nat (length input)) = false ->
    withInput W kernel p input verifyResults s = (Err PreconditionFailure, s).
Proof.
  intros W kernel p input verifyResults s H. unfold withInput.
  now rewrite bind_verify, H.
Qed.

(** The theorem on an input of six elements. *)
Lemma withInput_rejects_length_6 :
  withInput Sample.large_world 7 1 (repeat (SpecFloat.S754_zero false) 6) true
    initial
  = (Err PreconditionFailure, initial).
Proof.
  apply (withInput_rejects_bad_length Sample.large_world 7 1
           (repeat (SpecFloat.S754_zero false) 6) true initial).
  reflexivity.
Defined.

(** C3, amended.  When every device call succeeds and [withInput] gets
    past its local-memory test, it enqueues exactly 3005 kernel executions
    and reads a duration for each; the durations of the 3000 executions
    after the first 5 are the ones accumulated, and provided their mean
    does not exceed [INT_MAX] nanoseconds, [withInput] returns [true] and
    prints one average: that mean, truncated to whole nanoseconds and then
    to whole microseconds, a non-negative value. *)
Theorem benchmark_reports_mean_of_measured_runs :
  forall W kernel p input verifyResults s,
    all_succeed W ->
    is_power_of_two (Z.of_nat (length input)) = true ->
    2 <= Z.of_nat (length input) ->
    Z.of_nat (length input) * sizeof_complex_float W <= PTRDIFF_MAX ->
    local_memory_needed W (Z.of_nat (length input))
    <= to_size_t (out (device W (ncalls s) clGetDeviceInfo_LOCAL_MEM_SIZE)) ->
    sizeof_complex_float W = 2 * sizeof_float W ->
    1 <= p -> 2 * p <= INT_MAX ->
    exists evs,
      trace (snd (withInput W kernel p input verifyResults s)) = trace s ++ evs
      /\ Z.of_nat (length (filter is_enqueue evs)) = 3005
      /\ Z.of_nat (length (durations evs)) = 3005
      /\ Z.of_nat (length (skipn 5 (durations evs))) = 3000
      /\ (total (skipn 5 (durations evs)) / 3000 <= INT_MAX ->
          fst (withInput W kernel p input verifyResults s) = Ok true
          /\ reported_averages evs
             = [total (skipn 5 (durations evs)) / 3000 / 1000]
          /\ 0 <= total (skipn 5 (durations evs)) / 3000 / 1000).
Proof.
  intros W kernel p input verifyResults s HW Hpow Hge Hmax Hmem Hsz Hp Hp2.
  assert (Hint : in_int (2 * p) = true).
  { unfold in_int, INT_MIN, INT_MAX in *.
    apply andb_true_intro. split; apply Z.leb_le; lia. }
  assert (Hdiv : to_size_t (2 * p) <> 0).
  { rewrite to_size_t_id; unfold size_t_mod, INT_MAX in *; lia. }
  assert (Hn : Z.of_nat (Z.to_nat (nSkipIterations + nIterations)) = 3005)
    by reflexivity.
  destruct (withInput_events W kernel p input verifyResults s)
    as [evs [Ht _]].
  exists evs. split; [assumption|].
  pose proof (withInput_sufficient W kernel p input verifyResults s
                Hpow Hge Hmax Hmem) as Hrun.
  destruct (withInput_run_completes W kernel p input verifyResults
              (after_call W clGetDeviceInfo_LOCAL_MEM_SIZE s)
              HW Hsz Hint Hdiv) as [Hok|[Herr [evr [Htr [He [Hd Havg]]]]]].
  - rewrite <- Hrun in Hok.
    destruct (withInput_true_events _ _ _ _ _ _ _ Hok Ht)
      as [_ [_ [_ [He [Hd [[us [Havg Hrep]] _]]]]]].
    rewrite He, length_skipn, Hd.
    split; [reflexivity|]. split; [reflexivity|]. split; [reflexivity|].
    intros Hbound.
    destruct (avg_kernel_duration_exact
                (skipn (Z.to_nat nSkipIterations) (durations evs))
                (skipn_nonneg _ _ (durations_nonneg evs)) Hbound)
      as [Hex Hpos].
    rewrite Hex in Havg. injection Havg as <-. now repeat split.
  - rewrite <- Hrun in Herr, Htr. rewrite Ht in Htr.
    cbn [after_call trace] in Htr. rewrite <- app_assoc in Htr.
    apply app_inv_head in Htr. subst evs.
    assert (Hd' : durations
                    ([Call clGetDeviceInfo_LOCAL_MEM_SIZE
                        (device W (ncalls s) clGetDeviceInfo_LOCAL_MEM_SIZE)]
                     ++ evr) = durations evr) by reflexivity.
    rewrite Hd'. cbn [app filter is_enqueue].
    rewrite He, length_skipn, Hd.
    split; [reflexivity|]. split; [reflexivity|]. split; [reflexivity|].
    intros Hbound.
    destruct (avg_kernel_duration_exact
                (skipn (Z.to_nat nSkipIterations) (durations evr))
                (skipn_nonneg _ _ (durations_nonneg evr)) Hbound)
      as [Hex Hpos].
    congruence.
Qed.

(** The theorem on an input of 8 elements with kernel executions of
    4500 ns: the average printed is 4 microseconds. *)
Lemma benchmark_reports_mean_at_8 :
  exists evs,
    trace (snd (withInput Sample.large_world 7 1 Sample.eight_zeros true
                  initial))
    = trace initial ++ evs
    /\ Z.of_nat (length (filter is_enqueue evs)) = 3005
    /\ Z.of_nat (length (durations evs)) = 3005
    /\ Z.of_nat (length (skipn 5 (durations evs))) = 3000
    /\ (total (skipn 5 (durations evs)) / 3000 <= INT_MAX ->
        fst (withInput Sample.large_world 7 1 Sample.eight_zeros true initial)
        = Ok true
        /\ reported_averages evs
           = [total (skipn 5 (durations evs)) / 3000 / 1000]
        /\ 0 <= total (skipn 5 (durations evs)) / 3000 / 1000).
Proof.
  apply (benchmark_reports_mean_of_measured_runs Sample.large_world 7 1
           Sample.eight_zeros true initial).
  - intros n c. destruct c; try reflexivity. destruct param; reflexivity.
  - reflexivity.
  - vm_compute. discriminate.
  - vm_compute. discriminate.
  - vm_compute. discriminate.
  - reflexivity.
  - lia.
  - unfold INT_MAX. lia.
Defined.

(** The average of 3000 durations of 4500 ns is printed as 4. *)
Lemma average_of_4500_ns :
  avg_kernel_duration (accumulate double_zero (repeat 4500 3000)) = Some 4.
Proof. vm_compute. reflexivity. Qed.

(** C3 as stated fails when the mean does not fit an [int]: on a device
    whose kernel executions take 2^32 ns each, every call succeeds and the
    benchmark loop runs, but the conversion of the mean to [int] is
    undefined and [withInput] does not come to report an average. *)
Lemma benchmark_mean_out_of_int_range :
  fst (withInput (Sample.world Sample.full_template 256 4096 0 (2 ^ 32))
         7 1 Sample.eight_zeros true initial) = Err UndefinedBehaviour
  /\ all_succeed (Sample.world Sample.full_template 256 4096 0 (2 ^ 32))
  /\ avg_kernel_duration (accumulate double_zero (repeat (2 ^ 32) 3000))
     = None
  /\ INT_MAX < total (repeat (2 ^ 32) 3000) / 3000.
Proof.
  split; [vm_compute; reflexivity|].
  split; [apply steady_device_succeeds|].
  split; vm_compute; reflexivity.
Qed.

(** C10.  In every run of [withInput] on an input of [N] elements, the
    size requested for the kernel's local-memory argument,
    [2*sizeof(float) * 2*N], equals the quantity the local-memory test
    compared with the size the device reported,
    [2 * N * sizeof(complex<float>)], and so does not exceed the reported
    size; a run that returns [true] makes that request. *)
Theorem local_memory_request_is_tested_size :
  forall W kernel p input verifyResults s,
  exists evs,
    trace (snd (withInput W kernel p input verifyResults s)) = trace s ++ evs
    /\ Forall
         (fun e =>
            forall k arg_size r,
              e = Call (clSetKernelArg k 2 arg_size None) r ->
              arg_size
              = to_size_t (to_size_t (to_size_t (2 * sizeof_float W) * 2)
                           * Z.of_nat (length input))
              /\ arg_size = local_memory_needed W (Z.of_nat (length input))
              /\ arg_size
                 <= to_size_t
                      (out (device W (ncalls s)
                              clGetDeviceInfo_LOCAL_MEM_SIZE)))
         evs
    /\ (fst (withInput W kernel p input verifyResults s) = Ok true ->
        exists r,
          In (Call (clSetKernelArg kernel 2
                      (local_memory_needed W (Z.of_nat (length input)))
                      None) r) evs).
Proof.
  intros W kernel p input verifyResults s.
  destruct (withInput_events W kernel p input verifyResults s)
    as [evs [Ht [HF Hcase]]].
  exists evs. split; [assumption|]. split.
  - rewrite Forall_forall in *. intros e He k arg_size r ->.
    specialize (HF _ He). cbn [run_event_ok] in HF.
    destruct (HF eq_refl) as [H1 H2]. repeat split; try assumption.
    destruct Hcase as [Hle|Hq].
    + now rewrite H1.
    + rewrite forallb_forall in Hq. specialize (Hq _ He). discriminate.
  - intros Hok. now apply (withInput_true_events _ _ _ _ _ _ _ Hok Ht).
Qed.

(** C2, amended.  For a per-thread butterfly count [p] with [1 <= p] and
    [2*p] in the range of [int], every kernel execution of [withInput] on
    an input of [N] elements is enqueued with the global work size
    [N / (2*p)], which is [(N/2) / p], the total butterflies divided by the
    per-thread count, and with a local size equal to it; a run that
    returns [true] enqueues 3005 of them. *)
Theorem enqueued_sizes :
  forall W kernel p input verifyResults s,
    1 <= p -> 2 * p <= INT_MAX ->
    exists evs,
      trace (snd (withInput W kernel p input verifyResults s)) = trace s ++ evs
      /\ Forall
           (fun e =>
              forall k global_item_size local_item_size r,
                e = Call (clEnqueueNDRangeKernel k global_item_size
                            local_item_size) r ->
                global_item_size = Z.of_nat (length input) / (2 * p)
                /\ global_item_size = Z.of_nat (length input) / 2 / p
                /\ local_item_size = global_item_size)
           evs
      /\ (fst (withInput W kernel p input verifyResults s) = Ok true ->
          Z.of_nat (length (filter is_enqueue evs)) = 3005).
Proof.
  intros W kernel p input verifyResults s Hp Hmax.
  destruct (withInput_events W kernel p input verifyResults s)
    as [evs [Ht [HF _]]].
  exists evs. split; [assumption|]. split.
  - rewrite Forall_forall in *. intros e He k g l r ->.
    specialize (HF _ He). cbn [run_event_ok] in HF. destruct HF as [Hg Hl].
    rewrite to_size_t_id in Hg
      by (unfold size_t_mod, INT_MAX in *; lia).
    repeat split; try assumption.
    rewrite Z.div_div by lia. assumption.
  - intros Hok.
    destruct (withInput_true_events _ _ _ _ _ _ _ Hok Ht)
      as [_ [_ [_ [Hn _]]]].
    rewrite Hn. reflexivity.
Qed.

(** The theorem on an input of 8 elements with one butterfly per thread:
    the global and local sizes are [8 / 2 = 4]. *)
Lemma enqueued_sizes_at_8 :
  exists evs,
    trace (snd (withInput (Sample.world Sample.full_template 256 4096 1000 5500)
                  7 1 Sample.eight_zeros true initial))
    = trace initial ++ evs
    /\ Forall
         (fun e =>
            forall k global_item_size local_item_size r,
              e = Call (clEnqueueNDRangeKernel k global_item_size
                          local_item_size) r ->
              global_item_size
              = Z.of_nat (length Sample.eight_zeros) / (2 * 1)
              /\ global_item_size
                 = Z.of_nat (length Sample.eight_zeros) / 2 / 1
              /\ local_item_size = global_item_size)
         evs
    /\ (fst (withInput (Sample.world Sample.full_template 256 4096 1000 5500)
               7 1 Sample.eight_zeros true initial) = Ok true ->
        Z.of_nat (length (filter is_enqueue evs)) = 3005).
Proof.
  apply (enqueued_sizes (Sample.world Sample.full_template 256 4096 1000 5500)
           7 1 Sample.eight_zeros true initial).
  - lia.
  - unfold INT_MAX. lia.
Defined.

(** C2 as stated fails: on an input of 8 elements with one butterfly per
    thread the first execution is enqueued with global and local size 4,
    not with [(8/2) / (2*1) = 2]. *)
Lemma enqueued_global_size_is_not_halved_twice :
  nth_error
    (trace (snd (withInput (Sample.world Sample.full_template 256 4096 1000 5500)
                   7 1 Sample.eight_zeros true initial))) 13
  = Some (Call (clEnqueueNDRangeKernel 7 4 4)
            {| ret := CL_SUCCESS; out := 7; data_out := [] |})
  /\ 8 / 2 / (2 * 1) = 2
  /\ 4 <> 8 / 2 / (2 * 1).
Proof. vm_compute. repeat split; first [reflexivity | discriminate]. Qed.

(** C5.  Both comparisons of [withInput] use the tolerance [0.01f]: every
    comparison any run makes carries it, and a run with [verifyResults]
    that returns [true] makes exactly the two, the self-consistency check
    and then the device-result check. *)
Theorem both_checks_use_same_tolerance :
  forall W kernel p input verifyResults s,
  exists evs,
    trace (snd (withInput W kernel p input verifyResults s)) = trace s ++ evs
    /\ Forall
         (fun e =>
            forall which epsilon equal,
              e = Verified which epsilon equal -> epsilon = f_0_01)
         evs
    /\ (fst (withInput W kernel p input verifyResults s) = Ok true ->
        comparisons evs
        = (if verifyResults
           then [(check_consistency, f_0_01); (check_device_result, f_0_01)]
           else [])).
Proof.
  intros W kernel p input verifyResults s.
  destruct (withInput_events W kernel p input verifyResults s)
    as [evs [Ht [HF _]]].
  exists evs. split; [assumption|]. split.
  - rewrite Forall_forall in *. intros e He which epsilon equal ->.
    exact (HF _ He).
  - intros Hok.
    destruct (withInput_true_events _ _ _ _ _ _ _ Hok Ht)
      as [_ [_ [_ [_ [_ [_ Hc]]]]]].
    exact Hc.
Qed.

End WithInputFacts.

(** ** The size loop *)

Section SweepFacts.
Import Mach FP CL Obs Prog.

Lemma sweep_iteration_unfold fuel W sz s :
  sweep_iteration fuel W sz s
  = bind (ScopedKernel_ctor fuel W (kernel_src W)
            (Z.of_nat (length (sweep_input W sz s))))
      (fun sc =>
         bind (withInput W (kernel sc) (nButterfliesPerThread sc)
                 (sweep_input W sz s) true)
           (fun continue =>
              bind (release W (program sc) (kernel sc))
                (fun _ => pure continue)))
      (sweep_start sz s).
Proof. reflexivity. Qed.

(** An iteration whose [withInput] returns [false] and whose [ScopedKernel]
    is then released ends the loop: [sweep] returns without a further
    event. *)
Lemma sweep_stops n fuel W sz s sk s1 s2 :
  sz < 10000000 ->
  ScopedKernel_ctor fuel W (kernel_src W)
    (Z.of_nat (length (sweep_input W sz s))) (sweep_start sz s) = (Ok sk, s1) ->
  withInput W (kernel sk) (nButterfliesPerThread sk) (sweep_input W sz s) true s1
  = (Ok false, s2) ->
  ret (device W (ncalls s2) (clReleaseKernel (kernel sk))) = CL_SUCCESS ->
  ret (device W (S (ncalls s2)) (clReleaseProgram (program sk))) = CL_SUCCESS ->
  sweep (S n) fuel W sz s
  = (Ok tt, after_call W (clReleaseProgram (program sk))
              (after_call W (clReleaseKernel (kernel sk)) s2)).
Proof.
  intros Hsz Hctor Hrun Hk Hp. cbn [sweep].
  apply Z.ltb_lt in Hsz. rewrite Hsz.
  assert (Hit : sweep_iteration fuel W sz s
                = (Ok false, after_call W (clReleaseProgram (program sk))
                               (after_call W (clReleaseKernel (kernel sk)) s2))).
  { rewrite sweep_iteration_unfold.
    rewrite (bind_Ok _ _ _ _ _ Hctor), (bind_Ok _ _ _ _ _ Hrun).
    unfold release. rewrite bind_assoc, bind_call, bind_assoc, bind_CHECK, Hk.
    cbn [Z.eqb CL_SUCCESS]. rewrite bind_assoc, bind_call, bind_CHECK.
    cbn [after_call ncalls]. rewrite Hp. reflexivity. }
  now rewrite (bind_Ok _ _ _ _ _ Hit).
Qed.

Lemma sweep_input_length W sz s :
  0 <= sz -> Z.of_nat (length (sweep_input W sz s)) = sz.
Proof.
  intros H. unfold sweep_input. rewrite length_map, length_seq. lia.
Qed.

(** C4.  For an input whose length [N] is a power of two, at least 2:
    if the local-memory size the device reports is smaller than twice the
    byte size of the [N] complex outputs, [withInput] prints the condition
    and returns [false], having asked the device for nothing but that size
    (no image is created), and once the [ScopedKernel] is released the
    size loop ends without a fatal error and without a further event, the
    trace of the sizes completed before being kept as it was; otherwise
    [withInput] goes on, and the next thing it asks of the device is the
    input image. *)
Theorem insufficient_local_memory_stops_sweep :
  forall W fuel n sz s sk,
    let input := sweep_input W sz s in
    let N := Z.of_nat (length input) in
    let s1 := snd (ScopedKernel_ctor fuel W (kernel_src W) N
                     (sweep_start sz s)) in
    let r0 := device W (ncalls s1) clGetDeviceInfo_LOCAL_MEM_SIZE in
    let bytes := N * sizeof_complex_float W in
    let rk := device W (S (ncalls s1)) (clReleaseKernel (kernel sk)) in
    let rp := device W (S (S (ncalls s1))) (clReleaseProgram (program sk)) in
    sz < 10000000 ->
    is_power_of_two N = true -> 2 <= N ->
    0 < sizeof_complex_float W -> bytes <= PTRDIFF_MAX ->
    fst (ScopedKernel_ctor fuel W (kernel_src W) N (sweep_start sz s))
    = Ok sk ->
    (to_size_t (out r0) < 2 * bytes ->
     withInput W (kernel sk) (nButterfliesPerThread sk) input true s1
     = (Ok false,
        {| trace := trace s1 ++ [Call clGetDeviceInfo_LOCAL_MEM_SIZE r0;
                                 Cout msg_not_enough_local_memory];
           ncalls := S (ncalls s1); ndraws := ndraws s1 |})
     /\ (ret rk = CL_SUCCESS -> ret rp = CL_SUCCESS ->
         exists evs,
           trace s1 = trace s ++ evs
           /\ sweep (S n) fuel W sz s
              = (Ok tt,
                 {| trace :=
                      trace s ++ evs
                      ++ [Call clGetDeviceInfo_LOCAL_MEM_SIZE r0;
                          Cout msg_not_enough_local_memory;
                          Call (clReleaseKernel (kernel sk)) rk;
                          Call (clReleaseProgram (program sk)) rp];
                    ncalls := S (S (S (ncalls s1)));
                    ndraws := ndraws s1 |})))
    /\ (2 * bytes <= to_size_t (out r0) ->
        exists pro r t,
          trace (snd (withInput W (kernel sk) (nButterfliesPerThread sk)
                        input true s1))
          = trace s1 ++ Call clGetDeviceInfo_LOCAL_MEM_SIZE r0 :: pro
            ++ Call (clCreateImage CL_MEM_READ_ONLY N) r :: t
          /\ forallb (fun e => negb (is_create_image e)) pro = true).
Proof.
  intros W fuel n sz s sk input N s1 r0 bytes rk rp
    Hsz Hpow Hge Hsc Hmax Hctor.
  assert (HN : 0 <= N) by lia.
  pose proof (local_memory_needed_exact W N HN Hsc Hmax) as Hneed.
  fold bytes in Hneed.
  assert (Hrun : ScopedKernel_ctor fuel W (kernel_src W) N (sweep_start sz s)
                 = (Ok sk, s1)).
  { subst s1. destruct (ScopedKernel_ctor _ _ _ _ _) as [res st].
    cbn [fst snd] in *. now subst res. }
  split.
  - intros Hlt.
    assert (Hw : withInput W (kernel sk) (nButterfliesPerThread sk) input
                   true s1
                 = (Ok false,
                    {| trace := trace s1
                                ++ [Call clGetDeviceInfo_LOCAL_MEM_SIZE r0;
                                    Cout msg_not_enough_local_memory];
                       ncalls := S (ncalls s1); ndraws := ndraws s1 |})).
    { rewrite withInput_insufficient; try assumption;
        [|fold N; rewrite Hneed; exact Hlt].
      cbv [after_emit after_call]. cbn [trace ncalls ndraws].
      now rewrite <- app_assoc. }
    split; [exact Hw|]. intros Hk Hp.
    destruct (ScopedKernel_loop_emits W (kernel_src W) (to_int (N / 2)) fuel 1
                (sweep_start sz s)) as [evs [Hevs _]].
    fold (ScopedKernel_ctor fuel W (kernel_src W) N) in Hevs.
    fold s1 in Hevs. cbn [sweep_start trace] in Hevs.
    rewrite <- app_assoc in Hevs.
    eexists. split; [exact Hevs|].
    rewrite (sweep_stops n fuel W sz s sk s1 _ Hsz Hrun Hw Hk Hp).
    cbv [after_call]. cbn [trace ncalls ndraws].
    rewrite Hevs, <- !app_assoc. reflexivity.
  - intros Hle.
    rewrite withInput_sufficient; try assumption;
      [|fold N; rewrite Hneed; exact Hle].
    destruct (withInput_run_first_image W (kernel sk)
                (nButterfliesPerThread sk) input true
                (after_call W clGetDeviceInfo_LOCAL_MEM_SIZE s1))
      as [pro [r [t [Ht Hq]]]].
    exists pro, r, t. split; [|assumption].
    rewrite Ht. cbn [after_call trace]. now rewrite <- app_assoc.
Qed.

(** The theorem on the first size of the sweep, 8, on a device with 100
    bytes of local memory, where 128 are needed. *)
Lemma insufficient_local_memory_stops_sweep_at_8 :
  let W := Sample.small_world in
  let sk := {| program := 0; kernel := 2; nButterfliesPerThread := 1 |} in
  let input := sweep_input W 8 initial in
  let N := Z.of_nat (length input) in
  let s1 := snd (ScopedKernel_ctor 3 W (kernel_src W) N
                   (sweep_start 8 initial)) in
  let r0 := device W (ncalls s1) clGetDeviceInfo_LOCAL_MEM_SIZE in
  let bytes := N * sizeof_complex_float W in
  let rk := device W (S (ncalls s1)) (clReleaseKernel (kernel sk)) in
  let rp := device W (S (S (ncalls s1))) (clReleaseProgram (program sk)) in
  (to_size_t (out r0) < 2 * bytes ->
   withInput W (kernel sk) (nButterfliesPerThread sk) input true s1
   = (Ok false,
      {| trace := trace s1 ++ [Call clGetDeviceInfo_LOCAL_MEM_SIZE r0;
                               Cout msg_not_enough_local_memory];
         ncalls := S (ncalls s1); ndraws := ndraws s1 |})
   /\ (ret rk = CL_SUCCESS -> ret rp = CL_SUCCESS ->
       exists evs,
         trace s1 = trace initial ++ evs
         /\ sweep 32 3 W 8 initial
            = (Ok tt,
               {| trace :=
                    trace initial ++ evs
                    ++ [Call clGetDeviceInfo_LOCAL_MEM_SIZE r0;
                        Cout msg_not_enough_local_memory;
                        Call (clReleaseKernel (kernel sk)) rk;
                        Call (clReleaseProgram (program sk)) rp];
                  ncalls := S (S (S (ncalls s1)));
                  ndraws := ndraws s1 |})))
  /\ (2 * bytes <= to_size_t (out r0) ->
      exists pro r t,
        trace (snd (withInput W (kernel sk) (nButterfliesPerThread sk)
                      input true s1))
        = trace s1 ++ Call clGetDeviceInfo_LOCAL_MEM_SIZE r0 :: pro
          ++ Call (clCreateImage CL_MEM_READ_ONLY N) r :: t
        /\ forallb (fun e => negb (is_create_image e)) pro = true).
Proof.
  apply (insufficient_local_memory_stops_sweep Sample.small_world 3 31 8
           initial {| program := 0; kernel := 2; nButterfliesPerThread := 1 |}).
  - lia.
  - reflexivity.
  - vm_compute. discriminate.
  - reflexivity.
  - vm_compute. discriminate.
  - reflexivity.
Defined.

(** On that device [main] as a whole returns 0: the sweep ends at its
    first size and the queue and context are released. *)
Lemma main_returns_at_8 :
  fst (main 3 Sample.small_world initial) = Ok 0
  /\ trace (snd (main 3 Sample.small_world initial))
     = [Call clGetPlatformIDs {| ret := 0; out := 0; data_out := [] |};
        Call clGetDeviceIDs {| ret := 0; out := 1; data_out := [] |};
        Call clCreateContext {| ret := 0; out := 2; data_out := [] |};
        Call clCreateCommandQueue {| ret := 0; out := 3; data_out := [] |};
        Cout (msg_input_size 8);
        Call (clCreateProgramWithSource (lit "#define A -0x1.921fb6p-1
#define N 4
#define LOG2N 2
#define M 1
")) {| ret := 0; out := 4; data_out := [] |};
        Call (clBuildProgram 4) {| ret := 0; out := 5; data_out := [] |};
        Call (clCreateKernel 4) {| ret := 0; out := 6; data_out := [] |};
        Call (clGetKernelWorkGroupInfo_WORK_GROUP_SIZE 6)
          {| ret := 0; out := 256; data_out := [] |};
        Cout (msg_workgroup_max_size 256 1);
        Call clGetDeviceInfo_LOCAL_MEM_SIZE
          {| ret := 0; out := 100; data_out := [] |};
        Cout msg_not_enough_local_memory;
        Call (clReleaseKernel 6) {| ret := 0; out := 9; data_out := [] |};
        Call (clReleaseProgram 4) {| ret := 0; out := 10; data_out := [] |};
        Call clFlush {| ret := 0; out := 11; data_out := [] |};
        Call clFinish {| ret := 0; out := 12; data_out := [] |};
        Call clReleaseCommandQueue {| ret := 0; out := 13; data_out := [] |};
        Call clReleaseContext {| ret := 0; out := 14; data_out := [] |}].
Proof. vm_compute. split; reflexivity. Qed.

End SweepFacts.

(** ** More on [ReplaceString] *)

Section ReplaceStringFacts.
Import Template Pieces.

Lemma find_from_here t x i : find_from (t ++ x) t i = Some i.
Proof. destruct (t ++ x) eqn:E; cbn [find_from]; rewrite <- E, prefix_b_app; reflexivity. Qed.

(** The loop of [ReplaceString] on pieces joined by [search]: started
    after [done], it replaces each separator. *)
Lemma ReplaceString_loop_join search repl :
  search <> [] ->
  forall rest u done fuel,
    starts_in search u = false ->
    forallb (fun v => negb (starts_in search v)) rest = true ->
    (length rest < fuel)%nat ->
    ReplaceString_loop fuel
      (done ++ u ++ concat (map (fun v => search ++ v) rest)) search repl
      (length done)
    = Some (done ++ u ++ concat (map (fun v => repl ++ v) rest)).
Proof.
  intros Hne. induction rest as [|v rest IH]; intros u done fuel Hu Hrest Hfuel.
  - destruct fuel as [|fuel]; [cbn in Hfuel; lia|].
    cbn [ReplaceString_loop map concat]. rewrite find_after.
    rewrite find_from_skip by assumption. cbn [find_from].
    destruct search; [congruence|]. reflexivity.
  - cbn [forallb] in Hrest. apply andb_prop in Hrest as [Hv Hrest].
    apply negb_true_iff in Hv.
    destruct fuel as [|fuel]; [cbn in Hfuel; lia|]. cbn [length] in Hfuel.
    cbn [ReplaceString_loop map concat]. rewrite find_after.
    rewrite find_from_skip by assumption.
    rewrite <- app_assoc, find_from_here.
    rewrite <- length_app, (app_assoc done u), replace_after.
    rewrite <- length_app.
    rewrite (app_assoc (done ++ u) repl).
    rewrite IH by (assumption || lia).
    now rewrite <- !app_assoc.
Qed.

(** [ReplaceString] replaces every occurrence, from left to right, and
    does not rescan what it has inserted: on a subject made of pieces
    joined by a non-empty [search], where [search] can neither occur nor
    begin inside a piece, the result is the pieces joined by the
    replacement, whatever the replacement is (it may contain [search]). *)
Theorem ReplaceString_replaces_every_occurrence :
  forall (search repl : str) (pieces : list str),
    search <> [] ->
    forallb (fun u => negb (starts_in search u)) pieces = true ->
    ReplaceString (join search pieces) search repl = Some (join repl pieces).
Proof.
  intros search repl [|u rest] Hne Hp.
  - unfold ReplaceString. cbn. destruct search; [congruence|reflexivity].
  - cbn [forallb] in Hp. apply andb_prop in Hp as [Hu Hrest].
    apply negb_true_iff in Hu. cbn [join].
    apply (ReplaceString_loop_enough _ _ _ (S (length rest))).
    exact (ReplaceString_loop_join search repl Hne rest u [] (S (length rest))
             Hu Hrest (Nat.lt_succ_diag_r _)).
Qed.

(** The theorem on the pieces [a], [b], the empty piece and [c] joined by
    a comma and a space, the separator being replaced by two of them. *)
Lemma ReplaceString_csv :
  ReplaceString (join (lit ", ") [lit "a"; lit "b"; []; lit "c"]) (lit ", ") (lit ", , ")
  = Some (join (lit ", , ") [lit "a"; lit "b"; []; lit "c"]).
Proof.
  apply (ReplaceString_replaces_every_occurrence (lit ", ") (lit ", , ")
           [lit "a"; lit "b"; []; lit "c"]).
  - discriminate.
  - reflexivity.
Defined.

Lemma prefix_b_split t x : prefix_b t x = true -> x = t ++ skipn (length t) x.
Proof.
  revert x. induction t as [|a t IH]; intros [|b x]; simpl; try congruence.
  intros H. apply andb_prop in H as [Hab H]. apply Ascii.eqb_eq in Hab.
  subst b. f_equal. now apply IH.
Qed.

(** Where [find] finds [search], replacing it by itself changes
    nothing. *)
Lemma replace_same subject search pos p :
  find subject search pos = Some p ->
  replace subject p (length search) search = subject.
Proof.
  unfold find. destruct (Nat.leb_spec pos (length subject)); [|discriminate].
  intros Hf. apply find_from_bounds in Hf as [[H1 H2] H3].
  rewrite skipn_skipn in H3.
  replace (p - pos + pos)%nat with p in H3 by lia.
  apply prefix_b_split in H3. rewrite skipn_skipn in H3.
  unfold replace. rewrite (Nat.add_comm p), <- H3. apply firstn_skipn.
Qed.

(** Replacing a non-empty text by itself gives the subject back. *)
Theorem ReplaceString_by_itself :
  forall subject search : str,
    search <> [] -> ReplaceString subject search search = Some subject.
Proof.
  intros subject search Hne.
  destruct (ReplaceString_total subject search search Hne) as [r Hr].
  rewrite Hr. f_equal. unfold ReplaceString in Hr.
  revert Hr. generalize 0%nat. generalize (S (length subject)).
  induction n as [|n IH]; intros pos Hr; [discriminate|].
  cbn [ReplaceString_loop] in Hr.
  destruct (find subject search pos) as [p|] eqn:Hf.
  - rewrite (replace_same _ _ _ _ Hf) in Hr. now apply IH in Hr.
  - congruence.
Qed.

(** The theorem on [full_template] and the common beginning of its
    placeholders. *)
Lemma ReplaceString_by_itself_on_template :
  ReplaceString Sample.full_template (lit "replace_") (lit "replace_")
  = Some Sample.full_template.
Proof.
  apply (ReplaceString_by_itself Sample.full_template (lit "replace_")).
  discriminate.
Defined.

End ReplaceStringFacts.

(** ** Runs of the configuration prober *)

Section ProberRuns.
Import Mach CL Obs Prog Ledger.

(** When the work-group size divides the butterfly count, the quotient is
    the next estimate and passes the capacity test. *)
Lemma next_estimate_on_divisor nb wg m :
  0 <= nb <= INT_MAX -> 0 < wg < size_t_mod -> nb = m * wg ->
  next_estimate nb wg = m
  /\ over_capacity nb m wg = false.
Proof.
  intros Hnb Hwg Hm.
  assert (HI : INT_MAX < size_t_mod) by (unfold INT_MAX, size_t_mod; lia).
  assert (Hq : nb / wg = m) by (subst nb; apply Z.div_mul; lia).
  assert (0 <= m <= nb) by nia.
  assert (Hnext : next_estimate nb wg = m).
  { unfold next_estimate. rewrite (to_size_t_id nb), Hq by lia.
    apply to_int_id. unfold INT_MIN, INT_MAX in *. lia. }
  split; [assumption|].
  unfold over_capacity. apply Z.ltb_ge.
  rewrite (to_size_t_id nb), (to_size_t_id m) by lia.
  rewrite to_size_t_id by nia. lia.
Qed.

(** A device that reports a work-group size of 0: for an input of at
    least two elements the capacity test fails at the first trial, the
    kernel and the program of that trial are released, and the next
    estimate [nButterflies / workgroup_max_sz] divides by zero. *)
Theorem prober_divides_by_zero_work_group_size :
  forall fuel W src N s,
    all_succeed W ->
    (forall n k,
        to_size_t (out (device W n (clGetKernelWorkGroupInfo_WORK_GROUP_SIZE k)))
        = 0) ->
    2 <= N -> N / 2 <= INT_MAX ->
    exists evs,
      fst (ScopedKernel_ctor (S fuel) W src N s) = Err UndefinedBehaviour
      /\ trace (snd (ScopedKernel_ctor (S fuel) W src N s)) = trace s ++ evs
      /\ released_kernels evs = created_kernels evs
      /\ released_programs evs = created_programs evs
      /\ length (created_kernels evs) = 1%nat.
Proof.
  intros fuel W src N s HW Hwg HN Hint.
  assert (Hnb : 1 <= N / 2 <= INT_MAX).
  { split; [apply Z.div_le_lower_bound; lia|lia]. }
  unfold ScopedKernel_ctor.
  rewrite to_int_id by (unfold INT_MIN, INT_MAX in *; lia).
  set (nb := N / 2) in *.
  cbn [ScopedKernel_loop].
  destruct (instantiate_total (angle_literal W) src nb 1) as [text Htext].
  rewrite Htext. rewrite !bind_call_CHECK by assumption.
  rewrite bind_print, Hwg.
  assert (Hcap : over_capacity nb 1 0 = true).
  { unfold over_capacity. apply Z.ltb_lt.
    rewrite (to_size_t_id nb) by (unfold size_t_mod, INT_MAX in *; lia).
    rewrite Z.mul_0_r. unfold to_size_t. rewrite Z.mod_0_l; [lia|].
    unfold size_t_mod. lia. }
  rewrite Hcap, bind_release by assumption.
  cbn [Z.eqb raise fst snd after_call after_emit trace].
  eexists. split; [reflexivity|]. split.
  { rewrite <- !app_assoc. cbn [app]. reflexivity. }
  repeat split; reflexivity.
Qed.

(** What the constructor leaves in the ledgers when it returns. *)
Lemma ScopedKernel_loop_ledger fuel W src nb :
  forall p s sk s',
    ScopedKernel_loop fuel W src nb p s = (Ok sk, s') ->
    exists evs,
      trace s' = trace s ++ evs
      /\ created_programs evs = released_programs evs ++ [program sk]
      /\ created_kernels evs = released_kernels evs ++ [kernel sk]
      /\ created_images evs = [] /\ released_images evs = [].
Proof.
  induction fuel as [|fuel IH]; intros p s sk s' Hrun; [discriminate|].
  simpl in Hrun.
  destruct (Template.instantiate _ _ _ _) as [replaced_str|]; [|discriminate].
  do 4 (rewrite bind_call, bind_CHECK in Hrun;
        destruct (_ =? CL_SUCCESS); [|discriminate]).
  rewrite bind_print in Hrun.
  match type of Hrun with
  | context [over_capacity nb p ?wg] => destruct (over_capacity nb p wg)
  end.
  - unfold release in Hrun. rewrite !bind_assoc in Hrun.
    rewrite bind_call, bind_assoc, bind_CHECK in Hrun.
    destruct (_ =? CL_SUCCESS); [|discriminate].
    rewrite bind_assoc, bind_call, bind_CHECK in Hrun.
    destruct (_ =? CL_SUCCESS); [|discriminate].
    destruct (_ =? 0); [discriminate|].
    apply IH in Hrun as [evs [Ht [Hp [Hk [Hi Hj]]]]].
    cbn [after_call after_emit trace ncalls] in Ht.
    rewrite <- !app_assoc in Ht. cbn [app] in Ht.
    eexists. split; [exact Ht|].
    cbn [created_programs released_programs created_kernels released_kernels
           created_images released_images flat_map app].
    fold (created_programs evs). fold (released_programs evs).
    fold (created_kernels evs). fold (released_kernels evs).
    fold (created_images evs). fold (released_images evs).
    rewrite Hp, Hk, Hi, Hj. repeat split; reflexivity.
  - injection Hrun as <- <-.
    cbn [after_call after_emit trace ncalls].
    rewrite <- !app_assoc. cbn [app].
    eexists. split; [reflexivity|]. repeat split; reflexivity.
Qed.


Lemma ScopedKernel_loop_stuck W src nb q wg :
  all_succeed W ->
  (forall n k,
      to_size_t (out (device W n (clGetKernelWorkGroupInfo_WORK_GROUP_SIZE k)))
      = wg) ->
  over_capacity nb q wg = true -> wg <> 0 -> next_estimate nb wg = q ->
  forall fuel s, fst (ScopedKernel_loop fuel W src nb q s) = OutOfFuel.
Proof.
  intros HW Hwg Hcap Hz Hnext. induction fuel as [|fuel IH]; intros s;
    [reflexivity|].
  cbn [ScopedKernel_loop].
  destruct (Template.instantiate (angle_literal W) src nb q)
    as [replaced_str|]; [|reflexivity].
  rewrite !bind_call_CHECK by assumption.
  rewrite bind_print, Hwg, Hcap, bind_release by assumption.
  apply Z.eqb_neq in Hz. rewrite Hz, Hnext. apply IH.
Qed.

Lemma over_capacity_at_1 nb wg :
  0 <= nb <= INT_MAX -> 0 <= wg < size_t_mod ->
  over_capacity nb 1 wg = (wg <? nb).
Proof.
  intros Hnb Hwg. unfold over_capacity.
  rewrite (to_size_t_id nb), (to_size_t_id 1)
    by (unfold size_t_mod, INT_MAX in *; lia).
  rewrite Z.mul_1_l. now rewrite to_size_t_id by lia.
Qed.

(** Two trials are enough where the butterfly count is at most the
    work-group size or a multiple of it. *)
Lemma ScopedKernel_loop_on_divisor :
  forall fuel W src nb s wg,
    all_succeed W ->
    (forall n k,
        to_size_t (out (device W n (clGetKernelWorkGroupInfo_WORK_GROUP_SIZE k)))
        = wg) ->
    0 <= nb <= INT_MAX -> 0 < wg ->
    nb <= wg \/ (wg | nb) ->
    exists sk s',
      ScopedKernel_loop (S (S fuel)) W src nb 1 s = (Ok sk, s')
      /\ nButterfliesPerThread sk = Z.max 1 (nb / wg).
Proof.
  intros fuel W src nb s wg HW Hwg Hnb Hpos Hok.
  assert (Hlt : wg < size_t_mod).
  { rewrite <- (Hwg 0%nat 0). apply to_size_t_range. }
  cbn [ScopedKernel_loop].
  destruct (instantiate_total (angle_literal W) src nb 1) as [text Htext].
  rewrite Htext. rewrite !bind_call_CHECK by assumption.
  rewrite bind_print, Hwg, over_capacity_at_1 by lia.
  destruct (Z.ltb_spec wg nb) as [Hover|Hfit].
  - destruct Hok as [Hle|[m Hm]]; [lia|].
    rewrite bind_release by assumption.
    replace (wg =? 0) with false by (symmetry; apply Z.eqb_neq; lia).
    destruct (next_estimate_on_divisor nb wg m Hnb (conj Hpos Hlt) Hm)
      as [Hnext Hacc].
    rewrite Hnext.
    destruct (instantiate_total (angle_literal W) src nb m) as [text2 Htext2].
    rewrite Htext2. rewrite !bind_call_CHECK by assumption.
    rewrite bind_print, Hwg, Hacc.
    eexists _, _. split; [reflexivity|]. cbn [nButterfliesPerThread].
    assert (Hq : nb / wg = m) by (rewrite Hm; apply Z.div_mul; lia).
    rewrite Hq, Z.max_r by nia. reflexivity.
  - eexists _, _. split; [reflexivity|]. cbn [nButterfliesPerThread].
    assert (nb / wg <= 1).
    { apply Z.div_le_upper_bound; lia. }
    rewrite Z.max_l by lia. reflexivity.
Qed.

(** The search on a device that makes every call succeed and reports the
    same work-group size [wg] for every kernel: when the butterfly count
    [N/2] is at most [wg] or a multiple of it, the constructor returns
    within two trials, with [1] or [N/2 / wg] butterflies per thread. *)
Theorem prober_returns_on_divisor :
  forall fuel W src N s wg,
    all_succeed W ->
    (forall n k,
        to_size_t (out (device W n (clGetKernelWorkGroupInfo_WORK_GROUP_SIZE k)))
        = wg) ->
    0 <= N -> N / 2 <= INT_MAX -> 0 < wg ->
    N / 2 <= wg \/ (wg | N / 2) ->
    exists sk s',
      ScopedKernel_ctor (S (S fuel)) W src N s = (Ok sk, s')
      /\ nButterfliesPerThread sk = Z.max 1 (N / 2 / wg).
Proof.
  intros fuel W src N s wg HW Hwg HN Hint Hpos Hok.
  assert (Hnb : 0 <= N / 2 <= INT_MAX) by (split; [apply Z.div_pos; lia|lia]).
  unfold ScopedKernel_ctor.
  rewrite to_int_id by (unfold INT_MIN, INT_MAX in *; lia).
  now apply ScopedKernel_loop_on_divisor.
Qed.

(** The theorem for [N = 2048] on a device that reports 256: four
    butterflies per thread. *)
Lemma prober_returns_at_2048 :
  exists sk s',
    ScopedKernel_ctor 2 (Sample.world Sample.full_template 256 4096 0 0)
      Sample.full_template 2048 initial = (Ok sk, s')
    /\ nButterfliesPerThread sk = Z.max 1 (2048 / 2 / 256).
Proof.
  apply (prober_returns_on_divisor 0
           (Sample.world Sample.full_template 256 4096 0 0)
           Sample.full_template 2048 initial 256).
  - apply steady_device_succeeds.
  - intros n k. reflexivity.
  - lia.
  - vm_compute. discriminate.
  - lia.
  - right. exists 4. reflexivity.
Defined.

(** On such a device, when the butterfly count exceeds [wg] and is not a
    multiple of it, the estimate [N/2 / wg] fails the capacity test and is
    its own successor: the constructor tries it again and again and never
    returns. *)
Theorem prober_never_returns_off_divisor :
  forall W src N s wg,
    all_succeed W ->
    (forall n k,
        to_size_t (out (device W n (clGetKernelWorkGroupInfo_WORK_GROUP_SIZE k)))
        = wg) ->
    0 <= N -> N / 2 <= INT_MAX -> 0 < wg ->
    wg < N / 2 -> ~ (wg | N / 2) ->
    over_capacity (N / 2) (N / 2 / wg) wg = true
    /\ next_estimate (N / 2) wg = N / 2 / wg
    /\ forall fuel, fst (ScopedKernel_ctor fuel W src N s) = OutOfFuel.
Proof.
  intros W src N s wg HW Hwg HN Hint Hpos Hover Hndiv.
  assert (Hnb : 0 <= N / 2 <= INT_MAX) by (split; [apply Z.div_pos; lia|lia]).
  assert (Hlt : wg < size_t_mod).
  { rewrite <- (Hwg 0%nat 0). apply to_size_t_range. }
  assert (HI : INT_MAX < size_t_mod) by (unfold INT_MAX, size_t_mod; lia).
  unfold ScopedKernel_ctor.
  rewrite to_int_id by (unfold INT_MIN, INT_MAX in *; lia).
  set (nb := N / 2) in *.
  set (q := nb / wg).
  assert (Hq : 1 <= q <= nb).
  { subst q. split.
    - apply Z.div_le_lower_bound; lia.
    - apply Z.div_le_upper_bound; nia. }
  assert (Hqw : q * wg < nb).
  { pose proof (Z.mul_div_le nb wg Hpos).
    assert (wg * q <> nb); [|lia].
    intros E. apply Hndiv. exists q. lia. }
  assert (Hnext : next_estimate nb wg = q).
  { unfold next_estimate. rewrite (to_size_t_id nb) by lia.
    apply to_int_id. unfold INT_MIN, INT_MAX in *. subst q. lia. }
  assert (Hcap : over_capacity nb q wg = true).
  { unfold over_capacity. apply Z.ltb_lt.
    rewrite (to_size_t_id nb), (to_size_t_id q) by lia.
    rewrite to_size_t_id by nia. lia. }
  split; [assumption|]. split; [assumption|].
  intros [|fuel]; [reflexivity|].
  cbn [ScopedKernel_loop].
  destruct (Template.instantiate (angle_literal W) src nb 1)
    as [text|]; [|reflexivity].
  rewrite !bind_call_CHECK by assumption.
  rewrite bind_print, Hwg, over_capacity_at_1 by lia.
  replace (wg <? nb) with true by (symmetry; apply Z.ltb_lt; lia).
  rewrite bind_release by assumption.
  replace (wg =? 0) with false by (symmetry; apply Z.eqb_neq; lia).
  rewrite Hnext.
  apply ScopedKernel_loop_stuck with (wg := wg); try assumption. lia.
Qed.

(** The theorem for [N = 1000] on a device that reports 64: the count 7
    is tried for ever. *)
Lemma prober_never_returns_at_1000 :
  over_capacity (1000 / 2) (1000 / 2 / 64) 64 = true
  /\ next_estimate (1000 / 2) 64 = 1000 / 2 / 64
  /\ forall fuel,
       fst (ScopedKernel_ctor fuel
              (Sample.world Sample.full_template 64 4096 0 0)
              Sample.full_template 1000 initial) = OutOfFuel.
Proof.
  apply (prober_never_returns_off_divisor
           (Sample.world Sample.full_template 64 4096 0 0)
           Sample.full_template 1000 initial 64).
  - apply steady_device_succeeds.
  - intros n k. reflexivity.
  - lia.
  - vm_compute. discriminate.
  - lia.
  - vm_compute. reflexivity.
  - intros [m Hm]. change (1000 / 2) with 500 in Hm. lia.
Defined.

(** The theorem for [N = 8] on a device that reports 0. *)
Lemma prober_divides_by_zero_on_silent_device :
  exists evs,
    fst (ScopedKernel_ctor 1 (Sample.world Sample.full_template 0 4096 0 0)
           Sample.full_template 8 initial) = Err UndefinedBehaviour
    /\ trace (snd (ScopedKernel_ctor 1
                     (Sample.world Sample.full_template 0 4096 0 0)
                     Sample.full_template 8 initial)) = trace initial ++ evs
    /\ released_kernels evs = created_kernels evs
    /\ released_programs evs = created_programs evs
    /\ length (created_kernels evs) = 1%nat.
Proof.
  apply (prober_divides_by_zero_work_group_size 0
           (Sample.world Sample.full_template 0 4096 0 0)
           Sample.full_template 8 initial).
  - apply steady_device_succeeds.
  - intros n k. reflexivity.
  - lia.
  - vm_compute. discriminate.
Defined.

(** When the constructor returns, every program and kernel of a rejected
    trial has been released, in the order of creation, and the only ones
    left are those of the [ScopedKernel]. *)
Theorem prober_releases_rejected_trials :
  forall fuel W src N s sk s',
    ScopedKernel_ctor fuel W src N s = (Ok sk, s') ->
    exists evs,
      trace s' = trace s ++ evs
      /\ created_programs evs = released_programs evs ++ [program sk]
      /\ created_kernels evs = released_kernels evs ++ [kernel sk].
Proof.
  intros fuel W src N s sk s' Hrun.
  apply ScopedKernel_loop_ledger in Hrun as [evs [Ht [Hp [Hk _]]]].
  now exists evs.
Qed.

(** The theorem for [N = 2048] on a device that reports 256: the program
    and the kernel of the first trial are released, those of the second
    are kept. *)
Lemma prober_releases_rejected_trial_at_2048 :
  exists evs,
    trace (snd (ScopedKernel_ctor 2
                  (Sample.world Sample.full_template 256 4096 0 0)
                  Sample.full_template 2048 initial))
    = trace initial ++ evs
    /\ created_programs evs = released_programs evs ++ [6]
    /\ created_kernels evs = released_kernels evs ++ [8].
Proof.
  apply (prober_releases_rejected_trials 2
           (Sample.world Sample.full_template 256 4096 0 0)
           Sample.full_template 2048 initial
           {| program := 6; kernel := 8; nButterfliesPerThread := 4 |}).
  vm_compute. reflexivity.
Defined.

Lemma ScopedKernel_loop_last_trial fuel W src nb :
  forall p s sk s',
    ScopedKernel_loop fuel W src nb p s = (Ok sk, s') ->
    exists text t r1 r2 r3 r4,
      Template.instantiate (angle_literal W) src nb (nButterfliesPerThread sk)
      = Some text
      /\ trace s' =
           t ++ [Call (clCreateProgramWithSource text) r1;
                 Call (clBuildProgram (out r1)) r2;
                 Call (clCreateKernel (out r1)) r3;
                 Call (clGetKernelWorkGroupInfo_WORK_GROUP_SIZE (out r3)) r4;
                 Cout (msg_workgroup_max_size (to_size_t (out r4))
                         (nButterfliesPerThread sk))]
      /\ program sk = out r1 /\ kernel sk = out r3.
Proof.
  induction fuel as [|fuel IH]; intros p s sk s' Hrun; [discriminate|].
  simpl in Hrun.
  destruct (Template.instantiate _ _ _ _) as [replaced_str|] eqn:Hsrc;
    [|discriminate].
  do 4 (rewrite bind_call, bind_CHECK in Hrun;
        destruct (_ =? CL_SUCCESS); [|discriminate]).
  rewrite bind_print in Hrun.
  match type of Hrun with
  | context [over_capacity nb p ?wg] => destruct (over_capacity nb p wg)
  end.
  - apply bind_inv_Ok in Hrun as [[] [s1 [_ Hrun]]].
    destruct (_ =? 0); [discriminate|]. now apply IH in Hrun.
  - injection Hrun as <- <-. cbn [nButterfliesPerThread program kernel].
    exists replaced_str, (trace s). eexists _, _, _, _.
    split; [exact Hsrc|]. split; [|split; reflexivity].
    cbn [after_call after_emit trace ncalls].
    rewrite <- !app_assoc. cbn [app]. reflexivity.
Qed.

(** The [ScopedKernel] the constructor returns holds the kernel of its
    last trial: the source compiled last is the template instantiated for
    the count the constructor accepted, the program is the one created
    from that source and then built, and the kernel is the one created
    from that program, whose work-group size was queried last. *)
Theorem accepted_kernel_is_built_for_accepted_count :
  forall fuel W src N s sk s',
    ScopedKernel_ctor fuel W src N s = (Ok sk, s') ->
    exists text t r1 r2 r3 r4,
      Template.instantiate (angle_literal W) src (to_int (N / 2))
        (nButterfliesPerThread sk) = Some text
      /\ trace s' =
           t ++ [Call (clCreateProgramWithSource text) r1;
                 Call (clBuildProgram (out r1)) r2;
                 Call (clCreateKernel (out r1)) r3;
                 Call (clGetKernelWorkGroupInfo_WORK_GROUP_SIZE (out r3)) r4;
                 Cout (msg_workgroup_max_size (to_size_t (out r4))
                         (nButterfliesPerThread sk))]
      /\ program sk = out r1 /\ kernel sk = out r3.
Proof.
  intros fuel W src N s sk s' Hrun.
  now apply ScopedKernel_loop_last_trial in Hrun.
Qed.

(** The theorem for [N = 2048] on a device that reports 256. *)
Lemma accepted_kernel_is_built_at_2048 :
  exists text t r1 r2 r3 r4,
    Template.instantiate
      (angle_literal (Sample.world Sample.full_template 256 4096 0 0))
      Sample.full_template (to_int (2048 / 2)) 4 = Some text
    /\ trace (snd (ScopedKernel_ctor 2
                     (Sample.world Sample.full_template 256 4096 0 0)
                     Sample.full_template 2048 initial)) =
         t ++ [Call (clCreateProgramWithSource text) r1;
               Call (clBuildProgram (out r1)) r2;
               Call (clCreateKernel (out r1)) r3;
               Call (clGetKernelWorkGroupInfo_WORK_GROUP_SIZE (out r3)) r4;
               Cout (msg_workgroup_max_size (to_size_t (out r4)) 4)]
    /\ 6 = out r1 /\ 8 = out r3.
Proof.
  apply (accepted_kernel_is_built_for_accepted_count 2
           (Sample.world Sample.full_template 256 4096 0 0)
           Sample.full_template 2048 initial
           {| program := 6; kernel := 8; nButterfliesPerThread := 4 |}).
  vm_compute. reflexivity.
Defined.

(** A returned count is at least 1, at most the butterfly count, and
    passes the capacity test. *)
Lemma ScopedKernel_loop_count fuel W src nb :
  1 <= nb <= INT_MAX ->
  forall p s sk s',
    0 <= p <= nb ->
    ScopedKernel_loop fuel W src nb p s = (Ok sk, s') ->
    1 <= nButterfliesPerThread sk <= nb
    /\ exists r t,
        trace s' =
          t ++ [Call (clGetKernelWorkGroupInfo_WORK_GROUP_SIZE (kernel sk)) r;
                Cout (msg_workgroup_max_size (to_size_t (out r))
                        (nButterfliesPerThread sk))]
        /\ nb <= nButterfliesPerThread sk * to_size_t (out r).
Proof.
  intros Hnb. induction fuel as [|fuel IH]; intros p s sk s' Hp Hrun;
    [discriminate|].
  simpl in Hrun.
  destruct (Template.instantiate _ _ _ _) as [replaced_str|]; [|discriminate].
  do 4 (rewrite bind_call, bind_CHECK in Hrun;
        destruct (_ =? CL_SUCCESS); [|discriminate]).
  rewrite bind_print in Hrun.
  assert (HI : INT_MAX < size_t_mod) by (unfold INT_MAX, size_t_mod; lia).
  match type of Hrun with
  | context [over_capacity nb p (to_size_t (out ?r))] =>
      set (r4 := r) in *;
      destruct (over_capacity nb p (to_size_t (out r4))) eqn:Hcap
  end.
  - apply bind_inv_Ok in Hrun as [[] [s1 [_ Hrun]]].
    destruct (to_size_t (out r4) =? 0) eqn:Hz; [discriminate|].
    apply Z.eqb_neq in Hz. pose proof (to_size_t_range (out r4)) as Hr.
    apply IH in Hrun; [assumption|].
    apply next_estimate_nonneg; lia.
  - injection Hrun as <- <-. cbn [nButterfliesPerThread kernel].
    pose proof (to_size_t_range (out r4)) as Hr.
    apply over_capacity_false in Hcap; try lia.
    split; [nia|].
    eexists r4, _. split; [|exact Hcap].
    unfold after_emit. simpl. rewrite <- app_assoc. reflexivity.
Qed.

(** For an input of at least two elements whose butterfly count fits
    [int]: the count [p] the constructor accepts is between 1 and the
    butterfly count, and every kernel execution [withInput] then enqueues
    for that input with [p] has a local work size between 1 and the
    work-group size the device reported for the accepted kernel, equal to
    its global size. *)
Theorem enqueued_work_group_fits_kernel :
  forall fuel W src input s sk s',
    2 <= Z.of_nat (length input) ->
    Z.of_nat (length input) / 2 <= INT_MAX ->
    ScopedKernel_ctor fuel W src (Z.of_nat (length input)) s = (Ok sk, s') ->
    exists r t,
      trace s' =
        t ++ [Call (clGetKernelWorkGroupInfo_WORK_GROUP_SIZE (kernel sk)) r;
              Cout (msg_workgroup_max_size (to_size_t (out r))
                      (nButterfliesPerThread sk))]
      /\ 1 <= nButterfliesPerThread sk <= Z.of_nat (length input) / 2
      /\ forall verifyResults s1,
         exists evs,
           trace (snd (withInput W (kernel sk) (nButterfliesPerThread sk)
                         input verifyResults s1)) = trace s1 ++ evs
           /\ Forall
                (fun e =>
                   forall k global_item_size local_item_size r',
                     e = Call (clEnqueueNDRangeKernel k global_item_size
                                 local_item_size) r' ->
                     1 <= local_item_size <= to_size_t (out r)
                     /\ global_item_size = local_item_size)
                evs.
Proof.
  intros fuel W src input s sk s' HN Hint Hrun.
  set (N := Z.of_nat (length input)) in *.
  unfold ScopedKernel_ctor in Hrun.
  assert (Hnb : 1 <= N / 2 <= INT_MAX).
  { split; [apply Z.div_le_lower_bound; lia|lia]. }
  rewrite to_int_id in Hrun by (unfold INT_MIN, INT_MAX in *; lia).
  apply ScopedKernel_loop_count in Hrun as [Hp [r [t [Ht Hcap]]]];
    [|assumption|lia].
  exists r, t. split; [assumption|]. split; [assumption|].
  intros verifyResults s1.
  destruct (withInput_emits W (kernel sk) (nButterfliesPerThread sk) input
              verifyResults s1) as [evs [Hevs HF]].
  exists evs. split; [assumption|].
  rewrite Forall_forall in *. intros e He k g l r' ->.
  specialize (HF _ He). cbn [run_event_ok] in HF. destruct HF as [Hg Hl].
  fold N in Hg.
  set (p := nButterfliesPerThread sk) in *.
  set (wg := to_size_t (out r)) in *.
  rewrite to_size_t_id in Hg by (unfold size_t_mod, INT_MAX in *; lia).
  split; [|congruence].
  rewrite Hl, Hg. pose proof (Z.mul_div_le N 2 ltac:(lia)).
  split.
  - apply Z.div_le_lower_bound; lia.
  - rewrite <- Z.div_div by lia.
    apply Z.div_le_upper_bound; lia.
Qed.

(** The theorem for an input of 8 elements on a device that reports
    256. *)
Lemma enqueued_work_group_fits_kernel_at_8 :
  exists r t,
    trace (snd (ScopedKernel_ctor 3 Sample.large_world Sample.full_template
                  (Z.of_nat (length Sample.eight_zeros)) initial)) =
      t ++ [Call (clGetKernelWorkGroupInfo_WORK_GROUP_SIZE 2) r;
            Cout (msg_workgroup_max_size (to_size_t (out r)) 1)]
    /\ 1 <= 1 <= Z.of_nat (length Sample.eight_zeros) / 2
    /\ forall verifyResults s1,
       exists evs,
         trace (snd (withInput Sample.large_world 2 1 Sample.eight_zeros
                       verifyResults s1)) = trace s1 ++ evs
         /\ Forall
              (fun e =>
                 forall k global_item_size local_item_size r',
                   e = Call (clEnqueueNDRangeKernel k global_item_size
                               local_item_size) r' ->
                   1 <= local_item_size <= to_size_t (out r)
                   /\ global_item_size = local_item_size)
              evs.
Proof.
  apply (enqueued_work_group_fits_kernel 3 Sample.large_world
           Sample.full_template Sample.eight_zeros initial
           {| program := 0; kernel := 2; nButterfliesPerThread := 1 |}).
  - vm_compute. discriminate.
  - vm_compute. discriminate.
  - vm_compute. reflexivity.
Defined.

End ProberRuns.

(** ** The calls of [withInput] *)

Section WithInputProtocol.
Import Mach FP CL Obs Prog Ledger.

Lemma flat_map_nil {A B} (f : A -> list B) (l : list A) :
  (forall a, In a l -> f a = []) -> flat_map f l = [].
Proof.
  induction l as [|a l IH]; intros H; [reflexivity|].
  cbn [flat_map]. rewrite (H a (or_introl eq_refl)), IH; [reflexivity|].
  intros b Hb. apply H. now right.
Qed.

(** The iterations of the benchmark loop, each with its four calls. *)
Lemma benchmark_loop_groups W kernel g l :
  forall n i elapsed s elapsed' s',
    benchmark_loop n W kernel g l i elapsed s = (Ok elapsed', s') ->
    exists rs,
      length rs = n
      /\ trace s' = trace s ++ flat_map (execution kernel g l) rs.
Proof.
  induction n as [|n IH]; intros i elapsed s elapsed' s' Hrun.
  - exists []. injection Hrun as <- <-. now rewrite app_nil_r.
  - cbn [benchmark_loop] in Hrun.
    do 4 (rewrite bind_call, bind_CHECK in Hrun;
          destruct (_ =? CL_SUCCESS); [|discriminate]).
    apply IH in Hrun as [rs [Hn Ht]].
    cbn [after_call trace ncalls] in Ht. rewrite <- !app_assoc in Ht.
    cbn [app] in Ht.
    eexists ((_, _, _, _) :: rs). split; [cbn; now rewrite Hn|].
    exact Ht.
Qed.

(** A run of the part of [withInput] after the local-memory test that
    returns, event by event. *)
Lemma withInput_run_shape W kernel p input verifyResults s b s' :
  withInput_run W kernel p input verifyResults s = (Ok b, s') ->
  let N := Z.of_nat (length input) in
  exists pro bev epi r1 r2 r3 r4 r5 r6 r7 r8 r9 g us,
    trace s' =
      trace s ++ pro
      ++ [Call (clCreateImage CL_MEM_READ_ONLY N) r1;
          Call (clCreateImage CL_MEM_WRITE_ONLY (to_size_t (2 * N))) r2;
          Call (clEnqueueWriteImage (out r1) false (N / 4) input) r3;
          Call (clSetKernelArg kernel 0 (sizeof_cl_mem W) (Some (out r1))) r4;
          Call (clSetKernelArg kernel 1 (sizeof_cl_mem W) (Some (out r2))) r5;
          Call (clSetKernelArg kernel 2 (local_memory_needed W N) None) r6;
          Cout (msg_global_size g)]
      ++ bev
      ++ [Cout (msg_avg_kernel_duration us);
          Call (clEnqueueReadImage (out r2) true (N / 2)) r7]
      ++ epi
      ++ [Call (clReleaseMemObject (out r1)) r8;
          Call (clReleaseMemObject (out r2)) r9]
    /\ forallb (fun e => negb (is_call e)) pro = true
    /\ forallb is_benchmark_event bev = true
    /\ forallb (fun e => negb (is_call e)) epi = true
    /\ (verifyResults = false -> pro = [] /\ epi = [])
    /\ g = N / to_size_t (2 * p)
    /\ exists rs,
        length rs = Z.to_nat (nSkipIterations + nIterations)
        /\ bev = flat_map (execution kernel g g) rs.
Proof.
  intros Hrun N. unfold withInput_run in Hrun. fold N in Hrun.
  match type of Hrun with
  | bind ?m _ _ = _ =>
      assert (Hpro : exists pro,
                 m s = (Ok tt, {| trace := trace s ++ pro;
                                  ncalls := ncalls s; ndraws := ndraws s |})
                 /\ forallb (fun e => negb (is_call e)) pro = true
                 /\ (verifyResults = false -> pro = []))
  end.
  { destruct verifyResults.
    - eexists [_; _; _; _; _]. split.
      + cbv [bind print emit verifyVectorsAreEqual].
        cbn [trace ncalls ndraws]. now rewrite <- !app_assoc.
      + split; [reflexivity|discriminate].
    - exists []. rewrite app_nil_r. destruct s. now repeat split. }
  destruct Hpro as [pro [Hpro [Hq1 Hq2]]].
  rewrite (bind_Ok _ _ _ _ _ Hpro) in Hrun. clear Hpro.
  rewrite bind_verify, Z.eqb_refl in Hrun.
  rewrite bind_call, bind_CHECK in Hrun.
  destruct (_ =? CL_SUCCESS); [|discriminate].
  rewrite bind_verify in Hrun.
  destruct (Z.eqb_spec (sizeof_complex_float W) (2 * sizeof_float W))
    as [Hsz|]; [|discriminate].
  do 5 (rewrite bind_call, bind_CHECK in Hrun;
        destruct (_ =? CL_SUCCESS); [|discriminate]).
  destruct (in_int (2 * p)) eqn:Hint; [|discriminate].
  rewrite bind_pure in Hrun.
  destruct (Z.eqb_spec (to_size_t (2 * p)) 0) as [|Hdiv]; [discriminate|].
  rewrite bind_pure, bind_print in Hrun.
  apply bind_inv_Ok in Hrun as [elapsed [s1 [Hloop Hrun]]].
  pose proof (benchmark_loop_groups _ _ _ _ _ _ _ _ _ _ Hloop)
    as [rs [Hrs Hgroups]].
  apply benchmark_loop_inv in Hloop as [bev [Ht [_ [_ [_ [_ H4]]]]]].
  rewrite Ht in Hgroups. apply app_inv_head in Hgroups.
  destruct (avg_kernel_duration elapsed) as [us|] eqn:Havg; [|discriminate].
  rewrite bind_print in Hrun.
  rewrite bind_call, bind_CHECK in Hrun.
  destruct (_ =? CL_SUCCESS); [|discriminate].
  match type of Hrun with
  | bind ?m _ ?s2 = _ =>
      assert (Hepi : exists epi,
                 m s2 = (Ok tt, {| trace := trace s2 ++ epi;
                                   ncalls := ncalls s2; ndraws := ndraws s2 |})
                 /\ forallb (fun e => negb (is_call e)) epi = true
                 /\ (verifyResults = false -> epi = []))
  end.
  { destruct verifyResults.
    - eexists [_; _]. split.
      + cbv [bind print emit verifyVectorsAreEqual].
        cbn [trace ncalls ndraws]. now rewrite <- !app_assoc.
      + split; [reflexivity|discriminate].
    - exists []. rewrite app_nil_r. now repeat split. }
  destruct Hepi as [epi [Hepi [Hr1 Hr2]]].
  rewrite (bind_Ok _ _ _ _ _ Hepi) in Hrun. clear Hepi.
  do 2 (rewrite bind_call, bind_CHECK in Hrun;
        destruct (_ =? CL_SUCCESS); [|discriminate]).
  injection Hrun as <- <-.
  cbn [after_call after_emit trace ncalls ndraws] in *.
  rewrite (local_memory_argument W N Hsz) in *.
  exists pro, bev, epi.
  do 11 eexists.
  split.
  { rewrite Ht. rewrite <- !app_assoc. cbn [app]. reflexivity. }
  split; [assumption|]. split; [assumption|]. split; [assumption|].
  split; [now split; auto|]. split; [reflexivity|].
  exists rs. now split.
Qed.


Lemma quiet_flat_map {B} (f : event -> list B) l :
  forallb (fun e => negb (is_call e)) l = true ->
  (forall m, f (Cout m) = []) ->
  (forall which epsilon equal, f (Verified which epsilon equal) = []) ->
  flat_map f l = [].
Proof.
  intros Hl H1 H2. apply flat_map_nil. intros e He.
  rewrite forallb_forall in Hl. specialize (Hl _ He).
  destruct e; [discriminate|apply H1|apply H2].
Qed.

Lemma benchmark_flat_map {B} (f : event -> list B) l :
  forallb is_benchmark_event l = true ->
  (forall k g l r, f (Call (clEnqueueNDRangeKernel k g l) r) = []) ->
  (forall ev r, f (Call (clWaitForEvents ev) r) = []) ->
  (forall ev what r, f (Call (clGetEventProfilingInfo ev what) r) = []) ->
  flat_map f l = [].
Proof.
  intros Hl H1 H2 H3. apply flat_map_nil. intros e He.
  rewrite forallb_forall in Hl. specialize (Hl _ He).
  destruct e as [c r| |]; try discriminate.
  destruct c; try discriminate; auto.
Qed.

(** The events of a run of [withInput] that returns. *)
Lemma withInput_shape W kernel p input verifyResults s b s' :
  withInput W kernel p input verifyResults s = (Ok b, s') ->
  let N := Z.of_nat (length input) in
  exists r0,
    (b = false
     /\ trace s' = trace s ++ [Call clGetDeviceInfo_LOCAL_MEM_SIZE r0;
                               Cout msg_not_enough_local_memory])
    \/ (b = true
        /\ exists pro bev epi r1 r2 r3 r4 r5 r6 r7 r8 r9 g us,
            trace s' =
              trace s ++ Call clGetDeviceInfo_LOCAL_MEM_SIZE r0 :: pro
              ++ [Call (clCreateImage CL_MEM_READ_ONLY N) r1;
                  Call (clCreateImage CL_MEM_WRITE_ONLY (to_size_t (2 * N))) r2;
                  Call (clEnqueueWriteImage (out r1) false (N / 4) input) r3;
                  Call (clSetKernelArg kernel 0 (sizeof_cl_mem W)
                          (Some (out r1))) r4;
                  Call (clSetKernelArg kernel 1 (sizeof_cl_mem W)
                          (Some (out r2))) r5;
                  Call (clSetKernelArg kernel 2 (local_memory_needed W N)
                          None) r6;
                  Cout (msg_global_size g)]
              ++ bev
              ++ [Cout (msg_avg_kernel_duration us);
                  Call (clEnqueueReadImage (out r2) true (N / 2)) r7]
              ++ epi
              ++ [Call (clReleaseMemObject (out r1)) r8;
                  Call (clReleaseMemObject (out r2)) r9]
            /\ forallb (fun e => negb (is_call e)) pro = true
            /\ forallb is_benchmark_event bev = true
            /\ forallb (fun e => negb (is_call e)) epi = true
            /\ exists rs,
                length rs = Z.to_nat (nSkipIterations + nIterations)
                /\ bev = flat_map
                           (execution kernel (N / to_size_t (2 * p))
                              (N / to_size_t (2 * p))) rs).
Proof.
  intros Hrun N.
  apply withInput_inv in Hrun as [_ [_ [_ [[-> [_ ->]]|[-> [_ Hrun]]]]]].
  - eexists. left. split; [reflexivity|].
    cbn [after_emit after_call trace]. now rewrite <- app_assoc.
  - apply withInput_run_shape in Hrun.
    destruct Hrun as (pro & bev & epi & r1 & r2 & r3 & r4 & r5 & r6 & r7 & r8
                      & r9 & g & us & Ht & Hp & Hb & He & _ & -> & Hrs).
    eexists. right. split; [reflexivity|].
    exists pro, bev, epi, r1, r2, r3, r4, r5, r6, r7, r8, r9.
    eexists _, us.
    split; [|now repeat split].
    rewrite Ht. cbn [after_call trace]. now rewrite <- app_assoc.
Qed.

Lemma flat_map_step {A B} (f : A -> list B) a l :
  flat_map f (a :: l) = f a ++ flat_map f l.
Proof. reflexivity. Qed.

Ltac ledger_of_shape Hp Hb He :=
  repeat first [rewrite flat_map_app | rewrite flat_map_step];
  rewrite ?(quiet_flat_map _ _ Hp), ?(quiet_flat_map _ _ He),
    ?(benchmark_flat_map _ _ Hb) by (intros; reflexivity);
  cbn [flat_map app is_benchmark_event].

(** What a run of [withInput] that returns leaves in the ledgers. *)
Lemma withInput_ledger W kernel p input verifyResults s b s' :
  withInput W kernel p input verifyResults s = (Ok b, s') ->
  exists evs,
    trace s' = trace s ++ evs
    /\ released_images evs = created_images evs
    /\ length (created_images evs) = (if b then 2 else 0)%nat
    /\ created_programs evs = [] /\ released_programs evs = []
    /\ created_kernels evs = [] /\ released_kernels evs = [].
Proof.
  intros Hrun. apply withInput_shape in Hrun.
  destruct Hrun as [r0 [[-> Ht]|[-> Hrun]]].
  - eexists. split; [exact Ht|]. repeat split; reflexivity.
  - destruct Hrun as (pro & bev & epi & r1 & r2 & r3 & r4 & r5 & r6 & r7 & r8
                      & r9 & g & us & Ht & Hp & Hb & He & Hrs).
    eexists. split; [exact Ht|].
    unfold released_images, created_images, created_programs,
      released_programs, created_kernels, released_kernels.
    ledger_of_shape Hp Hb He.
    repeat split; reflexivity.
Qed.

(** The API calls of a run of [withInput] that returns [true], apart
    from those of the benchmark loop: the query of the local-memory size,
    the read-only input image of [N] pixels and the write-only output
    image of [2*N], the non-blocking write of the input into the input
    image, the kernel arguments 0, 1 and 2 (the input image, the output
    image, the local memory), the blocking read from the output image, and
    the release of the two images, in this order.  A run that returns
    [false] has made the query only. *)
Theorem withInput_call_protocol :
  forall W kernel p input verifyResults s,
  let N := Z.of_nat (length input) in
  exists evs,
    trace (snd (withInput W kernel p input verifyResults s)) = trace s ++ evs
    /\ (fst (withInput W kernel p input verifyResults s) = Ok true ->
        exists input_image output_image,
          created_images evs = [input_image; output_image]
          /\ released_images evs = [input_image; output_image]
          /\ setup_calls evs =
             [clGetDeviceInfo_LOCAL_MEM_SIZE;
              clCreateImage CL_MEM_READ_ONLY N;
              clCreateImage CL_MEM_WRITE_ONLY (to_size_t (2 * N));
              clEnqueueWriteImage input_image false (N / 4) input;
              clSetKernelArg kernel 0 (sizeof_cl_mem W) (Some input_image);
              clSetKernelArg kernel 1 (sizeof_cl_mem W) (Some output_image);
              clSetKernelArg kernel 2 (local_memory_needed W N) None;
              clEnqueueReadImage output_image true (N / 2);
              clReleaseMemObject input_image;
              clReleaseMemObject output_image])
    /\ (fst (withInput W kernel p input verifyResults s) = Ok false ->
        setup_calls evs = [clGetDeviceInfo_LOCAL_MEM_SIZE]).
Proof.
  intros W kernel p input verifyResults s N.
  destruct (withInput W kernel p input verifyResults s) as [res s'] eqn:Hrun.
  cbn [fst snd].
  destruct res as [b| |].
  - apply withInput_shape in Hrun.
    destruct Hrun as [r0 [[-> Ht]|[-> Hrun]]].
    + eexists. split; [exact Ht|]. split; [discriminate|].
      intros _. reflexivity.
    + destruct Hrun as (pro & bev & epi & r1 & r2 & r3 & r4 & r5 & r6 & r7
                        & r8 & r9 & g & us & Ht & Hp & Hb & He & Hrs).
      eexists. split; [exact Ht|]. split; [|discriminate].
      intros _. exists (out r1), (out r2).
      unfold setup_calls, created_images, released_images.
      ledger_of_shape Hp Hb He. repeat split; reflexivity.
  - destruct (withInput_emits W kernel p input verifyResults s)
      as [evs [Hevs _]].
    rewrite Hrun in Hevs. exists evs. split; [exact Hevs|].
    split; discriminate.
  - destruct (withInput_emits W kernel p input verifyResults s)
      as [evs [Hevs _]].
    rewrite Hrun in Hevs. exists evs. split; [exact Hevs|].
    split; discriminate.
Qed.


(** A power of two from 2 on is even, and a multiple of 4 unless it is
    2. *)
Lemma power_of_two_halves N :
  is_power_of_two N = true -> 2 <= N ->
  2 * (N / 2) = N /\ (4 <= N -> 4 * (N / 4) = N) /\ (N < 4 -> N = 2).
Proof.
  unfold is_power_of_two. intros H HN.
  apply andb_prop in H as [_ H]. apply Z.eqb_eq in H.
  set (k := Z.log2 N) in *.
  assert (Hk : 1 <= k).
  { subst k. apply Z.log2_le_pow2; lia. }
  destruct (Z.eq_dec k 1) as [E|E].
  - rewrite E in H. change (2 ^ 1) with 2 in H. subst N.
    repeat split; try reflexivity; lia.
  - replace k with (2 + (k - 2)) in H by lia.
    rewrite Z.pow_add_r in H by lia. change (2 ^ 2) with 4 in H.
    assert (0 < 2 ^ (k - 2)) by (apply Z.pow_pos_nonneg; lia).
    set (q := 2 ^ (k - 2)) in *.
    repeat split.
    + replace N with (2 * q * 2) by lia. rewrite Z.div_mul; lia.
    + intros _. replace N with (q * 4) by lia. rewrite Z.div_mul; lia.
    + lia.
Qed.

(** A run of [withInput] that returns [true] writes a region of [N/4]
    pixels and reads one of [N/2] pixels of four floats each: the read
    covers the [N] complex outputs, the write covers the [N] inputs when
    [N >= 4]; for [N = 2], which the precondition admits, the region
    written is empty. *)
Theorem withInput_transfers_cover_the_data :
  forall W kernel p input verifyResults s,
  let N := Z.of_nat (length input) in
  exists evs,
    trace (snd (withInput W kernel p input verifyResults s)) = trace s ++ evs
    /\ (fst (withInput W kernel p input verifyResults s) = Ok true ->
        write_regions evs = [N / 4]
        /\ read_regions evs = [N / 2]
        /\ 2 * (N / 2) = N
        /\ (4 <= N -> 4 * (N / 4) = N)
        /\ (N < 4 -> N = 2 /\ N / 4 = 0)).
Proof.
  intros W kernel p input verifyResults s N.
  destruct (withInput W kernel p input verifyResults s) as [res s'] eqn:Hrun.
  cbn [fst snd].
  destruct (withInput_emits W kernel p input verifyResults s)
    as [evs [Hevs _]].
  rewrite Hrun in Hevs. cbn [snd] in Hevs.
  exists evs. split; [exact Hevs|]. intros ->.
  pose proof (withInput_inv _ _ _ _ _ _ _ _ Hrun) as [Hpow [Hge _]].
  fold N in Hpow, Hge.
  apply withInput_shape in Hrun.
  destruct Hrun as [r0 [[Hb _]|[_ Hrun]]]; [discriminate|].
  destruct Hrun as (pro & bev & epi & r1 & r2 & r3 & r4 & r5 & r6 & r7
                    & r8 & r9 & g & us & Ht & Hp & Hb & He & Hrs).
  rewrite Ht in Hevs. apply app_inv_head in Hevs. subst evs.
  destruct (power_of_two_halves N Hpow Hge) as [H2 [H4 Hlt]].
  unfold write_regions, read_regions.
  ledger_of_shape Hp Hb He. fold N.
  repeat split; try assumption.
  - now apply Hlt.
  - rewrite (Hlt H). reflexivity.
Qed.

(** With [verifyResults] false no run of [withInput] makes a comparison
    or prints a message of the verification. *)
Theorem verification_only_on_request :
  forall W kernel p input s,
  exists evs,
    trace (snd (withInput W kernel p input false s)) = trace s ++ evs
    /\ Forall (fun e => is_verification e = false) evs.
Proof.
  intros W kernel p input.
  change (emits (withInput W kernel p input false)
            (fun e => is_verification e = false)).
  unfold withInput, withInput_run.
  repeat first [ apply benchmark_loop_emits; auto
               | emits_step; auto ].
Qed.


Lemma filter_quiet (f : event -> bool) l :
  forallb (fun e => negb (is_call e)) l = true ->
  (forall m, f (Cout m) = false) ->
  (forall which epsilon equal, f (Verified which epsilon equal) = false) ->
  filter f l = [].
Proof.
  intros Hl H1 H2. induction l as [|e l IH]; [reflexivity|].
  cbn [forallb] in Hl. apply andb_prop in Hl as [He Hl].
  cbn [filter]. rewrite IH by assumption.
  destruct e; [discriminate|now rewrite H1|now rewrite H2].
Qed.

Lemma filter_all {A} (f : A -> bool) l :
  forallb f l = true -> filter f l = l.
Proof.
  induction l as [|a l IH]; [reflexivity|]. cbn [forallb filter].
  intros H. apply andb_prop in H as [Ha H]. now rewrite Ha, IH.
Qed.

(** In a run of [withInput] that returns [true] the calls of the
    benchmark loop come in 3005 groups of four: the kernel is enqueued with
    the global and local size [N / (2*p)], the event of that execution is
    waited for, and its start and its end are queried, before the next
    execution is enqueued. *)
Theorem benchmark_profiles_each_execution :
  forall W kernel p input verifyResults s,
  let g := Z.of_nat (length input) / to_size_t (2 * p) in
  exists evs,
    trace (snd (withInput W kernel p input verifyResults s)) = trace s ++ evs
    /\ (fst (withInput W kernel p input verifyResults s) = Ok true ->
        exists rs,
          Z.of_nat (length rs) = nSkipIterations + nIterations
          /\ filter is_benchmark_event evs
             = flat_map (execution kernel g g) rs).
Proof.
  intros W kernel p input verifyResults s g.
  destruct (withInput W kernel p input verifyResults s) as [res s'] eqn:Hrun.
  cbn [fst snd].
  destruct (withInput_emits W kernel p input verifyResults s)
    as [evs [Hevs _]].
  rewrite Hrun in Hevs. cbn [snd] in Hevs.
  exists evs. split; [exact Hevs|]. intros ->.
  apply withInput_shape in Hrun.
  destruct Hrun as [r0 [[Hb _]|[_ Hrun]]]; [discriminate|].
  destruct Hrun as (pro & bev & epi & r1 & r2 & r3 & r4 & r5 & r6 & r7
                    & r8 & r9 & g' & us & Ht & Hp & Hb & He & rs & Hn & Hrs).
  rewrite Ht in Hevs. apply app_inv_head in Hevs. subst evs.
  exists rs. split; [rewrite Hn; reflexivity|].
  cbn [filter is_benchmark_event]. rewrite !filter_app.
  rewrite (filter_quiet _ pro Hp), (filter_quiet _ epi He)
    by (intros; reflexivity).
  cbn [filter is_benchmark_event app].
  rewrite (filter_all _ bev Hb), app_nil_r. exact Hrs.
Qed.

End WithInputProtocol.

Section WithInputEdges.
Import Mach FP CL Obs Prog Ledger Checks.

(** A per-thread count of 0: once the local-memory test has passed and the
    images and kernel arguments are set up, [2*nButterfliesPerThread] is 0
    and the global size [input.size()/(2*nButterfliesPerThread)] divides by
    zero; no kernel has been enqueued, and the two images are not
    released. *)
Theorem withInput_divides_by_zero_count :
  forall W kernel input verifyResults s,
    all_succeed W ->
    is_power_of_two (Z.of_nat (length input)) = true ->
    2 <= Z.of_nat (length input) ->
    Z.of_nat (length input) * sizeof_complex_float W <= PTRDIFF_MAX ->
    local_memory_needed W (Z.of_nat (length input))
    <= to_size_t (out (device W (ncalls s) clGetDeviceInfo_LOCAL_MEM_SIZE)) ->
    sizeof_complex_float W = 2 * sizeof_float W ->
    exists evs,
      fst (withInput W kernel 0 input verifyResults s) = Err UndefinedBehaviour
      /\ trace (snd (withInput W kernel 0 input verifyResults s))
         = trace s ++ evs
      /\ filter is_enqueue evs = []
      /\ length (created_images evs) = 2%nat
      /\ released_images evs = [].
Proof.
  intros W kernel input verifyResults s HW Hpow Hge Hmax Hmem Hsz.
  rewrite withInput_sufficient by assumption.
  unfold withInput_run.
  match goal with
  | |- context [bind ?m _ ?s0] =>
      assert (Hpro : exists pro,
                 m s0 = (Ok tt, {| trace := trace s0 ++ pro;
                                   ncalls := ncalls s0; ndraws := ndraws s0 |})
                 /\ forallb (fun e => negb (is_call e)) pro = true)
  end.
  { destruct verifyResults.
    - eexists [_; _; _; _; _]. split.
      + cbv [bind print emit verifyVectorsAreEqual].
        cbn [trace ncalls ndraws]. now rewrite <- !app_assoc.
      + reflexivity.
    - exists []. rewrite app_nil_r. split; reflexivity. }
  destruct Hpro as [pro [Hpro Hq]].
  rewrite (bind_Ok _ _ _ _ _ Hpro). clear Hpro.
  rewrite bind_verify, Z.eqb_refl.
  rewrite bind_call_CHECK by assumption.
  rewrite bind_verify, Hsz, Z.eqb_refl.
  rewrite !bind_call_CHECK by assumption.
  change (2 * 0) with 0.
  change (in_int 0) with true. cbn iota. rewrite bind_pure.
  change (to_size_t 0 =? 0) with true. cbn iota.
  rewrite bind_raise. cbn [fst snd after_call trace ncalls].
  eexists. split; [reflexivity|]. split.
  { rewrite <- !app_assoc. cbn [app]. reflexivity. }
  unfold created_images, released_images.
  cbn [filter is_enqueue flat_map app].
  rewrite filter_app, !flat_map_app.
  rewrite (filter_quiet _ pro Hq), !(quiet_flat_map _ pro Hq)
    by (intros; reflexivity).
  repeat split; reflexivity.
Qed.

(** The theorem on an input of 8 elements. *)
Lemma withInput_divides_by_zero_count_at_8 :
  exists evs,
    fst (withInput Sample.large_world 7 0 Sample.eight_zeros true initial)
    = Err UndefinedBehaviour
    /\ trace (snd (withInput Sample.large_world 7 0 Sample.eight_zeros true
                     initial))
       = trace initial ++ evs
    /\ filter is_enqueue evs = []
    /\ length (created_images evs) = 2%nat
    /\ released_images evs = [].
Proof.
  apply (withInput_divides_by_zero_count Sample.large_world 7
           Sample.eight_zeros true initial).
  - apply steady_device_succeeds.
  - reflexivity.
  - vm_compute. discriminate.
  - vm_compute. discriminate.
  - vm_compute. discriminate.
  - reflexivity.
Defined.

End WithInputEdges.

(** ** Failing calls *)

Section FailFastRules.
Import Mach FP CL Obs Prog Checks.

Lemma ff_pure {A} (a : A) : fails_fast (pure a).
Proof. intros s. exists []. now rewrite app_nil_r. Qed.

Lemma ff_out_of_fuel {A} : fails_fast (@out_of_fuel A).
Proof. intros s. exists []. now rewrite app_nil_r. Qed.

Lemma ff_raise {A} e :
  (forall status, e <> ClError status) -> fails_fast (@raise A e).
Proof.
  intros H s. exists []. rewrite app_nil_r. split; [reflexivity|].
  cbn. destruct e; try reflexivity. now destruct (H status).
Qed.

Lemma ff_verify cond : fails_fast (verify cond).
Proof. destruct cond; [apply ff_pure|now apply ff_raise]. Qed.

Lemma ff_emit e : went_well e = true -> fails_fast (emit e).
Proof.
  intros H s. exists [e]. split; [reflexivity|]. cbn. now rewrite H.
Qed.

Lemma ff_draw W n : fails_fast (draw W n).
Proof. intros s. exists []. cbn. now rewrite app_nil_r. Qed.

Lemma ff_bind {A B} (m : M A) (f : A -> M B) :
  fails_fast m -> (forall a, fails_fast (f a)) -> fails_fast (bind m f).
Proof.
  intros Hm Hf s. unfold bind. destruct (Hm s) as [e1 [H1 F1]].
  destruct (m s) as [[a| |] s1] eqn:E; cbn [fst snd] in *;
    try (now exists e1).
  destruct (Hf a s1) as [e2 [H2 F2]].
  exists (e1 ++ e2). rewrite H2, H1, app_assoc. split; [reflexivity|].
  destruct (fst (f a s1)) as [b|e|]; cbn [fail_fast] in *;
    try (rewrite forallb_app, F1, F2; reflexivity).
  destruct e; try (rewrite forallb_app, F1, F2; reflexivity).
  destruct F2 as [Hst [evs' [c [r [-> [Hc [Hr Hw]]]]]]].
  split; [assumption|]. exists (e1 ++ evs'), c, r.
  rewrite app_assoc, forallb_app, F1, Hw. now repeat split.
Qed.

Lemma ff_call_CHECK {B} W c (k : response -> M B) :
  is_checked c = true ->
  (forall r, fails_fast (k r)) ->
  fails_fast (bind (call W c)
                (fun r => bind (CHECK_CL_ERROR (ret r)) (fun _ => k r))).
Proof.
  intros Hc Hk s. rewrite bind_call, bind_CHECK.
  destruct (Z.eqb_spec (ret (device W (ncalls s) c)) CL_SUCCESS) as [Hz|Hz].
  - destruct (Hk (device W (ncalls s) c) (after_call W c s)) as [evs [Ht HF]].
    eexists (_ :: evs). rewrite Ht. cbn [after_call trace].
    rewrite <- app_assoc. split; [reflexivity|].
    assert (Hw : went_well (Call c (device W (ncalls s) c)) = true).
    { cbn. apply orb_true_iff. right. now apply Z.eqb_eq. }
    destruct (fst (k _ _)) as [b|e|]; cbn [fail_fast forallb] in *;
      try (now rewrite Hw).
    destruct e; try (now rewrite Hw).
    destruct HF as [Hst [evs' [c' [r' [-> [Hc' [Hr' Hw']]]]]]].
    split; [assumption|]. eexists (_ :: evs'), c', r'.
    cbn [forallb]. rewrite Hw, Hw'. now repeat split.
  - eexists [_]. cbn [fst snd after_call trace]. split; [reflexivity|].
    split; [assumption|]. exists [], c, (device W (ncalls s) c).
    now repeat split.
Qed.

Lemma ff_call_CHECK_last W c :
  is_checked c = true ->
  fails_fast (bind (call W c) (fun r => CHECK_CL_ERROR (ret r))).
Proof.
  intros Hc s. rewrite bind_call. unfold CHECK_CL_ERROR.
  destruct (Z.eqb_spec (ret (device W (ncalls s) c)) CL_SUCCESS) as [Hz|Hz].
  - eexists [_]. cbn [pure fst snd after_call trace]. split; [reflexivity|].
    cbn. rewrite Hz. cbn. now rewrite orb_true_r.
  - eexists [_]. cbn [raise fst snd after_call trace]. split; [reflexivity|].
    split; [assumption|]. exists [], c, (device W (ncalls s) c).
    now repeat split.
Qed.

Lemma ff_call_unchecked {B} W (k : response -> M B) :
  (forall r, fails_fast (k r)) ->
  fails_fast (bind (call W clGetDeviceInfo_LOCAL_MEM_SIZE) k).
Proof.
  intros Hk s. rewrite bind_call.
  destruct (Hk (device W (ncalls s) clGetDeviceInfo_LOCAL_MEM_SIZE)
              (after_call W clGetDeviceInfo_LOCAL_MEM_SIZE s)) as [evs [Ht HF]].
  eexists (_ :: evs). rewrite Ht. cbn [after_call trace].
  rewrite <- app_assoc. split; [reflexivity|].
  destruct (fst (k _ _)) as [b|e|]; cbn [fail_fast forallb] in *;
    try assumption.
  destruct e; try assumption.
  destruct HF as [Hst [evs' [c' [r' [-> [Hc' [Hr' Hw']]]]]]].
  split; [assumption|]. eexists (_ :: evs'), c', r'.
  cbn [forallb]. now repeat split.
Qed.

End FailFastRules.

(** Splits a goal [fails_fast m] along the structure of [m]. *)
Ltac ff_step :=
  match goal with
  | |- Checks.fails_fast (CL.bind (CL.call _ CL.clGetDeviceInfo_LOCAL_MEM_SIZE) _) =>
      apply ff_call_unchecked; intros ?
  | |- Checks.fails_fast
         (CL.bind (CL.call _ _) (fun r => CL.CHECK_CL_ERROR (CL.ret r))) =>
      apply ff_call_CHECK_last; reflexivity
  | |- Checks.fails_fast (CL.bind (CL.call _ _) _) =>
      apply ff_call_CHECK; [reflexivity|intros ?]
  | |- Checks.fails_fast (CL.bind _ _) => apply ff_bind; [|intros ?]
  | |- Checks.fails_fast (CL.pure _) => apply ff_pure
  | |- Checks.fails_fast (CL.raise _) => apply ff_raise; discriminate
  | |- Checks.fails_fast CL.out_of_fuel => apply ff_out_of_fuel
  | |- Checks.fails_fast (CL.verify _) => apply ff_verify
  | |- Checks.fails_fast (CL.print _) => apply ff_emit; reflexivity
  | |- Checks.fails_fast (CL.emit _) => apply ff_emit; reflexivity
  | |- Checks.fails_fast (Prog.verifyVectorsAreEqual _ _ _ _) =>
      apply ff_emit; reflexivity
  | |- Checks.fails_fast (CL.draw _ _) => apply ff_draw
  | |- Checks.fails_fast (if ?b then _ else _) => destruct b
  | |- Checks.fails_fast (match ?x with _ => _ end) => destruct x
  | |- Checks.fails_fast (let _ := _ in _) => cbv zeta
  end.

Section FailFastRuns.
Import Mach FP CL Obs Prog Checks.

Lemma ff_release W program kernel : fails_fast (release W program kernel).
Proof. unfold release. repeat ff_step. Qed.

Lemma ff_ScopedKernel_loop W src nb fuel :
  forall p, fails_fast (ScopedKernel_loop fuel W src nb p).
Proof.
  induction fuel as [|fuel IH]; intros p; cbn [ScopedKernel_loop].
  - apply ff_out_of_fuel.
  - repeat first [apply IH | apply ff_release | ff_step].
Qed.

Lemma ff_benchmark_loop W kernel g l :
  forall n i elapsed, fails_fast (benchmark_loop n W kernel g l i elapsed).
Proof.
  induction n as [|n IH]; intros i elapsed; cbn [benchmark_loop].
  - apply ff_pure.
  - repeat first [apply IH | ff_step].
Qed.

Lemma ff_withInput W kernel p input verifyResults :
  fails_fast (withInput W kernel p input verifyResults).
Proof.
  unfold withInput, withInput_run.
  repeat first [apply ff_benchmark_loop | ff_step].
Qed.

Lemma ff_sweep W fuel :
  forall n sz, fails_fast (sweep n fuel W sz).
Proof.
  induction n as [|n IH]; intros sz; cbn [sweep].
  - apply ff_out_of_fuel.
  - unfold sweep_iteration, ScopedKernel_ctor.
    repeat first [apply IH | apply ff_ScopedKernel_loop | apply ff_withInput
                 | apply ff_release | ff_step].
Qed.

(** The calls of the program stop at the first checked call that fails:
    in every run of the constructor, of [withInput] and of [main], all
    calls whose status is checked succeeded, except that a run which ends
    with the error of a call has that call, with that status, as its last
    event.  The one call whose status is not checked is the query of the
    local-memory size in [withInput]. *)
Theorem program_stops_at_first_failed_call :
  forall fuel W,
    (forall src N, fails_fast (ScopedKernel_ctor fuel W src N))
    /\ (forall kernel p input verifyResults,
           fails_fast (withInput W kernel p input verifyResults))
    /\ fails_fast (main fuel W).
Proof.
  intros fuel W. split; [|split].
  - intros src N. apply ff_ScopedKernel_loop.
  - apply ff_withInput.
  - unfold main.
    repeat first [apply ff_sweep | ff_step].
Qed.

End FailFastRuns.

(** ** [main] *)

Section SweepSizes.
Import Mach FP CL Obs Prog Ledger Checks.

(** *** The sizes of the sweep *)

Lemma input_sizes_quiet evs : Forall not_a_size evs -> input_sizes evs = [].
Proof.
  intros H. apply flat_map_nil. intros e He.
  rewrite Forall_forall in H. specialize (H _ He).
  destruct e as [c r|m|]; try reflexivity. now destruct m.
Qed.

Lemma session_calls_quiet evs :
  Forall not_of_session evs -> session_calls evs = [].
Proof.
  intros H. apply flat_map_nil. intros e He.
  rewrite Forall_forall in H. specialize (H _ He).
  destruct e as [c r|m|]; try reflexivity. cbn in H. now rewrite H.
Qed.

Lemma inner_not_a_size e : is_inner e = true -> not_a_size e.
Proof. destruct e as [c r|m|]; try exact (fun _ => I). now destruct m. Qed.

Lemma inner_not_of_session e : is_inner e = true -> not_of_session e.
Proof.
  destruct e as [c r|m|]; try exact (fun _ => I).
  cbn. now destruct (is_session_call c).
Qed.

Section Inner.
Variable Q : event -> Prop.
Hypothesis HQ : forall e, is_inner e = true -> Q e.

Lemma release_inner W program kernel : emits (release W program kernel) Q.
Proof. apply release_emits; intros; now apply HQ. Qed.

Lemma ScopedKernel_loop_inner W src nb fuel :
  forall p, emits (ScopedKernel_loop fuel W src nb p) Q.
Proof.
  induction fuel as [|fuel IH]; intros p; cbn [ScopedKernel_loop].
  - apply emits_out_of_fuel.
  - repeat first [apply IH | apply release_inner
                 | emits_step; try (now apply HQ)].
Qed.

Lemma withInput_inner W kernel p input verifyResults :
  emits (withInput W kernel p input verifyResults) Q.
Proof.
  unfold withInput, withInput_run.
  repeat first [ apply benchmark_loop_emits; intros; now apply HQ
               | emits_step; try (now apply HQ) ].
Qed.

End Inner.

Lemma sweep_iteration_sizes fuel W sz s :
  exists evs,
    trace (snd (sweep_iteration fuel W sz s)) = trace s ++ evs
    /\ input_sizes evs = [sz].
Proof.
  unfold sweep_iteration. rewrite bind_print.
  match goal with
  | |- context [snd (?m (after_emit ?e s))] =>
      assert (Hm : emits m not_a_size)
  end.
  { unfold ScopedKernel_ctor.
    repeat first [ apply ScopedKernel_loop_inner; apply inner_not_a_size
                 | apply withInput_inner; apply inner_not_a_size
                 | apply release_inner; apply inner_not_a_size
                 | emits_step; try exact I ]. }
  destruct (Hm (after_emit (Cout (msg_input_size sz)) s)) as [evs [Ht HF]].
  exists (Cout (msg_input_size sz) :: evs). rewrite Ht.
  cbn [after_emit trace]. rewrite <- app_assoc. split; [reflexivity|].
  cbn [input_sizes flat_map]. fold (input_sizes evs).
  now rewrite input_sizes_quiet.
Qed.

Lemma sweep_sizes fuel W :
  forall n i s,
    (i <= 21)%nat ->
    exists evs k,
      trace (snd (sweep n fuel W (8 * 2 ^ Z.of_nat i) s)) = trace s ++ evs
      /\ (i + k <= 21)%nat
      /\ input_sizes evs = doubling i k.
Proof.
  induction n as [|n IH]; intros i s Hi.
  - exists [], 0%nat. cbn. rewrite app_nil_r. repeat split; lia.
  - cbn [sweep].
    destruct (Z.ltb_spec (8 * 2 ^ Z.of_nat i) 10000000) as [Hlt|Hge].
    2: { exists [], 0%nat. cbn. rewrite app_nil_r. repeat split; lia. }
    assert (Hi' : (i <= 20)%nat).
    { destruct (Nat.eq_dec i 21) as [->|]; [|lia].
      exfalso. revert Hlt. vm_compute. discriminate. }
    destruct (sweep_iteration_sizes fuel W (8 * 2 ^ Z.of_nat i) s)
      as [evs1 [Ht1 Hs1]].
    unfold bind.
    destruct (sweep_iteration fuel W (8 * 2 ^ Z.of_nat i) s)
      as [[[|]| |] s1]; cbn [snd] in Ht1 |- *;
      try (exists evs1, 1%nat; split; [exact Ht1|]; split; [lia|];
           rewrite Hs1; reflexivity).
    assert (Hnext : to_int (8 * 2 ^ Z.of_nat i * 2)
                    = 8 * 2 ^ Z.of_nat (S i)).
    { rewrite Nat2Z.inj_succ, Z.pow_succ_r by lia.
      assert (2 ^ Z.of_nat i <= 2 ^ 20)
        by (apply Z.pow_le_mono_r; lia).
      assert (0 < 2 ^ Z.of_nat i) by (apply Z.pow_pos_nonneg; lia).
      rewrite to_int_id; [ring|]. unfold INT_MIN, INT_MAX. lia. }
    rewrite Hnext.
    destruct (IH (S i) s1 ltac:(lia)) as [evs2 [k [Ht2 [Hk Hs2]]]].
    exists (evs1 ++ evs2), (S k). rewrite Ht2, Ht1, app_assoc.
    split; [reflexivity|]. split; [lia|].
    unfold input_sizes in *. rewrite flat_map_app, Hs1, Hs2. reflexivity.
Qed.

Lemma is_power_of_two_pow2 k : 0 <= k -> is_power_of_two (2 ^ k) = true.
Proof.
  intros Hk. unfold is_power_of_two.
  assert (0 < 2 ^ k) by (apply Z.pow_pos_nonneg; lia).
  rewrite Z.log2_pow2 by assumption.
  rewrite Z.eqb_refl, andb_true_r. now apply Z.ltb_lt.
Qed.

Lemma doubling_sizes first n :
  (first + n <= 21)%nat ->
  Forall (fun sz => is_power_of_two sz = true /\ 8 <= sz <= 8388608)
    (doubling first n).
Proof.
  intros H. unfold doubling. apply Forall_forall. intros sz Hsz.
  apply in_map_iff in Hsz as [i [<- Hi]]. apply in_seq in Hi.
  replace (8 * 2 ^ Z.of_nat i) with (2 ^ (3 + Z.of_nat i))
    by (rewrite Z.pow_add_r by lia; reflexivity).
  split; [apply is_power_of_two_pow2; lia|].
  change 8 with (2 ^ 3) at 1. change 8388608 with (2 ^ 23).
  split; apply Z.pow_le_mono_r; lia.
Qed.

Lemma announces_quiet_bind {A B} (m : M A) (f : A -> M B) :
  emits m not_a_size -> (forall a, announces (f a)) -> announces (bind m f).
Proof.
  intros Hm Hf s. unfold bind. destruct (Hm s) as [e1 [H1 F1]].
  destruct (m s) as [[a| |] s1]; cbn [snd] in *;
    try (exists e1, 0%nat; split; [assumption|]; split; [lia|];
         now apply input_sizes_quiet).
  destruct (Hf a s1) as [e2 [n [H2 [Hn Hs]]]].
  exists (e1 ++ e2), n. rewrite H2, H1, app_assoc. split; [reflexivity|].
  split; [assumption|].
  unfold input_sizes in *. rewrite flat_map_app, Hs.
  fold (input_sizes e1). now rewrite input_sizes_quiet.
Qed.

Lemma announces_bind_quiet {A B} (m : M A) (f : A -> M B) :
  announces m -> (forall a, emits (f a) not_a_size) -> announces (bind m f).
Proof.
  intros Hm Hf s. unfold bind. destruct (Hm s) as [e1 [n [H1 [Hn Hs]]]].
  destruct (m s) as [[a| |] s1]; cbn [snd] in *; try (now exists e1, n).
  destruct (Hf a s1) as [e2 [H2 F2]].
  exists (e1 ++ e2), n. rewrite H2, H1, app_assoc. split; [reflexivity|].
  split; [assumption|].
  unfold input_sizes in *. rewrite flat_map_app, Hs.
  fold (input_sizes e2). rewrite input_sizes_quiet by assumption.
  apply app_nil_r.
Qed.

(** The sizes [main] announces are the first [n] of 8, 16, 32, ..., for
    some [n] up to 21: each is a power of two between 8 and 8388608, and
    [sz *= 2] never leaves the range of [int]. *)
Theorem main_sweeps_doubling_sizes :
  forall fuel W s,
  exists evs n,
    trace (snd (main fuel W s)) = trace s ++ evs
    /\ (n <= 21)%nat
    /\ input_sizes evs = doubling 0 n
    /\ Forall (fun sz => is_power_of_two sz = true /\ 8 <= sz <= 8388608)
         (input_sizes evs).
Proof.
  intros fuel W s.
  assert (H : announces (main fuel W)).
  { unfold main.
    do 8 (apply announces_quiet_bind; [emits_step; exact I|intros ?]).
    apply announces_bind_quiet.
    - intros s0. apply (sweep_sizes fuel W 32 0 s0). lia.
    - intros _. repeat (emits_step; try exact I). }
  destruct (H s) as [evs [n [Ht [Hn Hs]]]].
  exists evs, n. repeat split; try assumption.
  rewrite Hs. now apply doubling_sizes.
Qed.

(** *** Preconditions *)

Lemma np_pure {A} (a : A) : never_fails_precondition (pure a).
Proof. intros s. reflexivity. Qed.

Lemma np_out_of_fuel {A} : never_fails_precondition (@out_of_fuel A).
Proof. intros s. reflexivity. Qed.

Lemma np_raise {A} e :
  e <> PreconditionFailure -> never_fails_precondition (@raise A e).
Proof. intros H s. cbn. now destruct e. Qed.

Lemma np_CHECK status : never_fails_precondition (CHECK_CL_ERROR status).
Proof.
  unfold CHECK_CL_ERROR. destruct (status =? CL_SUCCESS);
    [apply np_pure|now apply np_raise].
Qed.

Lemma np_emit e : never_fails_precondition (emit e).
Proof. intros s. reflexivity. Qed.

Lemma np_call W c : never_fails_precondition (call W c).
Proof. intros s. reflexivity. Qed.

Lemma np_draw W n : never_fails_precondition (draw W n).
Proof. intros s. reflexivity. Qed.

Lemma np_bind {A B} (m : M A) (f : A -> M B) :
  never_fails_precondition m ->
  (forall a, returns m a -> never_fails_precondition (f a)) ->
  never_fails_precondition (bind m f).
Proof.
  intros Hm Hf s. unfold bind. specialize (Hm s).
  destruct (m s) as [[a| |] s1] eqn:E; cbn [fst] in *; try assumption.
  apply Hf. exists s. now rewrite E.
Qed.

End SweepSizes.

(** Splits a goal [never_fails_precondition m] along the structure of
    [m]. *)
Ltac np_step :=
  match goal with
  | |- Checks.never_fails_precondition (CL.bind _ _) => apply np_bind; [|intros ? ?]
  | |- Checks.never_fails_precondition (CL.pure _) => apply np_pure
  | |- Checks.never_fails_precondition (CL.raise _) => apply np_raise; discriminate
  | |- Checks.never_fails_precondition CL.out_of_fuel => apply np_out_of_fuel
  | |- Checks.never_fails_precondition (CL.CHECK_CL_ERROR _) => apply np_CHECK
  | |- Checks.never_fails_precondition (CL.verify true) => apply np_pure
  | |- Checks.never_fails_precondition (CL.print _) => apply np_emit
  | |- Checks.never_fails_precondition (CL.emit _) => apply np_emit
  | |- Checks.never_fails_precondition (Prog.verifyVectorsAreEqual _ _ _ _) =>
      apply np_emit
  | |- Checks.never_fails_precondition (CL.call _ _) => apply np_call
  | |- Checks.never_fails_precondition (CL.draw _ _) => apply np_draw
  | |- Checks.never_fails_precondition (if ?b then _ else _) => destruct b eqn:?
  | |- Checks.never_fails_precondition (match ?x with _ => _ end) => destruct x eqn:?
  end.

Section MainFacts.
Import Mach FP CL Obs Prog Ledger Checks.

Lemma np_release W program kernel :
  never_fails_precondition (release W program kernel).
Proof. unfold release. repeat np_step. Qed.

Lemma np_ScopedKernel_loop W src nb fuel :
  forall p, never_fails_precondition (ScopedKernel_loop fuel W src nb p).
Proof.
  induction fuel as [|fuel IH]; intros p; cbn [ScopedKernel_loop].
  - apply np_out_of_fuel.
  - repeat first [apply IH | apply np_release | np_step].
Qed.

Lemma np_benchmark_loop W kernel g l :
  forall n i elapsed,
    never_fails_precondition (benchmark_loop n W kernel g l i elapsed).
Proof.
  induction n as [|n IH]; intros i elapsed; cbn [benchmark_loop].
  - apply np_pure.
  - repeat first [apply IH | np_step].
Qed.

Lemma np_withInput W kernel p input verifyResults :
  is_power_of_two (Z.of_nat (length input)) = true ->
  2 <= Z.of_nat (length input) ->
  sizeof_complex_float W = 2 * sizeof_float W ->
  never_fails_precondition (withInput W kernel p input verifyResults).
Proof.
  intros Hpow Hge Hsz. unfold withInput, withInput_run.
  apply Z.leb_le in Hge. rewrite Hpow, Hge, Hsz, !Z.eqb_refl. cbn [andb].
  repeat first [apply np_benchmark_loop | np_step].
Qed.

Lemma returns_draw W n input : returns (draw W n) input -> length input = n.
Proof.
  intros [s H]. cbn in H. injection H as <-.
  now rewrite length_map, length_seq.
Qed.

Lemma np_sweep W fuel :
  sizeof_complex_float W = 2 * sizeof_float W ->
  forall n k, 3 <= k ->
    never_fails_precondition (sweep n fuel W (2 ^ k)).
Proof.
  intros Hsz. induction n as [|n IH]; intros k Hk; cbn [sweep].
  - apply np_out_of_fuel.
  - assert (H8 : 2 ^ 3 <= 2 ^ k) by (apply Z.pow_le_mono_r; lia).
    destruct (Z.ltb_spec (2 ^ k) 10000000) as [Hlt|]; [|apply np_pure].
    apply np_bind.
    + unfold sweep_iteration.
      apply np_bind; [apply np_emit|intros _ _].
      apply np_bind; [apply np_draw|intros input Hin].
      apply returns_draw in Hin.
      apply np_bind; [apply np_ScopedKernel_loop|intros sc _].
      apply np_bind.
      * apply np_withInput; try assumption; rewrite Hin, Z2Nat.id by lia.
        -- apply is_power_of_two_pow2. lia.
        -- lia.
      * intros c _. apply np_bind; [apply np_release|intros _ _].
        apply np_pure.
    + intros [|] _; [|apply np_pure].
      replace (to_int (2 ^ k * 2)) with (2 ^ (k + 1)).
      * apply IH. lia.
      * rewrite Z.pow_add_r by lia. change (2 ^ 1) with 2.
        symmetry. apply to_int_id. unfold INT_MIN, INT_MAX. lia.
Qed.

(** [main] never fails a [verify]: every input it passes to [withInput]
    has a length that is a power of two, at least 8 (given that a complex
    value takes the size of two floats). *)
Theorem main_never_fails_a_precondition :
  forall fuel W s,
    sizeof_complex_float W = 2 * sizeof_float W ->
    failed_precondition (fst (main fuel W s)) = false.
Proof.
  intros fuel W s Hsz. revert s.
  change (never_fails_precondition (main fuel W)).
  unfold main.
  repeat first [apply (np_sweep W fuel Hsz 32 3); lia | np_step].
Qed.

(** The theorem on the device with 100 bytes of local memory. *)
Lemma main_never_fails_a_precondition_small :
  failed_precondition (fst (main 3 Sample.small_world initial)) = false.
Proof.
  apply (main_never_fails_a_precondition 3 Sample.small_world initial).
  reflexivity.
Defined.


(** *** Resources *)

Lemma balanced_nil : balanced [].
Proof. now repeat split. Qed.

Lemma balanced_app a b : balanced a -> balanced b -> balanced (a ++ b).
Proof.
  unfold balanced, released_programs, created_programs, released_kernels,
    created_kernels, released_images, created_images.
  intros [H1 [H2 H3]] [H4 [H5 H6]]. rewrite !flat_map_app.
  now rewrite H1, H2, H3, H4, H5, H6.
Qed.

Lemma release_inv W program kernel s s' :
  release W program kernel s = (Ok tt, s') ->
  exists r1 r2,
    trace s' = trace s ++ [Call (clReleaseKernel kernel) r1;
                           Call (clReleaseProgram program) r2].
Proof.
  unfold release. intros H.
  rewrite bind_call, bind_CHECK in H.
  destruct (_ =? CL_SUCCESS); [|discriminate].
  rewrite bind_call in H. unfold CHECK_CL_ERROR in H.
  destruct (_ =? CL_SUCCESS); [|discriminate].
  injection H as <-. cbn [after_call trace ncalls].
  rewrite <- app_assoc. eexists _, _. reflexivity.
Qed.

Lemma sweep_iteration_balanced fuel W sz s c s' :
  sweep_iteration fuel W sz s = (Ok c, s') ->
  exists evs, trace s' = trace s ++ evs /\ balanced evs.
Proof.
  rewrite sweep_iteration_unfold. intros H.
  apply bind_inv_Ok in H as [sk [s1 [Hctor H]]].
  apply bind_inv_Ok in H as [b [s2 [Hrun H]]].
  apply bind_inv_Ok in H as [[] [s3 [Hrel H]]].
  injection H as <- <-.
  apply ScopedKernel_loop_ledger in Hctor
    as [e1 [Ht1 [Hp1 [Hk1 [Hi1 Hj1]]]]].
  apply withInput_ledger in Hrun
    as [e2 [Ht2 [Hi2 [_ [Hp2 [Hq2 [Hk2 Hl2]]]]]]].
  apply release_inv in Hrel as [r1 [r2 Ht3]].
  eexists. split.
  { rewrite Ht3, Ht2, Ht1. cbn [sweep_start trace].
    rewrite <- !app_assoc. reflexivity. }
  unfold balanced.
  unfold released_programs, created_programs, released_kernels,
    created_kernels, released_images, created_images in *.
  cbn [app flat_map]. rewrite !flat_map_app.
  rewrite Hp1, Hk1, Hi1, Hj1, Hi2, Hp2, Hq2, Hk2, Hl2.
  cbn [flat_map app]. rewrite ?app_nil_r. now repeat split.
Qed.

Lemma sweep_balanced fuel W :
  forall n sz s s',
    sweep n fuel W sz s = (Ok tt, s') ->
    exists evs, trace s' = trace s ++ evs /\ balanced evs.
Proof.
  induction n as [|n IH]; intros sz s s' H; [discriminate|].
  cbn [sweep] in H. destruct (sz <? 10000000).
  2: { injection H as <-. exists []. rewrite app_nil_r.
       split; [reflexivity|apply balanced_nil]. }
  apply bind_inv_Ok in H as [c [s1 [Hit H]]].
  apply sweep_iteration_balanced in Hit as [e1 [Ht1 Hb1]].
  destruct c.
  - apply IH in H as [e2 [Ht2 Hb2]].
    exists (e1 ++ e2). rewrite Ht2, Ht1, app_assoc.
    split; [reflexivity|now apply balanced_app].
  - injection H as <-. now exists e1.
Qed.

Lemma sweep_not_of_session fuel W :
  forall n sz, emits (sweep n fuel W sz) not_of_session.
Proof.
  induction n as [|n IH]; intros sz; cbn [sweep].
  - apply emits_out_of_fuel.
  - unfold sweep_iteration, ScopedKernel_ctor.
    repeat first [ apply IH
                 | apply ScopedKernel_loop_inner; apply inner_not_of_session
                 | apply withInput_inner; apply inner_not_of_session
                 | apply release_inner; apply inner_not_of_session
                 | emits_step; try exact I ].
Qed.

(** When [main] returns, it returns 0, every program, kernel and image
    it created has been released, in the order of creation, and the calls
    of [main] itself are the four that set the session up and the four
    that flush, finish and release it. *)
Theorem main_releases_what_it_creates :
  forall fuel W s z s',
    main fuel W s = (Ok z, s') ->
    z = 0
    /\ exists evs,
        trace s' = trace s ++ evs
        /\ balanced evs
        /\ session_calls evs =
           [clGetPlatformIDs; clGetDeviceIDs; clCreateContext;
            clCreateCommandQueue; clFlush; clFinish; clReleaseCommandQueue;
            clReleaseContext].
Proof.
  intros fuel W s z s' H. unfold main in H.
  do 4 (rewrite bind_call, bind_CHECK in H;
        destruct (_ =? CL_SUCCESS); [|discriminate]).
  apply bind_inv_Ok in H as [[] [s1 [Hsweep H]]].
  do 4 (rewrite bind_call, bind_CHECK in H;
        destruct (_ =? CL_SUCCESS); [|discriminate]).
  injection H as <- <-. split; [reflexivity|].
  match type of Hsweep with
  | sweep _ _ _ _ ?s0 = _ =>
      destruct (sweep_not_of_session fuel W 32 8 s0) as [mid' [Hm HF]];
      rewrite Hsweep in Hm; cbn [snd] in Hm
  end.
  apply sweep_balanced in Hsweep as [mid [Ht [Hp [Hk Hi]]]].
  rewrite Ht in Hm. apply app_inv_head in Hm. subst mid'.
  apply session_calls_quiet in HF.
  cbn [after_call trace ncalls] in *.
  eexists. split.
  { rewrite Ht. rewrite <- !app_assoc. cbn [app]. reflexivity. }
  unfold balanced, released_programs, created_programs, released_kernels,
    created_kernels, released_images, created_images, session_calls in *.
  cbn [flat_map app is_session_call]. rewrite !flat_map_app.
  cbn [flat_map app is_session_call].
  rewrite Hp, Hk, Hi, HF. now repeat split.
Qed.

(** The theorem on the device with 100 bytes of local memory, where the
    sweep ends at its first size. *)
Lemma main_releases_what_it_creates_small :
  0 = 0
  /\ exists evs,
      trace (snd (main 3 Sample.small_world initial)) = trace initial ++ evs
      /\ balanced evs
      /\ session_calls evs =
         [clGetPlatformIDs; clGetDeviceIDs; clCreateContext;
          clCreateCommandQueue; clFlush; clFinish; clReleaseCommandQueue;
          clReleaseContext].
Proof.
  apply (main_releases_what_it_creates 3 Sample.small_world initial 0).
  vm_compute. reflexivity.
Defined.

End MainFacts.

(** ** Runs of [main] that return *)

Section WellBehavedDevice.
Import Mach FP CL Obs Prog Ledger Checks Expect.

(** The device: what it answers to the queries of the program. *)
Variable W : World.
Variables wg local_mem : Z.

Hypothesis HW : all_succeed W.
Hypothesis Hwg :
  forall n k,
    to_size_t (out (device W n (clGetKernelWorkGroupInfo_WORK_GROUP_SIZE k)))
    = wg.
Hypothesis Hpow : is_power_of_two wg = true.
Hypothesis Hmem :
  forall n, to_size_t (out (device W n clGetDeviceInfo_LOCAL_MEM_SIZE))
            = local_mem.
(** The end of an execution is queried right after its start: no
    execution is reported to take more than [INT_MAX] nanoseconds. *)
Hypothesis Htime :
  forall n ev,
    to_size_t
      (to_size_t (out (device W (S n) (clGetEventProfilingInfo ev
                                         CL_PROFILING_COMMAND_END)))
       - to_size_t (out (device W n (clGetEventProfilingInfo ev
                                       CL_PROFILING_COMMAND_START))))
    <= INT_MAX.
Hypothesis Hsz : sizeof_complex_float W = 2 * sizeof_float W.
Hypothesis Hsc : sizeof_complex_float W <= 2 ^ 32.

(** The durations the benchmark loop reads are those of its executions,
    each within the bound. *)
Lemma benchmark_loop_bounded kernel g l :
  forall n i elapsed s elapsed' s',
    benchmark_loop n W kernel g l i elapsed s = (Ok elapsed', s') ->
    exists bev,
      trace s' = trace s ++ bev
      /\ Forall (fun d => d <= INT_MAX) (durations bev).
Proof.
  induction n as [|n IH]; intros i elapsed s elapsed' s' Hrun.
  - exists []. injection Hrun as <- <-. rewrite app_nil_r.
    split; [reflexivity|constructor].
  - cbn [benchmark_loop] in Hrun.
    rewrite !bind_call_CHECK in Hrun by assumption.
    apply IH in Hrun as [bev [Ht Hb]].
    cbn [after_call trace ncalls] in Ht. rewrite <- !app_assoc in Ht.
    cbn [app] in Ht.
    eexists (_ :: _ :: _ :: _ :: bev). split; [exact Ht|].
    unfold durations.
    cbn [time_starts time_ends flat_map app combine map fst snd].
    fold (time_starts bev). fold (time_ends bev).
    constructor; [apply Htime|exact Hb].
Qed.

Lemma total_bounded B ds :
  Forall (fun d => d <= B) ds -> total ds <= Z.of_nat (length ds) * B.
Proof.
  induction 1 as [|d ds Hd _ IH]; [cbn; lia|].
  cbn [total fold_right length]. fold (total ds). lia.
Qed.

Lemma Forall_skipn {A} (P : A -> Prop) n l :
  Forall P l -> Forall P (skipn n l).
Proof.
  intros H. apply Forall_forall. intros a Ha.
  rewrite Forall_forall in H. apply H.
  rewrite <- (firstn_skipn n l). apply in_or_app. now right.
Qed.

(** Past its local-memory test, [withInput] returns [true]. *)
Lemma withInput_returns_true kernel p input verifyResults s :
  is_power_of_two (Z.of_nat (length input)) = true ->
  2 <= Z.of_nat (length input) <= 2 ^ 23 ->
  local_memory_needed W (Z.of_nat (length input)) <= local_mem ->
  1 <= p -> 2 * p <= INT_MAX ->
  fst (withInput W kernel p input verifyResults s) = Ok true.
Proof.
  intros Hp2 HN Hfit Hp Hp'.
  assert (Hmax : Z.of_nat (length input) * sizeof_complex_float W
                 <= PTRDIFF_MAX).
  { unfold PTRDIFF_MAX. change (2 ^ 23) with 8388608 in HN.
    change (2 ^ 32) with 4294967296 in Hsc. nia. }
  assert (Hint : in_int (2 * p) = true).
  { unfold in_int, INT_MIN, INT_MAX in *.
    apply andb_true_intro. split; apply Z.leb_le; lia. }
  assert (Hdiv : (to_size_t (2 * p) =? 0) = false).
  { apply Z.eqb_neq.
    rewrite to_size_t_id; unfold size_t_mod, INT_MAX in *; lia. }
  rewrite withInput_sufficient; try assumption; try lia;
    [|now rewrite Hmem].
  unfold withInput_run.
  match goal with
  | |- context [bind ?m _ ?s0] =>
      assert (Hpro : exists s1, m s0 = (Ok tt, s1))
        by (destruct verifyResults; eexists; reflexivity)
  end.
  destruct Hpro as [s1 Hpro]. rewrite (bind_Ok _ _ _ _ _ Hpro). clear Hpro.
  rewrite bind_verify, Z.eqb_refl.
  rewrite bind_call_CHECK by assumption.
  rewrite bind_verify, Hsz, Z.eqb_refl.
  rewrite !bind_call_CHECK by assumption.
  rewrite Hint, bind_pure, Hdiv, bind_pure, bind_print.
  match goal with
  | |- context [bind (benchmark_loop ?n W kernel ?g ?l 0 double_zero) _ ?s0] =>
      destruct (benchmark_loop_succeeds W kernel g l HW n 0 double_zero s0)
        as [elapsed [s2 Hloop]];
      rewrite (bind_Ok _ _ _ _ _ Hloop);
      pose proof (benchmark_loop_bounded _ _ _ _ _ _ _ _ _ Hloop)
        as [bev' [Ht' Hb]];
      apply benchmark_loop_inv in Hloop as [bev [Ht [Hel [_ [H2 [H3 _]]]]]]
  end.
  rewrite Ht in Ht'. apply app_inv_head in Ht'. subst bev'.
  rewrite Z.sub_0_r in Hel.
  pose proof (Forall_skipn _ (Z.to_nat nSkipIterations) _ Hb) as Hb'.
  pose proof (total_bounded _ _ Hb') as Htot.
  assert (Hd : length (durations bev)
               = Z.to_nat (nSkipIterations + nIterations)).
  { unfold durations. rewrite length_map, length_combine.
    fold (time_starts bev). fold (time_ends bev). rewrite H2, H3. lia. }
  rewrite length_skipn, Hd in Htot.
  change (Z.of_nat (Z.to_nat (nSkipIterations + nIterations)
                    - Z.to_nat nSkipIterations)) with 3000 in Htot.
  assert (Hq : total (skipn (Z.to_nat nSkipIterations) (durations bev))
               / 3000 <= INT_MAX).
  { apply Z.div_le_upper_bound; lia. }
  destruct (avg_kernel_duration_exact _
              (skipn_nonneg _ _ (durations_nonneg bev)) Hq) as [Hex _].
  rewrite Hel, Hex.
  rewrite bind_print, bind_call_CHECK by assumption.
  match goal with
  | |- context [bind ?m _ ?s3] =>
      assert (Hepi : exists s4, m s3 = (Ok tt, s4))
        by (destruct verifyResults; eexists; reflexivity)
  end.
  destruct Hepi as [s4 Hepi]. rewrite (bind_Ok _ _ _ _ _ Hepi).
  rewrite !bind_call_CHECK by assumption. reflexivity.
Qed.


(** The constructor returns at every size of the sweep. *)
Lemma ScopedKernel_ctor_returns fuel src i s :
  (i <= 20)%nat ->
  exists sk s',
    ScopedKernel_ctor (S (S fuel)) W src (8 * 2 ^ Z.of_nat i) s = (Ok sk, s')
    /\ 1 <= nButterfliesPerThread sk /\ 2 * nButterfliesPerThread sk <= INT_MAX.
Proof.
  intros Hi.
  unfold is_power_of_two in Hpow. apply andb_prop in Hpow as [Hpos Hj].
  apply Z.ltb_lt in Hpos. apply Z.eqb_eq in Hj.
  set (j := Z.log2 wg) in *.
  assert (H0j : 0 <= j) by apply Z.log2_nonneg.
  set (N := 8 * 2 ^ Z.of_nat i).
  assert (HN : N / 2 = 2 ^ (Z.of_nat i + 2)).
  { subst N. rewrite Z.pow_add_r by lia. change (2 ^ 2) with 4.
    replace (8 * 2 ^ Z.of_nat i) with (2 ^ Z.of_nat i * 4 * 2) by ring.
    apply Z.div_mul. lia. }
  assert (Hle : 2 ^ (Z.of_nat i + 2) <= 2 ^ 22)
    by (apply Z.pow_le_mono_r; lia).
  assert (H1 : 1 <= 2 ^ (Z.of_nat i + 2)).
  { change 1 with (2 ^ 0). apply Z.pow_le_mono_r; lia. }
  assert (Hok : N / 2 <= wg \/ (wg | N / 2)).
  { rewrite HN, Hj. destruct (Z.le_gt_cases j (Z.of_nat i + 2)) as [Hji|Hji].
    - right. exists (2 ^ (Z.of_nat i + 2 - j)).
      rewrite <- Z.pow_add_r by lia. f_equal. lia.
    - left. apply Z.pow_le_mono_r; lia. }
  assert (Hnb : 0 <= N / 2 <= INT_MAX).
  { rewrite HN. unfold INT_MAX. change (2 ^ 22) with 4194304 in Hle. lia. }
  unfold ScopedKernel_ctor.
  rewrite to_int_id by (unfold INT_MIN, INT_MAX in *; lia).
  destruct (ScopedKernel_loop_on_divisor fuel W src (N / 2) s wg HW Hwg)
    as [sk [s' [Hrun Hp]]]; try assumption.
  exists sk, s'. split; [exact Hrun|].
  rewrite Hp, HN.
  assert (0 <= 2 ^ (Z.of_nat i + 2) / wg <= 2 ^ (Z.of_nat i + 2)).
  { split; [apply Z.div_pos; lia|].
    apply Z.div_le_upper_bound; [lia|]. nia. }
  unfold INT_MAX. change (2 ^ 22) with 4194304 in Hle. lia.
Qed.



Lemma sweep_iteration_runs fuel i s :
  (i <= 20)%nat ->
  exists s',
    sweep_iteration (S (S fuel)) W (8 * 2 ^ Z.of_nat i) s
    = (Ok (fits W local_mem (8 * 2 ^ Z.of_nat i)), s').
Proof.
  intros Hi. set (sz := 8 * 2 ^ Z.of_nat i).
  assert (Hpw : sz = 2 ^ (3 + Z.of_nat i)).
  { subst sz. rewrite Z.pow_add_r by lia. reflexivity. }
  assert (Hsz8 : 8 <= sz <= 2 ^ 23).
  { rewrite Hpw. change 8 with (2 ^ 3).
    split; apply Z.pow_le_mono_r; lia. }
  assert (Hlen : Z.of_nat (length (sweep_input W sz s)) = sz).
  { apply sweep_input_length. lia. }
  assert (Hp2 : is_power_of_two sz = true).
  { rewrite Hpw. apply is_power_of_two_pow2. lia. }
  rewrite sweep_iteration_unfold, Hlen.
  destruct (ScopedKernel_ctor_returns fuel (kernel_src W) i (sweep_start sz s)
              Hi) as [sk [s1 [Hctor [Hp Hp']]]].
  fold sz in Hctor. rewrite (bind_Ok _ _ _ _ _ Hctor).
  unfold fits.
  destruct (Z.leb_spec (local_memory_needed W sz) local_mem) as [Hfit|Hno].
  - pose proof (withInput_returns_true (kernel sk) (nButterfliesPerThread sk)
                  (sweep_input W sz s) true s1) as Hrun.
    rewrite Hlen in Hrun. specialize (Hrun Hp2 ltac:(lia) Hfit Hp Hp').
    destruct (withInput W (kernel sk) (nButterfliesPerThread sk)
                (sweep_input W sz s) true s1) as [res s2] eqn:E.
    cbn [fst] in Hrun. subst res.
    rewrite (bind_Ok _ _ _ _ _ E), bind_release by assumption.
    eexists. reflexivity.
  - assert (E : withInput W (kernel sk) (nButterfliesPerThread sk)
                  (sweep_input W sz s) true s1
                = (Ok false,
                   after_emit (Cout msg_not_enough_local_memory)
                     (after_call W clGetDeviceInfo_LOCAL_MEM_SIZE s1))).
    { apply withInput_insufficient; rewrite ?Hmem, Hlen; try assumption.
      - lia.
      - unfold PTRDIFF_MAX. change (2 ^ 23) with 8388608 in Hsz8.
        change (2 ^ 32) with 4294967296 in Hsc. nia. }
    rewrite (bind_Ok _ _ _ _ _ E), bind_release by assumption.
    eexists. reflexivity.
Qed.

Lemma sweep_runs fuel :
  forall n i s,
    (i <= 21)%nat -> (22 <= n + i)%nat ->
    exists s' evs,
      sweep n (S (S fuel)) W (8 * 2 ^ Z.of_nat i) s = (Ok tt, s')
      /\ trace s' = trace s ++ evs
      /\ input_sizes evs
         = expected_sizes (fits W local_mem) n (8 * 2 ^ Z.of_nat i).
Proof.
  induction n as [|n IH]; intros i s Hi Hn; [lia|].
  cbn [sweep expected_sizes].
  destruct (Z.ltb_spec (8 * 2 ^ Z.of_nat i) 10000000) as [Hlt|Hge].
  2: { exists s, []. rewrite app_nil_r. now repeat split. }
  assert (Hi' : (i <= 20)%nat).
  { destruct (Nat.eq_dec i 21) as [->|]; [|lia].
    exfalso. revert Hlt. vm_compute. discriminate. }
  destruct (sweep_iteration_runs fuel i s Hi') as [s1 Hit].
  destruct (sweep_iteration_sizes (S (S fuel)) W (8 * 2 ^ Z.of_nat i) s)
    as [evs1 [Ht1 Hs1]].
  rewrite Hit in Ht1. cbn [snd] in Ht1.
  rewrite (bind_Ok _ _ _ _ _ Hit).
  destruct (fits W local_mem (8 * 2 ^ Z.of_nat i)).
  - assert (Hnext : to_int (8 * 2 ^ Z.of_nat i * 2)
                    = 8 * 2 ^ Z.of_nat (S i)).
    { rewrite Nat2Z.inj_succ, Z.pow_succ_r by lia.
      assert (2 ^ Z.of_nat i <= 2 ^ 20)
        by (apply Z.pow_le_mono_r; lia).
      assert (0 < 2 ^ Z.of_nat i) by (apply Z.pow_pos_nonneg; lia).
      rewrite to_int_id; [ring|]. unfold INT_MIN, INT_MAX. lia. }
    rewrite Hnext.
    replace (8 * 2 ^ Z.of_nat i * 2) with (8 * 2 ^ Z.of_nat (S i))
      by (rewrite Nat2Z.inj_succ, Z.pow_succ_r by lia; ring).
    destruct (IH (S i) s1 ltac:(lia) ltac:(lia)) as [s' [evs2 [Hrun [Ht2 Hs2]]]].
    exists s', (evs1 ++ evs2). split; [exact Hrun|].
    rewrite Ht2, Ht1, app_assoc. split; [reflexivity|].
    unfold input_sizes in *. rewrite flat_map_app, Hs1, Hs2. reflexivity.
  - exists s1, evs1. cbn [pure]. repeat split; assumption.
Qed.

End WellBehavedDevice.

Section MainRuns.
Import Mach FP CL Obs Prog Ledger Checks Expect.

(** On a device where every call succeeds, every kernel reports the same
    work-group size, a power of two, the local-memory size is [local_mem],
    and no kernel execution is reported to take more than [INT_MAX]
    nanoseconds, [main] returns 0: the constructor returns at every size,
    [withInput] returns [true] at every size that passes its local-memory
    test, and the sizes announced are 8, 16, ... up to and including the
    first one that does not pass the test, or up to 8388608. *)
Theorem main_returns_on_well_behaved_device :
  forall fuel W wg local_mem s,
    all_succeed W ->
    (forall n k,
        to_size_t (out (device W n (clGetKernelWorkGroupInfo_WORK_GROUP_SIZE k)))
        = wg) ->
    is_power_of_two wg = true ->
    (forall n, to_size_t (out (device W n clGetDeviceInfo_LOCAL_MEM_SIZE))
               = local_mem) ->
    (forall n ev,
        to_size_t
          (to_size_t (out (device W (S n) (clGetEventProfilingInfo ev
                                             CL_PROFILING_COMMAND_END)))
           - to_size_t (out (device W n (clGetEventProfilingInfo ev
                                           CL_PROFILING_COMMAND_START))))
        <= INT_MAX) ->
    sizeof_complex_float W = 2 * sizeof_float W ->
    sizeof_complex_float W <= 2 ^ 32 ->
    exists s' evs,
      main (S (S fuel)) W s = (Ok 0, s')
      /\ trace s' = trace s ++ evs
      /\ input_sizes evs
         = expected_sizes (fits W local_mem) 32 8.
Proof.
  intros fuel W wg local_mem s HW Hwg Hpow Hmem Htime Hsz Hsc.
  unfold main. rewrite !bind_call_CHECK by assumption.
  match goal with
  | |- context [bind (sweep 32 _ W 8) _ ?s0] =>
      destruct (sweep_runs W wg local_mem HW Hwg Hpow Hmem Htime Hsz Hsc
                  fuel 32 0 s0 ltac:(lia) ltac:(lia))
        as [s1 [evs [Hrun [Ht Hs]]]]
  end.
  change (8 * 2 ^ Z.of_nat 0) with 8 in Hrun, Hs.
  rewrite (bind_Ok _ _ _ _ _ Hrun).
  rewrite !bind_call_CHECK by assumption.
  eexists _, _. split; [reflexivity|].
  cbn [after_call trace ncalls]. rewrite Ht.
  cbn [after_call trace ncalls]. split.
  { rewrite <- !app_assoc. cbn [app]. reflexivity. }
  unfold input_sizes in *. cbn [flat_map app]. rewrite !flat_map_app.
  cbn [flat_map app]. rewrite Hs, app_nil_r. reflexivity.
Qed.

(** The theorem on the device with a running clock and 4096 bytes of
    local memory, enough for 256 elements: seven sizes are announced, six
    are benchmarked. *)
Lemma main_returns_on_ticking_world :
  exists s' evs,
    main 2 Sample.ticking_world initial = (Ok 0, s')
    /\ trace s' = trace initial ++ evs
    /\ input_sizes evs = [8; 16; 32; 64; 128; 256; 512].
Proof.
  apply (main_returns_on_well_behaved_device 0 Sample.ticking_world 256 4096
           initial).
  - intros n c. destruct c; reflexivity.
  - intros n k. reflexivity.
  - reflexivity.
  - intros n. reflexivity.
  - intros n ev. cbn [Sample.ticking_world device Sample.ticking_device out].
    unfold to_size_t. rewrite <- Zminus_mod.
    replace (1000 * Z.of_nat (S n) - 1000 * Z.of_nat n) with 1000 by lia.
    vm_compute. discriminate.
  - reflexivity.
  - vm_compute. discriminate.
Defined.

End MainRuns.
